(** * STRING_app: identifier resolution and bounded 1-hop expansion

    A shallow embedding of [app/db.py] (and of the seed construction of
    [app/app.py]) together with the properties of its four operations:
    [resolve_ids], [fetch_edges_induced], [fetch_edges_adjacent] /
    [expand_1hop] and [get_node_attributes].

    Modelling conventions.
    - A Python [str] is the list of its code points ([list N]); [<] on
      strings is the lexicographic order on code points and [str.strip]
      removes the characters for which [str.isspace] holds.
    - A Python [dict] is an insertion-ordered association list with unique
      keys ([PyDict]); [d[k] = v] overwrites in place or appends.
    - A Python [set] exposes membership and an iteration order that the
      language leaves unspecified.  The order is an interface
      ([SetLayout]): any duplicate-free enumeration of the members.
    - The SQLite store is a record of row lists; a [SELECT] without
      [ORDER BY] is a scan in storage order, [LIMIT n] keeps the first [n]
      rows of the scan.  For the edge and protein queries SQLite may follow
      an index and deliver the same rows in another order: the statements
      about these queries speak of membership and multiplicity only.
      Columns that the ingestion script always fills are strings; [source]
      and the joined [preferred_name] may be [NULL]. *)

From Stdlib Require Import ZArith NArith String Ascii Lia.
From stdpp Require Import base numbers list sorting.

Local Open Scope Z_scope.

(** ** Python strings *)

Definition str := list N.

Definition lit (s : string) : str :=
  map N_of_ascii (list_ascii_of_string s).
Arguments lit s%_string.

(** [a < b] on [str]: lexicographic on code points. *)
Fixpoint str_lt (a b : str) : bool :=
  match a, b with
  | _, [] => false
  | [], _ :: _ => true
  | x :: a', y :: b' =>
      if (x <? y)%N then true
      else if (y <? x)%N then false
      else str_lt a' b'
  end.

(** [str.isspace] on one character (CPython's [_PyUnicode_IsWhitespace]). *)
Definition isspace (c : N) : bool :=
  ((9 <=? c) && (c <=? 13) || (28 <=? c) && (c <=? 32)
   || (c =? 133) || (c =? 160) || (c =? 5760)
   || (8192 <=? c) && (c <=? 8202)
   || (c =? 8232) || (c =? 8233) || (c =? 8239) || (c =? 8287)
   || (c =? 12288))%N.

Fixpoint lstrip (s : str) : str :=
  match s with
  | c :: s' => if isspace c then lstrip s' else s
  | [] => []
  end.

Definition rstrip (s : str) : str := reverse (lstrip (reverse s)).

Definition strip (s : str) : str := rstrip (lstrip s).

(** [sep.join(parts)] *)
Fixpoint join (sep : str) (parts : list str) : str :=
  match parts with
  | [] => []
  | [p] => p
  | p :: ps => p ++ sep ++ join sep ps
  end.

(** Truthiness of an [Optional[str]]: neither [None] nor empty. *)
Definition truthy (o : option str) : bool :=
  match o with
  | Some (_ :: _) => true
  | _ => false
  end.

(** [a or b] on strings where [a] may be [None]. *)
Definition str_or (a : option str) (b : str) : str :=
  match a with
  | Some (c :: s) => c :: s
  | _ => b
  end.

(** Tuple comparison [(i1, s1) < (i2, s2)] for an [(int, str)] key. *)
Definition key_lt (k1 k2 : Z * str) : bool :=
  (k1.1 <? k2.1) || ((k1.1 =? k2.1) && str_lt k1.2 k2.2).

(** ** [sorted(l, key=...)]: a stable sort comparing keys with [<] *)

Section Sorted.
Context {A K : Type} (key : A → K) (lt : K → K → bool).

(** [x] precedes in the input every element of the sorted tail, so it goes
    in front of the first element whose key is not smaller. *)
Fixpoint insert_sorted (x : A) (s : list A) : list A :=
  match s with
  | [] => [x]
  | y :: s' =>
      if lt (key y) (key x) then y :: insert_sorted x s' else x :: y :: s'
  end.

Fixpoint sorted (l : list A) : list A :=
  match l with
  | [] => []
  | x :: l' => insert_sorted x (sorted l')
  end.

(** [x] may stand before [y] in a sorted list: the key of [y] is not
    smaller than the key of [x]. *)
Definition not_after (x y : A) : Prop := lt (key y) (key x) = false.
End Sorted.

(** ** Python dictionaries *)

Module PyDict.
Section Dict.
Context {K V : Type} `{EqDecision K}.

Definition t := list (K * V).

Definition empty : t := [].

(** [d.get(k)] *)
Fixpoint get (k : K) (d : t) : option V :=
  match d with
  | [] => None
  | (k', v) :: d' => if decide (k' = k) then Some v else get k d'
  end.

(** [k in d] *)
Definition mem (k : K) (d : t) : bool :=
  match get k d with Some _ => true | None => false end.

(** [d[k] = v] *)
Fixpoint set (k : K) (v : V) (d : t) : t :=
  match d with
  | [] => [(k, v)]
  | (k', v') :: d' =>
      if decide (k' = k) then (k', v) :: d' else (k', v') :: set k v d'
  end.

(** [d.items()] and [list(d)] *)
Definition items (d : t) : list (K * V) := d.
Definition keys (d : t) : list K := d.*1.
End Dict.
Arguments t : clear implicits.
End PyDict.

(** ** Python sets *)

(** A set is represented by the sequence in which it is iterated. *)
Definition pyset := list str.

Class SetLayout := {
  (** the iteration sequence of [set(l)] *)
  py_set : list str → pyset;
  py_set_NoDup : ∀ l, NoDup (py_set l);
  py_set_elem_of : ∀ l x, x ∈ py_set l ↔ x ∈ l
}.

(** [list(s)] *)
Definition py_list (s : pyset) : list str := s.

(** ** [_chunked] *)

(** [range(0, stop, step)] for a positive [step]. *)
Definition range0 (stop step : nat) : list nat :=
  map (λ k, k * step)%nat (seq 0 ((stop + (step - 1)) / step)%nat).

(** [seq[i : i + n]] *)
Definition slice {A} (l : list A) (i n : nat) : list A := take n (drop i l).

Definition _chunked {A} (l : list A) (n : nat) : list (list A) :=
  map (λ i, slice l i n) (range0 (length l) n).

(** ** The store *)

Record ProteinRow := {
  p_protein_id : str;
  p_preferred_name : option str
}.

Record AliasRow := {
  a_alias : str;
  a_protein_id : str;
  a_source : option str;
  a_taxon_id : str
}.

Record EdgeRow := {
  e_p1 : str;
  e_p2 : str;
  e_score_int : Z
}.

Record Conn := {
  proteins : list ProteinRow;
  aliases : list AliasRow;
  edges_func : list EdgeRow;
  edges_phys : list EdgeRow
}.

(** The [table] argument: one relation per network variant. *)
Inductive Table := EdgesFunc | EdgesPhys.

Definition table_rows (conn : Conn) (table : Table) : list EdgeRow :=
  match table with
  | EdgesFunc => edges_func conn
  | EdgesPhys => edges_phys conn
  end.

(** [COLLATE NOCASE]: the 26 upper-case ASCII letters are folded. *)
Definition nocase_fold (c : N) : N :=
  if ((65 <=? c) && (c <=? 90))%N then (c + 32)%N else c.

Definition nocase_eq (a b : str) : bool :=
  bool_decide (map nocase_fold a = map nocase_fold b).

(** [SELECT protein_id, preferred_name FROM proteins WHERE protein_id = ?]
    followed by [fetchone()]. *)
Definition select_protein (conn : Conn) (pid : str) : option ProteinRow :=
  head (filter (λ p, p_protein_id p = pid) (proteins conn)).

(** A row of [a.protein_id, a.source, p.preferred_name]. *)
Record AliasHit := {
  r_protein_id : str;
  r_source : option str;
  r_preferred_name : option str
}.

(** [aliases a LEFT JOIN proteins p ON a.protein_id = p.protein_id] *)
Definition left_join (conn : Conn) : list (AliasRow * option ProteinRow) :=
  flat_map
    (λ a,
      match filter (λ p, p_protein_id p = a_protein_id a) (proteins conn) with
      | [] => [(a, None)]
      | ps => map (λ p, (a, Some p)) ps
      end)
    (aliases conn).

Definition alias_where (q2 : str) (taxon_id : option str)
    (row : AliasRow * option ProteinRow) : bool :=
  nocase_eq (a_alias row.1) q2
  && match taxon_id with
     | Some t => bool_decide (a_taxon_id row.1 = t)
     | None => true
     end.

Definition project_hit (row : AliasRow * option ProteinRow) : AliasHit :=
  {| r_protein_id := a_protein_id row.1;
     r_source := a_source row.1;
     r_preferred_name := row.2 ≫= p_preferred_name |}.

(** The rows of the alias query, with the taxon condition when [taxon_id]
    is given, before its [LIMIT]. *)
Definition alias_matches (conn : Conn) (q2 : str) (taxon_id : option str)
    : list AliasHit :=
  map project_hit
      (filter (λ row, alias_where q2 taxon_id row = true) (left_join conn)).

(** The alias query: [... LIMIT 50] and [fetchall()]. *)
Definition select_aliases (conn : Conn) (q2 : str) (taxon_id : option str)
    : list AliasHit :=
  take 50 (alias_matches conn q2 taxon_id).

(** [SELECT p1, p2, score_int FROM table WHERE score_int >= ? AND p1 IN (...)] *)
Definition select_edges_p1 (conn : Conn) (table : Table) (thr : Z)
    (chunk : list str) : list EdgeRow :=
  filter (λ r, thr ≤ e_score_int r ∧ e_p1 r ∈ chunk) (table_rows conn table).

(** The same with [p2 IN (...)]. *)
Definition select_edges_p2 (conn : Conn) (table : Table) (thr : Z)
    (chunk : list str) : list EdgeRow :=
  filter (λ r, thr ≤ e_score_int r ∧ e_p2 r ∈ chunk) (table_rows conn table).

(** [SELECT protein_id, preferred_name FROM proteins WHERE protein_id IN (...)] *)
Definition select_proteins_in (conn : Conn) (chunk : list str)
    : list ProteinRow :=
  filter (λ p, p_protein_id p ∈ chunk) (proteins conn).

(** ** [resolve_ids] *)

Inductive Status := resolved | ambiguous | unresolved.

Record ResolvedItem := {
  query : str;
  status : Status;
  protein_id : option str;
  preferred_name : option str;
  source : option str;
  candidates : option str
}.

Definition priority_sources : list str :=
  [ lit "Ensembl"; lit "Ensembl_HGNC"; lit "Ensembl_EntrezGene"; lit "HGNC";
    lit "UniProt"; lit "Gene_Name"; lit "BLAST_UniProt"; lit "RefSeq";
    lit "EntrezGene"; lit "BioMart_HUGO" ].

(** The loop [for i, s in enumerate(priority_sources)], from index [i]. *)
Fixpoint score_source_from (i : Z) (l : list str) (src : str) : Z :=
  match l with
  | [] => 9999
  | s :: l' => if decide (src = s) then i else score_source_from (i + 1) l' src
  end.

Definition score_source (src : option str) : Z :=
  match src with
  | None => 10000
  | Some s => score_source_from 0 priority_sources s
  end.

(** The sort key [(score_source(r["source"]), r["protein_id"])]. *)
Definition hit_key (r : AliasHit) : Z * str :=
  (score_source (r_source r), r_protein_id r).

(** [f'{r["protein_id"]}({r["source"]})'] *)
Definition format_candidate (r : AliasHit) : str :=
  r_protein_id r ++ lit "("
  ++ match r_source r with Some s => s | None => lit "None" end
  ++ lit ")".

(** One iteration of the loop over [queries]: the item appended to [out], or
    [None] when the iteration ends in [continue] without appending. *)
Definition resolve_query (conn : Conn) (taxon_id : option str) (q : str)
    : option ResolvedItem :=
  let q2 := strip q in
  match q2 with
  | [] => None
  | _ =>
    match select_protein conn q2 with
    | Some row =>
        Some {| query := q2; status := resolved;
                protein_id := Some (p_protein_id row);
                preferred_name := p_preferred_name row;
                source := Some (lit "direct"); candidates := None |}
    | None =>
        let rows :=
          if truthy taxon_id then select_aliases conn q2 taxon_id
          else select_aliases conn q2 None in
        match rows with
        | [] =>
            Some {| query := q2; status := unresolved; protein_id := None;
                    preferred_name := None; source := None;
                    candidates := None |}
        | [r] =>
            Some {| query := q2; status := resolved;
                    protein_id := Some (r_protein_id r);
                    preferred_name := r_preferred_name r;
                    source := r_source r; candidates := None |}
        | r0 :: _ =>
            let sorted_rows := sorted hit_key key_lt rows in
            let best := hd r0 sorted_rows in
            let candidates :=
              join (lit "; ") (map format_candidate (take 10 sorted_rows)) in
            Some {| query := q2; status := ambiguous;
                    protein_id := Some (r_protein_id best);
                    preferred_name := r_preferred_name best;
                    source := r_source best;
                    candidates := Some candidates |}
        end
    end
  end.

Definition resolve_ids (conn : Conn) (queries : list str)
    (taxon_id : option str) : list ResolvedItem :=
  fold_left
    (λ out q,
      match resolve_query conn taxon_id q with
      | Some item => out ++ [item]
      | None => out
      end)
    queries [].

(** The seed list of [app.py]:
    [[r.protein_id for r in resolved if r.status in (...) and r.protein_id]]
    followed by [list(dict.fromkeys(seed_ids))]. *)
Definition seed_of (r : ResolvedItem) : option str :=
  match status r with
  | resolved | ambiguous =>
      if truthy (protein_id r) then protein_id r else None
  | unresolved => None
  end.

Definition fromkeys (l : list str) : PyDict.t str unit :=
  fold_left (λ d k, PyDict.set k tt d) l PyDict.empty.

Definition seed_ids_of (resolved_items : list ResolvedItem) : list str :=
  PyDict.keys (fromkeys (omap seed_of resolved_items)).

(** ** Edge retrieval *)

Definition Edge : Type := str * str * Z.

Definition edge_of_row (r : EdgeRow) : Edge :=
  (e_p1 r, e_p2 r, e_score_int r).

Section Retrieval.
Context `{SetLayout}.

Definition fetch_edges_induced (conn : Conn) (protein_ids : list str)
    (score_thr_int : Z) (table : Table) : list Edge :=
  match protein_ids with
  | [] => []
  | _ =>
    let pid_set := py_set protein_ids in
    flat_map
      (λ chunk,
        let rows := select_edges_p1 conn table score_thr_int chunk in
        map edge_of_row (filter (λ r, e_p2 r ∈ pid_set) rows))
      (_chunked (py_list pid_set) 900)
  end.

(** The dedupe loop: [if key not in uniq or sc > uniq[key]: uniq[key] = sc]. *)
Definition dedupe_step (uniq : PyDict.t (str * str) Z) (e : Edge)
    : PyDict.t (str * str) Z :=
  let '(p1, p2, sc) := e in
  match PyDict.get (p1, p2) uniq with
  | None => PyDict.set (p1, p2) sc uniq
  | Some old => if old <? sc then PyDict.set (p1, p2) sc uniq else uniq
  end.

Definition dedupe (edges : list Edge) : list Edge :=
  map (λ kv, (kv.1.1, kv.1.2, kv.2))
      (PyDict.items (fold_left dedupe_step edges PyDict.empty)).

(** The rows appended to [edges] before the dedupe. *)
Definition adjacent_rows (conn : Conn) (seed_ids : list str)
    (score_thr_int : Z) (table : Table) : list Edge :=
  let seed_set := py_set seed_ids in
  flat_map
    (λ chunk,
      map edge_of_row (select_edges_p1 conn table score_thr_int chunk)
      ++ map edge_of_row (select_edges_p2 conn table score_thr_int chunk))
    (_chunked (py_list seed_set) 900).

Definition fetch_edges_adjacent (conn : Conn) (seed_ids : list str)
    (score_thr_int : Z) (table : Table) : list Edge :=
  match seed_ids with
  | [] => []
  | _ => dedupe (adjacent_rows conn seed_ids score_thr_int table)
  end.

(** ** [expand_1hop] *)

Definition accumulate_step (seed_set : pyset) (neighbor_score : PyDict.t str Z)
    (e : Edge) : PyDict.t str Z :=
  let '(p1, p2, sc) := e in
  let a_in := bool_decide (p1 ∈ seed_set) in
  let b_in := bool_decide (p2 ∈ seed_set) in
  if a_in && negb b_in then
    PyDict.set p2 (default 0 (PyDict.get p2 neighbor_score) + sc) neighbor_score
  else if b_in && negb a_in then
    PyDict.set p1 (default 0 (PyDict.get p1 neighbor_score) + sc) neighbor_score
  else neighbor_score.

Definition neighbor_scores (seed_set : pyset) (adj_edges : list Edge)
    : PyDict.t str Z :=
  fold_left (accumulate_step seed_set) adj_edges PyDict.empty.

(** The sort key [(-x[1], x[0])]. *)
Definition rank_key (x : str * Z) : Z * str := (- x.2, x.1).

Definition ranked (neighbor_score : PyDict.t str Z) : list (str * Z) :=
  sorted rank_key key_lt (PyDict.items neighbor_score).

(** The neighbours appended to [nodes]. *)
Definition admitted (nodes : list str) (neighbor_score : PyDict.t str Z)
    (max_nodes : Z) : list str :=
  if (Z.of_nat (length nodes) <? max_nodes)
     && negb (bool_decide (neighbor_score = [])) then
    let remain := max_nodes - Z.of_nat (length nodes) in
    let top_neighbors := take (Z.to_nat remain) (ranked neighbor_score) in
    map fst top_neighbors
  else [].

Definition expand_1hop (conn : Conn) (seed_ids : list str)
    (score_thr_int : Z) (table : Table) (max_nodes : Z)
    : list str * list Edge :=
  let seed_set := py_set seed_ids in
  match seed_set with
  | [] => ([], [])
  | _ =>
    let adj_edges :=
      fetch_edges_adjacent conn (py_list seed_set) score_thr_int table in
    let neighbor_score := neighbor_scores seed_set adj_edges in
    let nodes :=
      py_list seed_set
      ++ admitted (py_list seed_set) neighbor_score max_nodes in
    let induced_edges := fetch_edges_induced conn nodes score_thr_int table in
    (nodes, induced_edges)
  end.
End Retrieval.

(** ** [get_node_attributes] *)

Definition attrs_of_row (attrs : PyDict.t str (PyDict.t str str))
    (r : ProteinRow) : PyDict.t str (PyDict.t str str) :=
  PyDict.set (p_protein_id r)
    [(lit "preferred_name", str_or (p_preferred_name r) (p_protein_id r))]
    attrs.

Definition attrs_fallback (attrs : PyDict.t str (PyDict.t str str))
    (pid : str) : PyDict.t str (PyDict.t str str) :=
  if PyDict.mem pid attrs then attrs
  else PyDict.set pid [(lit "preferred_name", pid)] attrs.

Definition get_node_attributes (conn : Conn) (protein_ids : list str)
    : PyDict.t str (PyDict.t str str) :=
  match protein_ids with
  | [] => PyDict.empty
  | _ =>
    let attrs :=
      fold_left
        (λ attrs chunk,
          fold_left attrs_of_row (select_proteins_in conn chunk) attrs)
        (_chunked protein_ids 900) PyDict.empty in
    fold_left attrs_fallback protein_ids attrs
  end.

(** ** Vocabulary of the statements *)

(** Each element at its first occurrence, later copies removed. *)
Fixpoint first_occ (l : list str) : list str :=
  match l with
  | [] => []
  | x :: l' => x :: filter (λ y, y ≠ x) (first_occ l')
  end.

(** Two set layouts: first-occurrence order, and its reverse. *)
Definition first_seen_layout : SetLayout.
Proof.
  refine {| py_set := first_occ |}.
  - intros l. induction l as [|y l IH]; simpl; constructor.
    + rewrite list_elem_of_filter. by intros [? _].
    + by apply NoDup_filter.
  - intros l x. induction l as [|y l IH]; simpl; [done|].
    rewrite !elem_of_cons, list_elem_of_filter, IH.
    split; [intros [->|[? ?]]; auto|].
    intros [->|?]; [by left|]. destruct (decide (x = y)); auto.
Defined.

Definition reversed_layout : SetLayout.
Proof.
  refine {| py_set := λ l, reverse (first_occ l) |}.
  - intros l. rewrite reverse_Permutation.
    apply (@py_set_NoDup first_seen_layout).
  - intros l x. rewrite elem_of_reverse.
    apply (@py_set_elem_of first_seen_layout).
Defined.

(** The edge [e] links the non-seed [n] to a seed. *)
Definition links_to_seed (seed_set : pyset) (n : str) (e : Edge) : Prop :=
  (e.1.1 ∈ seed_set ∧ (e.1.2 ∉ seed_set) ∧ e.1.2 = n)
  ∨ (e.1.2 ∈ seed_set ∧ (e.1.1 ∉ seed_set) ∧ e.1.1 = n).

(** The total score of the edges of [edges] that link [n] to a seed. *)
Definition score_to_seeds (seed_set : pyset) (n : str) (edges : list Edge)
    : Z :=
  foldr (λ e acc, e.2 + acc) 0 (filter (links_to_seed seed_set n) edges).

(** [x] is ranked no later than [y]: a higher score, or the same score and
    an identifier that is not greater. *)
Definition ranks_before (x y : str * Z) : Prop :=
  y.2 < x.2 ∨ (x.2 = y.2 ∧ str_lt y.1 x.1 = false).

(** [r1] may stand before [r2] among the candidates: a better source rank,
    or the same rank and a canonical id that is not greater. *)
Definition candidate_before (r1 r2 : AliasHit) : Prop :=
  score_source (r_source r1) < score_source (r_source r2)
  ∨ (score_source (r_source r1) = score_source (r_source r2)
     ∧ str_lt (r_protein_id r2) (r_protein_id r1) = false).

(** The fixed source-priority list of the specification, the most
    preferred authority first; its entries are those that [resolve_ids]
    lists. *)
Definition authorities : list str :=
  [ lit "Ensembl"; lit "Ensembl_HGNC"; lit "Ensembl_EntrezGene"; lit "HGNC";
    lit "UniProt"; lit "Gene_Name"; lit "BLAST_UniProt"; lit "RefSeq";
    lit "EntrezGene"; lit "BioMart_HUGO" ].

(** The place of [s] in [l], counted from 0. *)
Fixpoint position (s : str) (l : list str) : option nat :=
  match l with
  | [] => None
  | x :: l' => if decide (s = x) then Some 0%nat else S <$> position s l'
  end.

(** The preference of a source in the specification's words: its place
    among the authorities; a source that is not listed comes after all of
    them, and a row without a source comes last. *)
Definition preference (src : option str) : nat :=
  match src with
  | Some s => default (length authorities) (position s authorities)
  | None => S (length authorities)
  end.

(** The order of the candidates in the specification's words: by preference
    of the source, ties broken by ascending canonical id. *)
Definition listed_before (r1 r2 : AliasHit) : Prop :=
  (preference (r_source r1) < preference (r_source r2))%nat
  ∨ (preference (r_source r1) = preference (r_source r2)
     ∧ str_lt (r_protein_id r2) (r_protein_id r1) = false).

(** The taxon condition that the alias query carries: [if taxon_id:]. *)
Definition effective_taxon (taxon_id : option str) : option str :=
  if truthy taxon_id then taxon_id else None.

(** The store with another alias table. *)
Definition with_aliases (conn : Conn) (al : list AliasRow) : Conn :=
  {| proteins := proteins conn; aliases := al;
     edges_func := edges_func conn; edges_phys := edges_phys conn |}.

(** The item of a direct primary-key match. *)
Definition direct_item (q2 : str) (row : ProteinRow) : ResolvedItem :=
  {| query := q2; status := resolved; protein_id := Some q2;
     preferred_name := p_preferred_name row;
     source := Some (lit "direct"); candidates := None |}.

(** The item of an ambiguous alias match with sorted candidates [cands]
    headed by [best]. *)
Definition ambiguous_item (q2 : str) (best : AliasHit)
    (cands : list AliasHit) : ResolvedItem :=
  {| query := q2; status := ambiguous;
     protein_id := Some (r_protein_id best);
     preferred_name := r_preferred_name best;
     source := r_source best;
     candidates :=
       Some (join (lit "; ") (format_candidate <$> take 10 cands)) |}.

(** What the dedupe loop maintains after the rows [seen]. *)
Record dedupe_inv (uniq : PyDict.t (str * str) Z) (seen : list Edge)
    : Prop := {
  inv_NoDup : NoDup (PyDict.keys uniq);
  inv_observed : ∀ k s, PyDict.get k uniq = Some s → (k, s) ∈ seen;
  inv_maximum :
    ∀ k s', (k, s') ∈ seen → ∃ s, PyDict.get k uniq = Some s ∧ s' ≤ s
}.

(** ** Example stores *)

Definition mk_edge (p1 p2 : str) (sc : Z) : EdgeRow :=
  {| e_p1 := p1; e_p2 := p2; e_score_int := sc |}.

Definition empty_store : Conn :=
  {| proteins := []; aliases := []; edges_func := []; edges_phys := [] |}.

(** Nodes [A, B, C, D] with edges [(A,B,500), (A,C,900), (B,C,100),
    (C,D,950)]. *)
Definition store_A : Conn :=
  {| proteins := []; aliases := [];
     edges_func :=
       [ mk_edge (lit "A") (lit "B") 500; mk_edge (lit "A") (lit "C") 900;
         mk_edge (lit "B") (lit "C") 100; mk_edge (lit "C") (lit "D") 950 ];
     edges_phys := [] |}.

(** Two neighbours of [A] with the same score, and a pair stored twice with
    different scores. *)
Definition store_tie : Conn :=
  {| proteins := []; aliases := [];
     edges_func :=
       [ mk_edge (lit "A") (lit "C") 500; mk_edge (lit "A") (lit "B") 500;
         mk_edge (lit "A") (lit "D") 100; mk_edge (lit "A") (lit "D") 300 ];
     edges_phys := [] |}.

(** The alias [X] names two proteins, through [UniProt] and through a
    source that has no rank. *)
Definition store_B : Conn :=
  {| proteins :=
       [ {| p_protein_id := lit "9606.P1"; p_preferred_name := Some (lit "N1") |};
         {| p_protein_id := lit "9606.P2"; p_preferred_name := Some (lit "N2") |} ];
     aliases :=
       [ {| a_alias := lit "X"; a_protein_id := lit "9606.P2";
            a_source := Some (lit "UnknownSrc"); a_taxon_id := lit "9606" |};
         {| a_alias := lit "x"; a_protein_id := lit "9606.P1";
            a_source := Some (lit "UniProt"); a_taxon_id := lit "9606" |} ];
     edges_func := []; edges_phys := [] |}.

(** Scenario B with the ids the other way round: the alias [X] names
    [9606.P1] through a source that is not listed and [9606.P2] through
    [UniProt], so that the order of the sources and the order of the ids
    disagree. *)
Definition store_priority : Conn :=
  {| proteins :=
       [ {| p_protein_id := lit "9606.P1"; p_preferred_name := Some (lit "N1") |};
         {| p_protein_id := lit "9606.P2"; p_preferred_name := Some (lit "N2") |} ];
     aliases :=
       [ {| a_alias := lit "X"; a_protein_id := lit "9606.P1";
            a_source := Some (lit "UnknownSrc"); a_taxon_id := lit "9606" |};
         {| a_alias := lit "X"; a_protein_id := lit "9606.P2";
            a_source := Some (lit "UniProt"); a_taxon_id := lit "9606" |} ];
     edges_func := []; edges_phys := [] |}.

(** The alias [X] names a protein of taxon [9606] and one of taxon
    [10090]. *)
Definition store_taxa : Conn :=
  {| proteins :=
       [ {| p_protein_id := lit "9606.P1"; p_preferred_name := Some (lit "N1") |};
         {| p_protein_id := lit "10090.Q1"; p_preferred_name := Some (lit "M1") |} ];
     aliases :=
       [ {| a_alias := lit "X"; a_protein_id := lit "10090.Q1";
            a_source := Some (lit "UniProt"); a_taxon_id := lit "10090" |};
         {| a_alias := lit "X"; a_protein_id := lit "9606.P1";
            a_source := Some (lit "UniProt"); a_taxon_id := lit "9606" |} ];
     edges_func := []; edges_phys := [] |}.

(** The primary key [9606.P1] is also an alias of [9606.P2]. *)
Definition store_D : Conn :=
  {| proteins :=
       [ {| p_protein_id := lit "9606.P1"; p_preferred_name := Some (lit "N1") |};
         {| p_protein_id := lit "9606.P2"; p_preferred_name := Some (lit "N2") |} ];
     aliases :=
       [ {| a_alias := lit "9606.P1"; a_protein_id := lit "9606.P2";
            a_source := Some (lit "UniProt"); a_taxon_id := lit "9606" |} ];
     edges_func := []; edges_phys := [] |}.

(** ** [get_preferred_name] *)

(** [row["preferred_name"] if row else None] *)
Definition get_preferred_name (conn : Conn) (pid : str) : option str :=
  match select_protein conn pid with
  | Some row => p_preferred_name row
  | None => None
  end.

(** ** [app.py]: [parse_input] *)

(** The line boundaries of [str.splitlines]. *)
Definition is_linebreak (c : N) : bool :=
  ((10 <=? c) && (c <=? 13) || (28 <=? c) && (c <=? 30)
   || (c =? 133) || (c =? 8232) || (c =? 8233))%N.

(** [str.splitlines()], with [cur] the line read so far: a carriage return
    followed by a line feed is one boundary, and no empty line is produced
    after a final boundary. *)
Fixpoint splitlines_from (cur : str) (s : str) : list str :=
  match s with
  | [] => match cur with [] => [] | _ => [cur] end
  | c :: s' =>
      if (c =? 13)%N then
        match s' with
        | d :: s'' =>
            if (d =? 10)%N then cur :: splitlines_from [] s''
            else cur :: splitlines_from [] s'
        | [] => cur :: splitlines_from [] s'
        end
      else if is_linebreak c then cur :: splitlines_from [] s'
      else splitlines_from (cur ++ [c]) s'
  end.

Definition splitlines (s : str) : list str := splitlines_from [] s.

(** Splitting at every run of separator characters, with [cur] the word
    read so far; no empty word is produced. *)
Fixpoint split_from (sep : N → bool) (cur : str) (s : str) : list str :=
  match s with
  | [] => match cur with [] => [] | _ => [cur] end
  | c :: s' =>
      if sep c then
        match cur with
        | [] => split_from sep [] s'
        | _ => cur :: split_from sep [] s'
        end
      else split_from sep (cur ++ [c]) s'
  end.

(** [s.split()] *)
Definition split (s : str) : list str := split_from isspace [] s.

(** [s.replace(",", " ")] *)
Definition replace_commas (s : str) : str :=
  map (λ c, if (c =? 44)%N then 32%N else c) s.

(** The words that one line adds to [raw]; nothing for a blank line. *)
Definition line_tokens (line : str) : list str :=
  match strip line with
  | [] => []
  | line' =>
      map strip
        (filter (λ t, strip t ≠ []) (split (replace_commas line')))
  end.

(** The loop [if t not in seen: seen.add(t); out.append(t)]; the set [seen]
    is only tested for membership. *)
Definition dedupe_tokens (raw : list str) : list str :=
  (fold_left
     (λ (st : list str * list str) t,
       if bool_decide (t ∈ st.1) then st else (t :: st.1, st.2 ++ [t]))
     raw ([], [])).2.

Definition parse_input (text : str) : list str :=
  let raw :=
    fold_left (λ raw line, raw ++ line_tokens line) (splitlines text) [] in
  dedupe_tokens raw.

(** ** [app.py]: the graph of the run block *)

Inductive Mode := InducedOnly | OneHop.

(** [l[:k]] *)
Definition slice_to {A} (l : list A) (k : Z) : list A :=
  if k <? 0 then take (Z.to_nat (Z.of_nat (length l) + k)) l
  else take (Z.to_nat k) l.

(** [if len(nodes) > int(max_nodes): nodes = nodes[: int(max_nodes)]] *)
Definition hard_cap (nodes : list str) (max_nodes : Z) : list str :=
  if max_nodes <? Z.of_nat (length nodes) then slice_to nodes max_nodes
  else nodes.

(** [{n: 0 for n in nodes}] *)
Definition deg_init (nodes : list str) : PyDict.t str Z :=
  fold_left (λ d n, PyDict.set n 0 d) nodes PyDict.empty.

(** [if a in deg: deg[a] += 1] *)
Definition deg_bump (deg : PyDict.t str Z) (a : str) : PyDict.t str Z :=
  match PyDict.get a deg with
  | Some v => PyDict.set a (v + 1) deg
  | None => deg
  end.

Definition degrees (nodes : list str) (edges : list Edge) : PyDict.t str Z :=
  fold_left
    (λ deg (e : Edge), let '(a, b, _) := e in deg_bump (deg_bump deg a) b)
    edges (deg_init nodes).

(** The rows of [df_nodes]: [protein_id], [preferred_name], [degree].
    [None] stands for the [KeyError] of [node_attrs[n]["preferred_name"]]. *)
Definition node_table (node_attrs : PyDict.t str (PyDict.t str str))
    (deg : PyDict.t str Z) (nodes : list str)
    : option (list (str * str * Z)) :=
  mapM
    (λ n,
      entry ← PyDict.get n node_attrs;
      name ← PyDict.get (lit "preferred_name") entry;
      Some (n, name, default 0 (PyDict.get n deg)))
    nodes.

Section RunBlock.
Context `{SetLayout}.

(** From the seed list to the node and edge lists handed to the tables. *)
Definition build_graph (conn : Conn) (mode : Mode) (seed_ids : list str)
    (score_thr_int : Z) (table : Table) (max_nodes : Z)
    : list str * list Edge :=
  let '(nodes, edges) :=
    match mode with
    | OneHop => expand_1hop conn seed_ids score_thr_int table max_nodes
    | InducedOnly =>
        (seed_ids, fetch_edges_induced conn seed_ids score_thr_int table)
    end in
  (hard_cap nodes max_nodes, edges).

Definition graph_node_table (conn : Conn) (mode : Mode) (seed_ids : list str)
    (score_thr_int : Z) (table : Table) (max_nodes : Z)
    : option (list (str * str * Z)) :=
  let '(nodes, edges) :=
    build_graph conn mode seed_ids score_thr_int table max_nodes in
  node_table (get_node_attributes conn nodes) (degrees nodes edges) nodes.
End RunBlock.

(** ** [viz.py]: node size *)

(** [10 + min(30, deg.get(n, 0))] *)
Definition node_size (deg : PyDict.t str Z) (n : str) : Z :=
  10 + Z.min 30 (default 0 (PyDict.get n deg)).

(** ** [scripts/build_db.py] *)

(** A file is the list of the lines that reading it yields.  Two library
    functions are taken as given: [is_decimal] tells the characters that the
    pattern [\d] matches, and [py_int] is [int(s)], [None] standing for
    [ValueError]. *)

Definition BATCH : Z := 50000.

Fixpoint lstrip_by (p : N → bool) (s : str) : str :=
  match s with
  | c :: s' => if p c then lstrip_by p s' else s
  | [] => []
  end.

Definition rstrip_by (p : N → bool) (s : str) : str :=
  reverse (lstrip_by p (reverse s)).

(** [s.rstrip("\n")] *)
Definition rstrip_newlines (s : str) : str := rstrip_by (λ c, c =? 10)%N s.

(** [s.startswith("#")] *)
Definition startswith_hash (s : str) : bool :=
  match s with
  | c :: _ => (c =? 35)%N
  | [] => false
  end.

(** [re.split(r"\s+", s)]: [cur] is the field read so far and [in_ws] tells
    that the last character was white space. *)
Fixpoint re_split_from (in_ws : bool) (cur : str) (s : str) : list str :=
  match s with
  | [] => [cur]
  | c :: s' =>
      if isspace c then
        if in_ws then re_split_from true cur s'
        else cur :: re_split_from true [] s'
      else re_split_from false (cur ++ [c]) s'
  end.

Definition re_split_ws (s : str) : list str := re_split_from false [] s.

Definition sniff_header_and_split (line : str) : list str * bool :=
  let s := rstrip_newlines line in
  match s with
  | [] => ([], false)
  | _ =>
      if startswith_hash s then
        (re_split_ws (strip (lstrip_by (λ c, c =? 35)%N s)), true)
      else (re_split_ws (strip s), false)
  end.

(** [first = f.readline()], the columns, and the lines that the loop
    reads: all of them when the first line is no header. *)
Definition read_header (defaults : list str) (lines : list str)
    : list str * list str :=
  let first := hd [] lines in
  let '(cols, is_header) := sniff_header_and_split first in
  if is_header then (cols, tl lines) else (defaults, first :: tl lines).

(** [{c: i for i, c in enumerate(cols)}] *)
Definition colmap_of (cols : list str) : PyDict.t str nat :=
  fold_left (λ d (ic : nat * str), PyDict.set ic.2 ic.1 d)
            (zip (seq 0 (length cols)) cols) PyDict.empty.

(** [colmap.get(name, dflt)] *)
Definition col (colmap : PyDict.t str nat) (name : str) (dflt : nat) : nat :=
  default dflt (PyDict.get name colmap).

(** [parts[i]] for an index that the length test has admitted. *)
Definition part (parts : list str) (i : nat) : str :=
  default [] (parts !! i).

(** The tests that skip a line, and its fields. *)
Definition fields_of_line (line : str) : option (list str) :=
  if bool_decide (strip line = []) then None
  else if startswith_hash line then None
  else Some (re_split_ws (rstrip_newlines line)).

(** [if p2 < p1: p1, p2 = p2, p1] *)
Definition canonical_pair (p1 p2 : str) : str * str :=
  if str_lt p2 p1 then (p2, p1) else (p1, p2).

(** [cur.executemany]: the rows are inserted one after the other, and an
    insertion may fail. *)
Fixpoint executemany {T Row} (ins : T → Row → option T) (t : T)
    (rows : list Row) : option T :=
  match rows with
  | [] => Some t
  | r :: rows' =>
      match ins t r with
      | Some t' => executemany ins t' rows'
      | None => None
      end
  end.

(** One turn of a loading loop: the row of the line, if any, is appended to
    [buf], which is inserted and cleared when it has reached [BATCH]. *)
Definition load_step {T Row} (ins : T → Row → option T)
    (st : option (T * list Row * Z)) (row : option Row)
    : option (T * list Row * Z) :=
  match st, row with
  | None, _ => None
  | Some st, None => Some st
  | Some (t, buf, inserted), Some r =>
      let buf := buf ++ [r] in
      if BATCH <=? Z.of_nat (length buf) then
        match executemany ins t buf with
        | Some t' => Some (t', [], inserted + Z.of_nat (length buf))
        | None => None
        end
      else Some (t, buf, inserted)
  end.

(** [if buf: executemany(...)] after the loop. *)
Definition load_finish {T Row} (ins : T → Row → option T)
    (st : option (T * list Row * Z)) : option (T * Z) :=
  match st with
  | None => None
  | Some (t, buf, inserted) =>
      match buf with
      | [] => Some (t, inserted)
      | _ =>
          match executemany ins t buf with
          | Some t' => Some (t', inserted + Z.of_nat (length buf))
          | None => None
          end
      end
  end.

(** The loop over the lines, then the insertion of what is left in [buf];
    the result is the table and the number of rows inserted. *)
Definition load_loop {T Row} (ins : T → Row → option T) (t : T)
    (rows : list (option Row)) : option (T * Z) :=
  load_finish ins (fold_left (load_step ins) rows (Some (t, [], 0))).

(** An [INTEGER] column holds 64-bit values; a larger [int] raises. *)
Definition fits_integer (r : EdgeRow) : bool :=
  (- 2 ^ 63 <=? e_score_int r) && (e_score_int r <? 2 ^ 63).

Definition insert_edge (rows : list EdgeRow) (r : EdgeRow)
    : option (list EdgeRow) :=
  if fits_integer r then Some (rows ++ [r]) else None.

Definition insert_alias (rows : list AliasRow) (r : AliasRow)
    : option (list AliasRow) :=
  Some (rows ++ [r]).

(** [INSERT OR REPLACE] on the primary key: a row with the same id is
    deleted before the new row is added. *)
Definition insert_or_replace_protein (rows : list ProteinRow) (r : ProteinRow)
    : option (list ProteinRow) :=
  Some (filter (λ p, p_protein_id p ≠ p_protein_id r) rows ++ [r]).

Definition set_table (conn : Conn) (table : Table) (rows : list EdgeRow)
    : Conn :=
  match table with
  | EdgesFunc =>
      {| proteins := proteins conn; aliases := aliases conn;
         edges_func := rows; edges_phys := edges_phys conn |}
  | EdgesPhys =>
      {| proteins := proteins conn; aliases := aliases conn;
         edges_func := edges_func conn; edges_phys := rows |}
  end.

Definition set_proteins (conn : Conn) (rows : list ProteinRow) : Conn :=
  {| proteins := rows; aliases := aliases conn;
     edges_func := edges_func conn; edges_phys := edges_phys conn |}.

Section Ingest.
Context (is_decimal : N → bool) (py_int : str → option Z).

(** [re.match(r"^(\d+)\.", s)] with [acc] the digits matched so far: the
    longest run of digits that a dot follows. *)
Fixpoint taxon_from (acc : str) (s : str) : option str :=
  match s with
  | [] => None
  | c :: s' =>
      let here :=
        match acc with
        | [] => None
        | _ => if (c =? 46)%N then Some acc else None
        end in
      if is_decimal c then
        match taxon_from (acc ++ [c]) s' with
        | Some t => Some t
        | None => here
        end
      else here
  end.

Definition parse_taxon_id (protein_id : str) : option str :=
  taxon_from [] protein_id.

(** The row that one line of a links file adds to [buf]. *)
Definition edge_of_line (p1_i p2_i sc_i : nat) (line : str)
    : option EdgeRow :=
  match fields_of_line line with
  | None => None
  | Some parts =>
      if (length parts <=? p1_i `max` (p2_i `max` sc_i))%nat then None
      else
        match py_int (part parts sc_i) with
        | None => None
        | Some sc =>
            let '(p1, p2) :=
              canonical_pair (part parts p1_i) (part parts p2_i) in
            Some {| e_p1 := p1; e_p2 := p2; e_score_int := sc |}
        end
  end.

(** The rows of a links file, in the order of its lines. *)
Definition edge_rows_of_lines (lines : list str) : list (option EdgeRow) :=
  let '(cols, data) :=
    read_header [lit "protein1"; lit "protein2"; lit "combined_score"]
      lines in
  let colmap := colmap_of cols in
  let p1_i := col colmap (lit "protein1") 0 in
  let p2_i := col colmap (lit "protein2") 1 in
  let sc_i :=
    col colmap (lit "combined_score") (col colmap (lit "score") 2) in
  map (edge_of_line p1_i p2_i sc_i) data.

Definition load_edges (conn : Conn) (lines : list str) (table : Table)
    : option (Conn * Z) :=
  match load_loop insert_edge (table_rows conn table)
          (edge_rows_of_lines lines) with
  | Some (rows, inserted) => Some (set_table conn table rows, inserted)
  | None => None
  end.

(** The row that one line of an aliases file adds to [buf]. *)
Definition alias_of_line (pid_i alias_i source_i : nat) (line : str)
    : option AliasRow :=
  match fields_of_line line with
  | None => None
  | Some parts =>
      if (length parts <=? pid_i `max` (alias_i `max` source_i))%nat
      then None
      else
        let pid := part parts pid_i in
        let alias := part parts alias_i in
        let source :=
          if (source_i <? length parts)%nat then part parts source_i
          else [] in
        let taxon := str_or (parse_taxon_id pid) [] in
        Some {| a_alias := alias; a_protein_id := pid;
                a_source := Some source; a_taxon_id := taxon |}
  end.

Definition alias_rows_of_lines (lines : list str) : list (option AliasRow) :=
  let '(cols, data) :=
    read_header [lit "protein_id"; lit "alias"; lit "source"] lines in
  let colmap := colmap_of cols in
  let pid_i := col colmap (lit "protein_id") 0 in
  let alias_i := col colmap (lit "alias") 1 in
  let source_i := col colmap (lit "source") 2 in
  map (alias_of_line pid_i alias_i source_i) data.

Definition load_aliases (conn : Conn) (lines : list str)
    : option (Conn * Z) :=
  match load_loop insert_alias (aliases conn) (alias_rows_of_lines lines) with
  | Some (rows, inserted) => Some (with_aliases conn rows, inserted)
  | None => None
  end.

(** The row that one line of a protein info file adds to [buf]; the
    annotation column is not part of the store that the queries read. *)
Definition protein_of_line (pid_i name_i ann_i : nat) (line : str)
    : option ProteinRow :=
  match fields_of_line line with
  | None => None
  | Some parts =>
      if (length parts <=? pid_i `max` (name_i `max` ann_i))%nat then None
      else
        let pid := part parts pid_i in
        let pname :=
          if (name_i <? length parts)%nat then part parts name_i else [] in
        Some {| p_protein_id := pid; p_preferred_name := Some pname |}
  end.

Definition protein_rows_of_lines (lines : list str)
    : list (option ProteinRow) :=
  let '(cols, data) :=
    read_header [lit "protein_id"; lit "preferred_name"; lit "annotation"]
      lines in
  let colmap := colmap_of cols in
  let pid_i := col colmap (lit "protein_id") 0 in
  let name_i := col colmap (lit "preferred_name") 1 in
  let ann_i := col colmap (lit "annotation") 2 in
  map (protein_of_line pid_i name_i ann_i) data.

Definition load_proteins_info (conn : Conn) (lines : list str)
    : option (Conn * Z) :=
  match load_loop insert_or_replace_protein (proteins conn)
          (protein_rows_of_lines lines) with
  | Some (rows, inserted) => Some (set_proteins conn rows, inserted)
  | None => None
  end.
End Ingest.

(** The ASCII digits, and the reading of a string of ASCII digits. *)
Definition ascii_decimal (c : N) : bool := ((48 <=? c) && (c <=? 57))%N.

Definition ascii_int (s : str) : option Z :=
  match s with
  | [] => None
  | _ =>
      if forallb ascii_decimal s
      then Some (fold_left (λ acc c, 10 * acc + Z.of_N (c - 48)) s 0)
      else None
  end.

(** ** Vocabulary of the further statements *)

(** [e] is a row of the table. *)
Definition stored (conn : Conn) (table : Table) (e : Edge) : Prop :=
  e ∈ edge_of_row <$> table_rows conn table.

(** The row [r] links [n] to a seed. *)
Definition row_links (seeds : list str) (n : str) (r : EdgeRow) : Prop :=
  (e_p1 r ∈ seeds ∧ e_p2 r = n) ∨ (e_p2 r ∈ seeds ∧ e_p1 r = n).

(** The item of a query without any match. *)
Definition unresolved_item (q2 : str) : ResolvedItem :=
  {| query := q2; status := unresolved; protein_id := None;
     preferred_name := None; source := None; candidates := None |}.

(** The item of a query with one alias match. *)
Definition alias_item (q2 : str) (r : AliasHit) : ResolvedItem :=
  {| query := q2; status := resolved; protein_id := Some (r_protein_id r);
     preferred_name := r_preferred_name r; source := r_source r;
     candidates := None |}.

(** The same item under another query string. *)
Definition with_query (q2 : str) (item : ResolvedItem) : ResolvedItem :=
  {| query := q2; status := status item; protein_id := protein_id item;
     preferred_name := preferred_name item; source := source item;
     candidates := candidates item |}.

(** What every item of the resolver satisfies. *)
Definition item_ok (item : ResolvedItem) : Prop :=
  query item ≠ []
  ∧ (status item = unresolved ↔ protein_id item = None)
  ∧ (status item = ambiguous ↔ is_Some (candidates item))
  ∧ (status item = unresolved →
     preferred_name item = None ∧ source item = None).

(** [protein_id] is the primary key of [proteins]. *)
Definition primary_key (conn : Conn) : Prop :=
  NoDup (p_protein_id <$> proteins conn).

(** The entry [{"preferred_name": name}]. *)
Definition name_entry (name : str) : PyDict.t str str :=
  [(lit "preferred_name", name)].

(** The entry of [k] is [{"preferred_name": name}], with a non-empty name
    unless [k] is empty. *)
Definition entry_ok (kv : str * PyDict.t str str) : Prop :=
  ∃ name, kv.2 = name_entry name ∧ (kv.1 ≠ [] → name ≠ []).

(** What the loops of [get_node_attributes] maintain. *)
Record attrs_inv (ids : list str) (attrs : PyDict.t str (PyDict.t str str))
    : Prop := {
  attrs_NoDup : NoDup (PyDict.keys attrs);
  attrs_keys : ∀ k, k ∈ PyDict.keys attrs → k ∈ ids;
  attrs_entries : Forall entry_ok (PyDict.items attrs)
}.

(** The separators of [parse_input]: white space and the comma. *)
Definition is_separator (c : N) : bool := isspace c || (c =? 44)%N.

(** A word: non-empty and free of separators. *)
Definition word_ok (sep : N → bool) (t : str) : Prop :=
  t ≠ [] ∧ Forall (λ c, sep c = false) t.

(** The number of endpoints of [edges] that are [n]. *)
Definition endpoint_count (n : str) (edges : list Edge) : Z :=
  Z.of_nat (length (filter (λ e : Edge, e.1.1 = n) edges)
            + length (filter (λ e : Edge, e.1.2 = n) edges)).

(** The sum of the values of a dictionary. *)
Definition sum_values {K} (d : PyDict.t K Z) : Z :=
  foldr (λ kv acc, kv.2 + acc) 0 (PyDict.items d).

(** The id of an alias row starts with its taxon and a dot, unless the row
    has no taxon. *)
Definition taxon_prefixed (a : AliasRow) : Prop :=
  a_taxon_id a = [] ∨ ∃ rest, a_protein_id a = a_taxon_id a ++ 46%N :: rest.

(** * Properties *)

(** ** The order on strings *)

Lemma str_lt_irrefl (a : str) : str_lt a a = false.
Proof.
  induction a as [|x a IH]; simpl; [done|].
  by rewrite N.ltb_irrefl.
Qed.

Lemma str_lt_trans (a b c : str) :
  str_lt a b = true → str_lt b c = true → str_lt a c = true.
Proof.
  revert b c. induction a as [|x a IH]; intros [|y b] [|z c]; simpl; try done.
  destruct (N.ltb_spec x y), (N.ltb_spec y x), (N.ltb_spec y z),
    (N.ltb_spec z y), (N.ltb_spec x z), (N.ltb_spec z x);
    try done; try lia; eauto.
Qed.

Lemma str_lt_total (a b : str) :
  str_lt a b = false → str_lt b a = false → a = b.
Proof.
  revert b. induction a as [|x a IH]; intros [|y b]; simpl; try done.
  destruct (N.ltb_spec x y), (N.ltb_spec y x); try done; try lia.
  intros. f_equal; [lia | eauto].
Qed.

Lemma str_lt_asym (a b : str) : str_lt a b = true → str_lt b a = false.
Proof.
  intros Hab. destruct (str_lt b a) eqn:Hba; [|done].
  by rewrite <- (str_lt_irrefl a), <- (str_lt_trans a b a).
Qed.

Lemma key_lt_spec (k1 k2 : Z * str) :
  key_lt k1 k2 = true ↔
  k1.1 < k2.1 ∨ (k1.1 = k2.1 ∧ str_lt k1.2 k2.2 = true).
Proof.
  unfold key_lt. rewrite orb_true_iff, andb_true_iff, Z.ltb_lt, Z.eqb_eq.
  done.
Qed.

Lemma key_lt_asym (k1 k2 : Z * str) :
  key_lt k1 k2 = true → key_lt k2 k1 = false.
Proof.
  intros H12. apply not_true_is_false. revert H12.
  rewrite !key_lt_spec. intros [?|[? H1]] [?|[? H2]]; try lia.
  apply str_lt_asym in H1. congruence.
Qed.

Lemma key_lt_ntrans (k1 k2 k3 : Z * str) :
  key_lt k2 k1 = false → key_lt k3 k2 = false → key_lt k3 k1 = false.
Proof.
  intros H21 H32. apply not_true_is_false.
  apply not_true_iff_false in H21, H32. revert H21 H32.
  rewrite !key_lt_spec. intros H21 H32 [H|[Heq H]].
  - destruct (Z.lt_trichotomy k2.1 k1.1) as [?|[?|?]]; [tauto| |].
    + apply H32. left. lia.
    + apply H32. left. lia.
  - destruct (Z.lt_trichotomy k2.1 k1.1) as [?|[?|?]]; [tauto| |].
    + destruct (str_lt k2.2 k1.2) eqn:E21; [tauto|].
      destruct (str_lt k3.2 k2.2) eqn:E32; [apply H32; right; split; [lia|done]|].
      destruct (str_lt k1.2 k2.2) eqn:E12.
      * by rewrite (str_lt_trans _ _ _ H E12) in E32.
      * rewrite (str_lt_total _ _ E12 E21) in H. congruence.
    + apply H32. left. lia.
Qed.

(** ** Properties of [sorted] *)

Section SortedFacts.
Context {A K : Type} (key : A → K) (lt : K → K → bool).

Lemma insert_sorted_Permutation (x : A) (s : list A) :
  insert_sorted key lt x s ≡ₚ x :: s.
Proof.
  induction s as [|y s IH]; simpl; [done|].
  destruct (lt (key y) (key x)); [|done].
  rewrite IH. apply Permutation_swap.
Qed.

Lemma sorted_Permutation (l : list A) : sorted key lt l ≡ₚ l.
Proof.
  induction l as [|x l IH]; simpl; [done|].
  by rewrite insert_sorted_Permutation, IH.
Qed.

Lemma sorted_length (l : list A) : length (sorted key lt l) = length l.
Proof. apply Permutation_length, sorted_Permutation. Qed.

Hypothesis lt_asym : ∀ a b, lt a b = true → lt b a = false.
Hypothesis lt_ntrans :
  ∀ a b c, lt b a = false → lt c b = false → lt c a = false.

Lemma insert_sorted_StronglySorted (x : A) (s : list A) :
  StronglySorted (not_after key lt) s →
  StronglySorted (not_after key lt) (insert_sorted key lt x s).
Proof.
  induction 1 as [|y s Hs IH Hy]; simpl.
  - repeat constructor.
  - destruct (lt (key y) (key x)) eqn:E.
    + constructor; [done|].
      rewrite Forall_forall. intros z.
      rewrite insert_sorted_Permutation, elem_of_cons.
      intros [->|Hz]; [by apply lt_asym|].
      by rewrite Forall_forall in Hy; apply Hy.
    + constructor; [by constructor|].
      constructor; [done|].
      eapply Forall_impl; [exact Hy|].
      intros z Hz. unfold not_after in *. eauto.
Qed.

Lemma sorted_StronglySorted (l : list A) :
  StronglySorted (not_after key lt) (sorted key lt l).
Proof.
  induction l as [|x l IH]; simpl; [constructor|].
  by apply insert_sorted_StronglySorted.
Qed.
End SortedFacts.

(** ** Properties of dictionaries *)

Section DictFacts.
Context {K V : Type} `{EqDecision K}.
Implicit Types (d : PyDict.t K V) (k : K) (v : V).

Lemma get_None d k : PyDict.get k d = None ↔ k ∉ PyDict.keys d.
Proof.
  unfold PyDict.keys. induction d as [|[k' v'] d IH]; simpl.
  - split; [intros _; apply not_elem_of_nil | done].
  - rewrite not_elem_of_cons. destruct (decide (k' = k)); simpl.
    + split; [done | intros [? _]; subst; done].
    + rewrite IH. split; [intros; split; [congruence|done] | tauto].
Qed.

Lemma get_Some_elem_of d k v : PyDict.get k d = Some v → (k, v) ∈ d.
Proof.
  induction d as [|[k' v'] d IH]; simpl; [done|].
  destruct (decide (k' = k)) as [->|].
  - intros [= ->]. apply elem_of_cons. by left.
  - intros. apply elem_of_cons. right. auto.
Qed.

Lemma elem_of_get_Some d k v :
  NoDup (PyDict.keys d) → (k, v) ∈ d → PyDict.get k d = Some v.
Proof.
  unfold PyDict.keys. induction d as [|[k' v'] d IH]; simpl.
  - intros _ Hin. by apply elem_of_nil in Hin.
  - rewrite NoDup_cons, elem_of_cons. intros [Hk' Hd] [[= <- <-]|Hin].
    + by rewrite decide_True.
    + destruct (decide (k' = k)) as [->|]; [|auto].
      destruct Hk'. apply list_elem_of_fmap. by exists (k, v).
Qed.

Lemma get_set d k k' v :
  PyDict.get k (PyDict.set k' v d)
  = if decide (k' = k) then Some v else PyDict.get k d.
Proof.
  induction d as [|[k0 v0] d IH]; simpl.
  - by destruct (decide (k' = k)).
  - destruct (decide (k0 = k')) as [->|Hne]; simpl.
    + by destruct (decide (k' = k)).
    + rewrite IH. destruct (decide (k0 = k)) as [->|]; [|done].
      by rewrite decide_False by congruence.
Qed.

Lemma keys_set d k v :
  PyDict.keys (PyDict.set k v d)
  = if decide (k ∈ PyDict.keys d) then PyDict.keys d
    else PyDict.keys d ++ [k].
Proof.
  unfold PyDict.keys. induction d as [|[k0 v0] d IH].
  - destruct (decide (k ∈ ([] : PyDict.t K V).*1)) as [Hin|]; [|done].
    by apply elem_of_nil in Hin.
  - cbn [PyDict.set]. destruct (decide (k0 = k)) as [->|Hne].
    + rewrite decide_True; [done | apply elem_of_cons; by left].
    + rewrite fmap_cons, IH. destruct (decide (k ∈ d.*1)) as [Hin|Hnin].
      * rewrite decide_True; [done | apply elem_of_cons; by right].
      * rewrite decide_False; [done|].
        rewrite fmap_cons, not_elem_of_cons. split; [simpl; congruence | done].
Qed.

Lemma keys_set_NoDup d k v :
  NoDup (PyDict.keys d) → NoDup (PyDict.keys (PyDict.set k v d)).
Proof.
  intros Hd. rewrite keys_set. destruct (decide (k ∈ PyDict.keys d)); [done|].
  apply NoDup_app. split; [done|]. split; [|apply NoDup_singleton].
  intros x Hx ->%list_elem_of_singleton. done.
Qed.

Lemma elem_of_keys_set d k k' v :
  k ∈ PyDict.keys (PyDict.set k' v d) ↔ k = k' ∨ k ∈ PyDict.keys d.
Proof.
  rewrite keys_set. destruct (decide (k' ∈ PyDict.keys d)).
  - split; [by right | by intros [->|?]].
  - rewrite elem_of_app, list_elem_of_singleton. tauto.
Qed.
End DictFacts.

(** ** Properties of [_chunked] *)

Lemma range0_elem_of (stop step i : nat) :
  (0 < step)%nat → (i < stop)%nat → (i / step * step)%nat ∈ range0 stop step.
Proof.
  intros Hstep Hi. unfold range0.
  apply list_elem_of_fmap. exists (i / step)%nat. split; [done|].
  apply elem_of_seq. split; [lia|]. simpl.
  replace (stop + (step - 1))%nat with ((stop - 1) + 1 * step)%nat by lia.
  rewrite Nat.div_add by lia.
  assert (i / step ≤ (stop - 1) / step)%nat; [|lia].
  apply Nat.Div0.div_le_mono. lia.
Qed.

Lemma elem_of_chunked {A} (l : list A) (n : nat) (x : A) :
  (0 < n)%nat → x ∈ l ↔ ∃ chunk, chunk ∈ _chunked l n ∧ x ∈ chunk.
Proof.
  intros Hn. unfold _chunked, slice. split.
  - intros [i Hi]%list_elem_of_lookup.
    pose proof (lookup_lt_Some _ _ _ Hi) as Hlen.
    exists (take n (drop (i / n * n) l)). split.
    + apply list_elem_of_fmap. eexists. split; [done|].
      by apply range0_elem_of.
    + apply list_elem_of_lookup. exists (i mod n)%nat.
      rewrite lookup_take_lt by (apply Nat.mod_upper_bound; lia).
      rewrite lookup_drop. rewrite <- Hi. f_equal.
      pose proof (Nat.div_mod_eq i n). lia.
  - intros (chunk & (i & -> & _)%list_elem_of_fmap & Hx).
    eapply subseteq_drop, subseteq_take, Hx.
Qed.

Lemma elem_of_flat_map {A B} (f : A → list B) (l : list A) (y : B) :
  y ∈ flat_map f l ↔ ∃ x, x ∈ l ∧ y ∈ f x.
Proof.
  rewrite list_elem_of_In, in_flat_map.
  by setoid_rewrite list_elem_of_In.
Qed.

Lemma py_set_empty `{SetLayout} : py_set [] = [].
Proof.
  destruct (py_set []) as [|x s] eqn:E; [done|].
  assert (x ∈ py_set []) as Hx by (rewrite E; apply elem_of_cons; by left).
  apply (proj1 (py_set_elem_of _ _)) in Hx. by apply elem_of_nil in Hx.
Qed.

Lemma py_set_length `{SetLayout} (l : list str) :
  length (py_set l) = length (remove_dups l).
Proof.
  apply Permutation_length, NoDup_Permutation.
  - apply py_set_NoDup.
  - apply NoDup_remove_dups.
  - intros x. by rewrite py_set_elem_of, elem_of_remove_dups.
Qed.

(** ** The dedupe loop of [fetch_edges_adjacent] *)

Lemma dedupe_inv_empty : dedupe_inv PyDict.empty [].
Proof.
  split.
  - constructor.
  - done.
  - intros k s' Hin. by apply elem_of_nil in Hin.
Qed.

Lemma dedupe_inv_step uniq seen e :
  dedupe_inv uniq seen → dedupe_inv (dedupe_step uniq e) (seen ++ [e]).
Proof.
  intros [Hnd Hobs Hmax]. destruct e as [[p1 p2] sc]. unfold dedupe_step.
  destruct (PyDict.get (p1, p2) uniq) as [old|] eqn:Hget;
    [destruct (Z.ltb_spec old sc)|].
  - split.
    + by apply keys_set_NoDup.
    + intros k s. rewrite get_set, elem_of_app, list_elem_of_singleton.
      case_decide; [intros [= <-]; subst; by right | intros; left; auto].
    + intros k s'. rewrite elem_of_app, list_elem_of_singleton, get_set.
      intros [Hin|[= -> ->]]; case_decide; subst; eauto with lia.
      * destruct (Hmax _ _ Hin) as (s & Hs & ?). exists sc. split; [done|].
        rewrite Hget in Hs. injection Hs as <-. lia.
      * done.
  - split; [done|..].
    + intros k s Hk. apply elem_of_app. left. auto.
    + intros k s'. rewrite elem_of_app, list_elem_of_singleton.
      intros [Hin|[= -> ->]]; [auto|]. exists old. split; [done|lia].
  - split.
    + by apply keys_set_NoDup.
    + intros k s. rewrite get_set, elem_of_app, list_elem_of_singleton.
      case_decide; [intros [= <-]; subst; by right | intros; left; auto].
    + intros k s'. rewrite elem_of_app, list_elem_of_singleton, get_set.
      intros [Hin|[= -> ->]]; case_decide; subst; eauto with lia.
      * destruct (Hmax _ _ Hin) as (s & Hs & ?). congruence.
      * done.
Qed.

Lemma dedupe_inv_fold edges uniq seen :
  dedupe_inv uniq seen →
  dedupe_inv (fold_left dedupe_step edges uniq) (seen ++ edges).
Proof.
  revert uniq seen. induction edges as [|e edges IH]; intros uniq seen Hinv.
  - by rewrite app_nil_r.
  - simpl. rewrite cons_middle, app_assoc. by apply IH, dedupe_inv_step.
Qed.

Lemma dedupe_items (d : PyDict.t (str * str) Z) :
  map (λ kv : str * str * Z, (kv.1.1, kv.1.2, kv.2)) (PyDict.items d) = d.
Proof.
  unfold PyDict.items. induction d as [|[[p1 p2] s] d IH]; simpl; [done|].
  by rewrite IH.
Qed.

Lemma dedupe_eq (edges : list Edge) :
  dedupe edges = fold_left dedupe_step edges PyDict.empty.
Proof. unfold dedupe. apply dedupe_items. Qed.

Lemma dedupe_spec (edges : list Edge) :
  NoDup (dedupe edges).*1
  ∧ (∀ k s, (k, s) ∈ dedupe edges ↔
            (k, s) ∈ edges ∧ ∀ s', (k, s') ∈ edges → s' ≤ s).
Proof.
  rewrite dedupe_eq.
  destruct (dedupe_inv_fold edges _ _ dedupe_inv_empty) as [Hnd Hobs Hmax].
  rewrite app_nil_l in Hobs, Hmax. split; [done|].
  intros k s. split.
  - intros Hin%elem_of_get_Some; [|done]. split; [auto|].
    intros s' (s0 & Hs0 & ?)%Hmax. congruence.
  - intros [Hin Hle]. destruct (Hmax _ _ Hin) as (s0 & Hs0 & ?).
    pose proof (Hle _ (Hobs _ _ Hs0)).
    assert (s0 = s) as -> by lia. by apply get_Some_elem_of.
Qed.

Section RetrievalFacts.
Context `{SetLayout}.

Lemma elem_of_chunked_py_set (ids : list str) (x : str) :
  x ∈ ids ↔ ∃ chunk, chunk ∈ _chunked (py_list (py_set ids)) 900 ∧ x ∈ chunk.
Proof.
  unfold py_list. rewrite <- elem_of_chunked by lia. symmetry.
  apply py_set_elem_of.
Qed.

(** C3: an edge is returned by [fetch_edges_induced] exactly when it is a
    stored row of the chosen table whose score is at least the threshold and
    whose two endpoints both belong to the requested ids; this holds for any
    number of ids, hence across all batches of 900. *)
Theorem fetch_edges_induced_elem_of conn ids thr table (e : Edge) :
  e ∈ fetch_edges_induced conn ids thr table ↔
  (∃ r, r ∈ table_rows conn table ∧ edge_of_row r = e)
  ∧ thr ≤ e.2 ∧ e.1.1 ∈ ids ∧ e.1.2 ∈ ids.
Proof.
  unfold fetch_edges_induced. destruct ids as [|i0 ids0] eqn:Eids.
  { split; [by intros ?%elem_of_nil | by intros (_ & _ & ?%elem_of_nil & _)]. }
  rewrite <- Eids. clear Eids. rewrite elem_of_flat_map. split.
  - intros (chunk & Hchunk & (r & -> & Hr)%list_elem_of_fmap).
    apply list_elem_of_filter in Hr as [Hp2 Hr].
    apply list_elem_of_filter in Hr as [[Hthr Hp1] Hr].
    apply (proj1 (py_set_elem_of _ _)) in Hp2. simpl.
    repeat split; eauto. apply elem_of_chunked_py_set. eauto.
  - intros ((r & Hr & <-) & Hthr & Hp1 & Hp2). simpl in *.
    apply elem_of_chunked_py_set in Hp1 as (chunk & Hchunk & Hp1).
    exists chunk. split; [done|]. apply list_elem_of_fmap. exists r.
    split; [done|]. apply list_elem_of_filter. split.
    + by apply py_set_elem_of.
    + apply list_elem_of_filter. done.
Qed.

Lemma adjacent_rows_elem_of conn seeds thr table (e : Edge) :
  e ∈ adjacent_rows conn seeds thr table ↔
  (∃ r, r ∈ table_rows conn table ∧ edge_of_row r = e)
  ∧ thr ≤ e.2 ∧ (e.1.1 ∈ seeds ∨ e.1.2 ∈ seeds).
Proof.
  unfold adjacent_rows. rewrite elem_of_flat_map. split.
  - intros (chunk & Hchunk & Hin). apply elem_of_app in Hin.
    destruct Hin as [(r & -> & Hr)%list_elem_of_fmap
                    |(r & -> & Hr)%list_elem_of_fmap];
      apply list_elem_of_filter in Hr as [[Hthr Hp] Hr]; simpl;
      (split; [eauto|]); (split; [done|]); [left|right];
      apply elem_of_chunked_py_set; eauto.
  - intros ((r & Hr & <-) & Hthr & [Hp|Hp]); simpl in *;
      apply elem_of_chunked_py_set in Hp as (chunk & Hchunk & Hp);
      exists chunk; (split; [done|]); apply elem_of_app; [left|right];
      apply list_elem_of_fmap; exists r; (split; [done|]);
      by apply list_elem_of_filter.
Qed.

Lemma adjacent_rows_nil conn thr table : adjacent_rows conn [] thr table = [].
Proof. unfold adjacent_rows. by rewrite py_set_empty. Qed.

Lemma fetch_edges_adjacent_eq conn seeds thr table :
  fetch_edges_adjacent conn seeds thr table
  = dedupe (adjacent_rows conn seeds thr table).
Proof.
  unfold fetch_edges_adjacent. destruct seeds; [|done].
  by rewrite adjacent_rows_nil.
Qed.

(** C4: the list returned by [fetch_edges_adjacent] holds every pair
    [(p1, p2)] at most once, and an edge is returned exactly when its score
    was observed for its pair during retrieval (in the [p1] pass or the [p2]
    pass of some batch) and no larger score was observed for that pair. *)
Theorem fetch_edges_adjacent_dedup_max conn seeds thr table :
  let out := fetch_edges_adjacent conn seeds thr table in
  let observed := adjacent_rows conn seeds thr table in
  NoDup out.*1
  ∧ ∀ p1 p2 s,
      (p1, p2, s) ∈ out ↔
      (p1, p2, s) ∈ observed ∧ ∀ s', (p1, p2, s') ∈ observed → s' ≤ s.
Proof.
  cbv zeta. rewrite fetch_edges_adjacent_eq.
  destruct (dedupe_spec (adjacent_rows conn seeds thr table)) as [Hnd Hmax].
  split; [done|]. intros p1 p2 s. apply Hmax.
Qed.
End RetrievalFacts.

Lemma StronglySorted_lookup {A} (R : relation A) (l : list A) i j x y :
  StronglySorted R l → l !! i = Some x → l !! j = Some y → (i < j)%nat →
  R x y.
Proof.
  intros Hl. revert i j. induction Hl as [|z l Hl IH Hz]; intros i j Hi Hj Hij.
  - done.
  - destruct j as [|j]; [lia|]. destruct i as [|i]; simpl in *.
    + injection Hi as ->. rewrite Forall_forall in Hz.
      by eapply Hz, list_elem_of_lookup_2.
    + eapply IH; [done..|lia].
Qed.

Lemma StronglySorted_mono {A} (R1 R2 : relation A) (l : list A) :
  (∀ x y, R1 x y → R2 x y) → StronglySorted R1 l → StronglySorted R2 l.
Proof.
  intros HR. induction 1 as [|x l Hl IH Hx]; constructor; [done|].
  eapply Forall_impl; [exact Hx | auto].
Qed.

(** ** Neighbour scores *)

Section ExpandFacts.
Context `{SetLayout}.

Lemma accumulate_step_keys seed_set d e k :
  k ∈ PyDict.keys (accumulate_step seed_set d e) →
  k ∈ PyDict.keys d ∨ k ∉ seed_set.
Proof.
  destruct e as [[p1 p2] sc]. unfold accumulate_step.
  destruct (bool_decide_reflect (p1 ∈ seed_set)),
    (bool_decide_reflect (p2 ∈ seed_set)); simpl;
    rewrite ?elem_of_keys_set; intros Hk; try (by left);
    destruct Hk as [->|Hk]; auto.
Qed.

Lemma accumulate_step_NoDup seed_set d e :
  NoDup (PyDict.keys d) → NoDup (PyDict.keys (accumulate_step seed_set d e)).
Proof.
  destruct e as [[p1 p2] sc]. unfold accumulate_step.
  destruct (bool_decide (p1 ∈ seed_set)), (bool_decide (p2 ∈ seed_set));
    simpl; auto using keys_set_NoDup.
Qed.

Lemma neighbor_scores_fold seed_set edges d :
  NoDup (PyDict.keys d) → (∀ k, k ∈ PyDict.keys d → k ∉ seed_set) →
  let d' := fold_left (accumulate_step seed_set) edges d in
  NoDup (PyDict.keys d') ∧ ∀ k, k ∈ PyDict.keys d' → k ∉ seed_set.
Proof.
  revert d. induction edges as [|e edges IH]; intros d Hnd Hout; simpl.
  - done.
  - apply IH; [by apply accumulate_step_NoDup|].
    intros k [?|?]%accumulate_step_keys; auto.
Qed.

Lemma accumulate_step_get seed_set d e n :
  PyDict.get n (accumulate_step seed_set d e)
  = if decide (links_to_seed seed_set n e)
    then Some (default 0 (PyDict.get n d) + e.2)
    else PyDict.get n d.
Proof.
  destruct e as [[p1 p2] sc]. unfold accumulate_step, links_to_seed. simpl.
  destruct (bool_decide_reflect (p1 ∈ seed_set)) as [H1|H1],
    (bool_decide_reflect (p2 ∈ seed_set)) as [H2|H2]; simpl;
    rewrite ?get_set; repeat case_decide; subst; try done; tauto.
Qed.

Lemma neighbor_scores_get_fold seed_set edges d n :
  PyDict.get n (fold_left (accumulate_step seed_set) edges d)
  = match filter (links_to_seed seed_set n) edges with
    | [] => PyDict.get n d
    | _ => Some (default 0 (PyDict.get n d) + score_to_seeds seed_set n edges)
    end.
Proof.
  unfold score_to_seeds. revert d.
  induction edges as [|e edges IH]; intros d; [done|].
  cbn [fold_left]. rewrite IH, accumulate_step_get, filter_cons.
  destruct (decide (links_to_seed seed_set n e)); [|done].
  cbn [foldr default].
  destruct (filter (links_to_seed seed_set n) edges), (PyDict.get n d);
    simpl; f_equal; lia.
Qed.

Lemma neighbor_scores_NoDup seed_set edges :
  NoDup (PyDict.keys (neighbor_scores seed_set edges)).
Proof.
  apply (neighbor_scores_fold seed_set edges PyDict.empty); [constructor|].
  by intros k ?%elem_of_nil.
Qed.

Lemma neighbor_scores_not_seed seed_set edges k :
  k ∈ PyDict.keys (neighbor_scores seed_set edges) → k ∉ seed_set.
Proof.
  apply (neighbor_scores_fold seed_set edges PyDict.empty); [constructor|].
  by intros k' ?%elem_of_nil.
Qed.

Lemma neighbor_scores_accumulated seed_set edges n s :
  (n, s) ∈ PyDict.items (neighbor_scores seed_set edges) →
  s = score_to_seeds seed_set n edges.
Proof.
  intros Hin. apply elem_of_get_Some in Hin; [|apply neighbor_scores_NoDup].
  revert Hin. unfold neighbor_scores, PyDict.items.
  rewrite neighbor_scores_get_fold.
  destruct (filter _ edges); simpl; [done|]. intros [= <-]. lia.
Qed.

(** ** Ranking *)

Lemma ranked_Permutation (d : PyDict.t str Z) : ranked d ≡ₚ PyDict.items d.
Proof. apply sorted_Permutation. Qed.

Lemma not_after_ranks_before (x y : str * Z) :
  not_after rank_key key_lt x y → ranks_before x y.
Proof.
  unfold not_after, ranks_before, rank_key. intros Hk.
  apply not_true_iff_false in Hk. rewrite key_lt_spec in Hk. simpl in Hk.
  destruct (Z.lt_trichotomy x.2 y.2) as [?|[?|?]]; [|right|left; lia].
  - destruct Hk. left. lia.
  - split; [done|]. destruct (str_lt y.1 x.1) eqn:E; [|done].
    destruct Hk. right. split; [lia|done].
Qed.

Lemma ranked_StronglySorted (d : PyDict.t str Z) :
  StronglySorted ranks_before (ranked d).
Proof.
  eapply StronglySorted_mono; [apply not_after_ranks_before|].
  apply sorted_StronglySorted; [apply key_lt_asym | apply key_lt_ntrans].
Qed.

Lemma admitted_eq (nodes : list str) (d : PyDict.t str Z) (max_nodes : Z) :
  admitted nodes d max_nodes
  = (take (Z.to_nat (max_nodes - Z.of_nat (length nodes))) (ranked d)).*1.
Proof.
  unfold admitted.
  destruct (Z.ltb_spec (Z.of_nat (length nodes)) max_nodes); simpl.
  - case_bool_decide as Hd; simpl; [|done].
    subst d. cbn. by rewrite take_nil.
  - replace (Z.to_nat _) with 0%nat by lia. by rewrite take_0.
Qed.

Lemma admitted_length (nodes : list str) (d : PyDict.t str Z) (max_nodes : Z) :
  Z.of_nat (length (admitted nodes d max_nodes))
  ≤ Z.max 0 (max_nodes - Z.of_nat (length nodes)).
Proof.
  rewrite admitted_eq, length_fmap, length_take. lia.
Qed.

Lemma expand_1hop_nodes conn seeds thr table max_nodes :
  let seed_set := py_set seeds in
  let scores :=
    neighbor_scores seed_set
      (fetch_edges_adjacent conn (py_list seed_set) thr table) in
  (expand_1hop conn seeds thr table max_nodes).1
  = py_list seed_set
    ++ (take (Z.to_nat (max_nodes - Z.of_nat (length seed_set)))
             (ranked scores)).*1.
Proof.
  cbv zeta. unfold expand_1hop.
  destruct (py_set seeds) as [|s0 ss] eqn:E.
  - cbn. by rewrite take_nil.
  - cbn [fst]. by rewrite admitted_eq.
Qed.
End ExpandFacts.

Lemma first_occ_elem_of (l : list str) (x : str) : x ∈ first_occ l ↔ x ∈ l.
Proof. apply (@py_set_elem_of first_seen_layout). Qed.

Lemma first_occ_NoDup (l : list str) : NoDup (first_occ l).
Proof. apply (@py_set_NoDup first_seen_layout). Qed.

Lemma py_set_first_occ `{SetLayout} (l : list str) : py_set l ≡ₚ first_occ l.
Proof.
  apply NoDup_Permutation.
  - apply py_set_NoDup.
  - apply first_occ_NoDup.
  - intros x. by rewrite py_set_elem_of, first_occ_elem_of.
Qed.

(** ** [expand_1hop] *)

Section ExpandClaims.
Context `{SetLayout}.

(** When the distinct seeds alone reach [max_nodes], [expand_1hop] returns
    all of them and admits no neighbour: it never drops a seed. *)
Lemma expand_1hop_over_budget conn seeds thr table max_nodes :
  max_nodes ≤ Z.of_nat (length (remove_dups seeds)) →
  (expand_1hop conn seeds thr table max_nodes).1 = py_list (py_set seeds).
Proof.
  intros Hle. rewrite expand_1hop_nodes, py_set_length.
  replace (Z.to_nat (max_nodes - Z.of_nat (length (remove_dups seeds))))
    with 0%nat by lia.
  by rewrite take_0, app_nil_r.
Qed.

(** The bound that [expand_1hop] keeps: its node list has at most
    [max(max_nodes, number of distinct seeds)] entries, hence at most
    [max_nodes] whenever the distinct seeds do not exceed [max_nodes]. *)
Theorem expand_1hop_length_bound conn seeds thr table max_nodes :
  Z.of_nat (length (expand_1hop conn seeds thr table max_nodes).1)
  ≤ Z.max max_nodes (Z.of_nat (length (remove_dups seeds))).
Proof.
  rewrite expand_1hop_nodes. unfold py_list.
  rewrite length_app, length_fmap, length_take, py_set_length. lia.
Qed.

(** C2 (amended): with [n] the number of distinct seeds, the first [n]
    nodes of [expand_1hop] are the distinct seeds, each once, in the
    iteration order of the seed set; the remaining nodes are the admitted
    neighbours, a prefix of the ranking, in rank order. *)
Theorem expand_1hop_seeds_then_ranked conn seeds thr table max_nodes :
  let nodes := (expand_1hop conn seeds thr table max_nodes).1 in
  let seed_set := py_set seeds in
  let scores :=
    neighbor_scores seed_set
      (fetch_edges_adjacent conn (py_list seed_set) thr table) in
  let n := length (first_occ seeds) in
  take n nodes ≡ₚ first_occ seeds
  ∧ drop n nodes
    = (take (Z.to_nat (max_nodes - Z.of_nat n)) (ranked scores)).*1
  ∧ StronglySorted ranks_before (ranked scores).
Proof.
  cbv zeta. rewrite expand_1hop_nodes. unfold py_list.
  assert (length (first_occ seeds) = length (py_set seeds)) as ->.
  { symmetry. apply Permutation_length, py_set_first_occ. }
  rewrite take_app_length, drop_app_length.
  split; [apply py_set_first_occ|]. split; [done|].
  apply ranked_StronglySorted.
Qed.

Lemma ranked_tie_break (d : PyDict.t str Z) i j a b s :
  ranked d !! i = Some (a, s) → ranked d !! j = Some (b, s) →
  str_lt a b = true → (i < j)%nat.
Proof.
  intros Hi Hj Hab. destruct (lt_eq_lt_dec i j) as [[?| ->]|Hji]; [done|..].
  - rewrite Hi in Hj. injection Hj as ->. by rewrite str_lt_irrefl in Hab.
  - pose proof (StronglySorted_lookup _ _ _ _ _ _
      (ranked_StronglySorted d) Hj Hi Hji) as [?|[_ Hba]]; simpl in *.
    + lia.
    + congruence.
Qed.

(** C8: the score of a candidate of [expand_1hop] is the total score of
    the adjacent edges that link it to a seed; the candidates are ranked by
    descending score, ties by ascending identifier; the nodes are the seed
    set followed by the top [max_nodes - len(seed set)] of that ranking; and
    of two candidates with equal score, whenever the one with the greater
    identifier is admitted, the one with the smaller identifier is admitted
    at an earlier position. *)
Theorem expand_1hop_ranking conn seeds thr table max_nodes :
  let nodes := (expand_1hop conn seeds thr table max_nodes).1 in
  let seed_set := py_set seeds in
  let scores :=
    neighbor_scores seed_set
      (fetch_edges_adjacent conn (py_list seed_set) thr table) in
  let remain := Z.to_nat (max_nodes - Z.of_nat (length seed_set)) in
  (∀ n s, (n, s) ∈ PyDict.items scores →
          s = score_to_seeds seed_set n
                (fetch_edges_adjacent conn (py_list seed_set) thr table))
  ∧ ranked scores ≡ₚ PyDict.items scores
  ∧ StronglySorted ranks_before (ranked scores)
  ∧ nodes = py_list seed_set ++ (take remain (ranked scores)).*1
  ∧ ∀ a b s j,
      (a, s) ∈ PyDict.items scores → (b, s) ∈ PyDict.items scores →
      str_lt a b = true →
      drop (length seed_set) nodes !! j = Some b →
      ∃ i, (i < j)%nat ∧ drop (length seed_set) nodes !! i = Some a.
Proof.
  cbv zeta. rewrite expand_1hop_nodes. unfold py_list.
  set (scores := neighbor_scores _ _).
  set (remain := Z.to_nat _).
  split; [intros n s; apply neighbor_scores_accumulated|].
  split; [apply ranked_Permutation|].
  split; [apply ranked_StronglySorted|]. split; [done|].
  intros a b s j Ha Hb Hab. rewrite drop_app_length.
  rewrite !list_lookup_fmap. intros Hj.
  destruct (take remain (ranked scores) !! j) as [[b' s']|] eqn:Ej;
    [|done]. injection Hj as ->.
  apply lookup_take_Some in Ej as [Ej Hjr].
  assert (s' = s) as ->.
  { assert ((b, s') ∈ PyDict.items scores) as Hb'.
    { rewrite <- ranked_Permutation. by eapply list_elem_of_lookup_2. }
    pose proof (neighbor_scores_NoDup (py_set seeds)
      (fetch_edges_adjacent conn (py_set seeds) thr table)) as Hnd.
    apply (elem_of_get_Some _ _ _ Hnd) in Hb, Hb'.
    unfold scores in Hb'. congruence. }
  rewrite <- ranked_Permutation in Ha.
  apply list_elem_of_lookup_1 in Ha as [i Hi].
  pose proof (ranked_tie_break _ _ _ _ _ _ Hi Ej Hab) as Hij.
  exists i. split; [done|].
  rewrite list_lookup_fmap, lookup_take_lt by lia. by rewrite Hi.
Qed.

(** C10: the seed set is iterated without repetition, scores are
    accumulated only for identifiers that are not seeds, each candidate has
    one score entry, and the node list of [expand_1hop] has no duplicate. *)
Theorem expand_1hop_nodes_NoDup conn seeds thr table max_nodes :
  let seed_set := py_set seeds in
  let scores :=
    neighbor_scores seed_set
      (fetch_edges_adjacent conn (py_list seed_set) thr table) in
  NoDup (py_list seed_set)
  ∧ (∀ k, k ∈ PyDict.keys scores → k ∉ seeds)
  ∧ NoDup (PyDict.keys scores)
  ∧ NoDup (expand_1hop conn seeds thr table max_nodes).1.
Proof.
  cbv zeta. unfold py_list.
  set (scores := neighbor_scores _ _).
  assert (∀ k, k ∈ PyDict.keys scores → k ∉ seeds) as Hout.
  { intros k Hk%neighbor_scores_not_seed. by rewrite py_set_elem_of in Hk. }
  pose proof (neighbor_scores_NoDup (py_set seeds)
    (fetch_edges_adjacent conn (py_set seeds) thr table)) as Hnd.
  fold scores in Hnd.
  split; [apply py_set_NoDup|]. split; [done|]. split; [done|].
  rewrite expand_1hop_nodes. fold scores. unfold py_list.
  assert (NoDup (ranked scores).*1) as Hr.
  { unfold PyDict.keys in Hnd. by rewrite ranked_Permutation. }
  apply NoDup_app. split; [apply py_set_NoDup|]. split.
  - intros x Hx Hadm. rewrite py_set_elem_of in Hx.
    apply (Hout x); [|done]. unfold PyDict.keys.
    rewrite <- (ranked_Permutation scores).
    eapply list_elem_of_fmap in Hadm as (kv & -> & Hkv).
    apply list_elem_of_fmap. exists kv. split; [done|].
    eapply subseteq_take, Hkv.
  - rewrite fmap_take. eapply sublist_NoDup; [exact Hr | apply sublist_take].
Qed.
End ExpandClaims.

(** C1: two distinct seeds with [max_nodes = 1] give two nodes, one more
    than the bound that the comment on the induced edges takes for
    granted. *)
Lemma expand_1hop_exceeds_max_nodes :
  ¬ (Z.of_nat
       (length
          (@expand_1hop first_seen_layout empty_store [lit "A"; lit "B"] 0
             EdgesFunc 1).1)
     ≤ 1).
Proof. vm_compute. intros Hle. by apply Hle. Qed.

(** C2: under the reversed layout the seeds [B, A] come back as [A, B]. *)
Lemma expand_1hop_seed_order_lost :
  take 2
    (@expand_1hop reversed_layout empty_store [lit "B"; lit "A"] 0
       EdgesFunc 5).1
  ≠ [lit "B"; lit "A"].
Proof. vm_compute. discriminate. Qed.

(** Scenario A of the specification: seeds [A], threshold 0, two nodes. *)
Example expand_1hop_scenario_A :
  @expand_1hop first_seen_layout store_A [lit "A"] 0 EdgesFunc 2
  = ([lit "A"; lit "C"], [(lit "A", lit "C", 900)]).
Proof. vm_compute. reflexivity. Qed.

(** A pair stored with the scores 100 and 300 is returned once, with 300. *)
Example fetch_edges_adjacent_keeps_maximum :
  @fetch_edges_adjacent first_seen_layout store_tie [lit "D"] 0 EdgesFunc
  = [(lit "A", lit "D", 300)].
Proof. vm_compute. reflexivity. Qed.

(** C8 on [store_tie]: [B] and [C] both score 500 and [C] is admitted at
    position 1, so [B] is admitted at position 0. *)
Lemma expand_1hop_ranking_tie :
  ∃ i, (i < 1)%nat
       ∧ drop 1
           (@expand_1hop first_seen_layout store_tie [lit "A"] 0 EdgesFunc
              3).1 !! i
         = Some (lit "B").
Proof.
  apply (proj2 (proj2 (proj2 (proj2
    (@expand_1hop_ranking first_seen_layout store_tie [lit "A"] 0 EdgesFunc
       3)))) (lit "B") (lit "C") 500 1%nat).
  - vm_compute. apply list_elem_of_further, list_elem_of_here.
  - vm_compute. apply list_elem_of_here.
  - reflexivity.
  - reflexivity.
Defined.

(** ** [resolve_ids] *)

Lemma resolve_ids_fold conn taxon qs out :
  fold_left
    (λ out q,
      match resolve_query conn taxon q with
      | Some item => out ++ [item]
      | None => out
      end) qs out
  = out ++ omap (resolve_query conn taxon) qs.
Proof.
  revert out. induction qs as [|q qs IH]; intros out; simpl.
  - by rewrite app_nil_r.
  - rewrite IH. destruct (resolve_query conn taxon q); [|done].
    by rewrite <- app_assoc.
Qed.

Lemma resolve_ids_omap conn taxon qs :
  resolve_ids conn qs taxon = omap (resolve_query conn taxon) qs.
Proof. unfold resolve_ids. by rewrite resolve_ids_fold. Qed.

Lemma resolve_ids_app conn taxon qs1 qs2 :
  resolve_ids conn (qs1 ++ qs2) taxon
  = resolve_ids conn qs1 taxon ++ resolve_ids conn qs2 taxon.
Proof. by rewrite !resolve_ids_omap, omap_app. Qed.

Lemma resolve_query_None conn taxon q :
  strip q = [] → resolve_query conn taxon q = None.
Proof. unfold resolve_query. by intros ->. Qed.

Lemma resolve_query_Some conn taxon q :
  strip q ≠ [] →
  ∃ item, resolve_query conn taxon q = Some item ∧ query item = strip q.
Proof.
  unfold resolve_query. destruct (strip q) as [|c s] eqn:E; [done|].
  intros _. destruct (select_protein conn (c :: s)); [eauto|].
  destruct (if truthy taxon then _ else _) as [|r0 [|r1 rows]]; eauto.
Qed.

Lemma select_protein_Some conn pid row :
  select_protein conn pid = Some row →
  row ∈ proteins conn ∧ p_protein_id row = pid.
Proof.
  unfold select_protein. intros Hrow.
  apply head_Some_elem_of in Hrow.
  apply list_elem_of_filter in Hrow. tauto.
Qed.

Lemma resolve_query_direct conn taxon q row :
  strip q ≠ [] → select_protein conn (strip q) = Some row →
  resolve_query conn taxon q = Some (direct_item (strip q) row).
Proof.
  intros Hq Hrow. unfold resolve_query. rewrite Hrow.
  apply select_protein_Some in Hrow as [_ ->].
  by destruct (strip q).
Qed.

Lemma resolve_query_alias conn taxon q :
  strip q ≠ [] → select_protein conn (strip q) = None →
  resolve_query conn taxon q
  = match select_aliases conn (strip q) (effective_taxon taxon) with
    | [] =>
        Some {| query := strip q; status := unresolved; protein_id := None;
                preferred_name := None; source := None; candidates := None |}
    | [r] =>
        Some {| query := strip q; status := resolved;
                protein_id := Some (r_protein_id r);
                preferred_name := r_preferred_name r;
                source := r_source r; candidates := None |}
    | r0 :: rows =>
        let sorted_rows := sorted hit_key key_lt (r0 :: rows) in
        Some (ambiguous_item (strip q) (hd r0 sorted_rows) sorted_rows)
    end.
Proof.
  intros Hq Hnone. unfold resolve_query, effective_taxon. rewrite Hnone.
  destruct (strip q) as [|c s]; [done|].
  destruct (truthy taxon);
    by destruct (select_aliases _ _ _) as [|r0 [|r1 rows]].
Qed.

Lemma not_after_candidate_before (r1 r2 : AliasHit) :
  not_after hit_key key_lt r1 r2 → candidate_before r1 r2.
Proof.
  unfold not_after, candidate_before, hit_key. intros Hk.
  apply not_true_iff_false in Hk. rewrite key_lt_spec in Hk. simpl in Hk.
  destruct (Z.lt_trichotomy (score_source (r_source r1))
              (score_source (r_source r2))) as [?|[?|?]]; [by left|right|].
  - split; [done|]. destruct (str_lt _ _) eqn:E; [|done].
    destruct Hk. by right.
  - destruct Hk. by left.
Qed.

Lemma score_source_from_spec (l : list str) (i0 : Z) (s : str) :
  (∀ i, l !! i = Some s → (∀ j, (j < i)%nat → l !! j ≠ Some s) →
        score_source_from i0 l s = i0 + Z.of_nat i)
  ∧ (s ∉ l → score_source_from i0 l s = 9999).
Proof.
  revert i0. induction l as [|x l IH]; intros i0; simpl.
  - split; [done | done].
  - destruct (decide (s = x)) as [->|Hne].
    + split.
      * intros [|i] Hi Hfirst; [lia|].
        destruct (Hfirst 0%nat); [lia|done].
      * intros Hnin. destruct Hnin. apply elem_of_cons. by left.
    + destruct (IH (i0 + 1)) as [IH1 IH2]. split.
      * intros [|i] Hi Hfirst; simpl in Hi; [congruence|].
        rewrite (IH1 i Hi); [lia|].
        intros j Hj. apply (Hfirst (S j)). lia.
      * intros Hnin. apply IH2. rewrite not_elem_of_cons in Hnin. tauto.
Qed.

Lemma priority_sources_NoDup : NoDup priority_sources.
Proof. apply (bool_decide_unpack _). by vm_compute. Qed.

Lemma score_source_ranked (i : nat) (s : str) :
  priority_sources !! i = Some s → score_source (Some s) = Z.of_nat i.
Proof.
  intros Hi.
  change (score_source (Some s)) with (score_source_from 0 priority_sources s).
  destruct (score_source_from_spec priority_sources 0 s) as [Hs _].
  rewrite (Hs i Hi); [lia|].
  intros j Hj Hjs.
  pose proof (NoDup_lookup _ _ _ _ priority_sources_NoDup Hi Hjs). lia.
Qed.

Lemma score_source_unranked (s : str) :
  s ∉ priority_sources → score_source (Some s) = 9999.
Proof. apply score_source_from_spec. Qed.

Lemma select_aliases_length conn q2 tx :
  (2 ≤ length (alias_matches conn q2 tx))%nat →
  (2 ≤ length (select_aliases conn q2 tx))%nat.
Proof. unfold select_aliases. rewrite length_take. lia. Qed.

Lemma resolve_ids_singleton conn taxon q item :
  resolve_query conn taxon q = Some item → resolve_ids conn [q] taxon = [item].
Proof. intros Hq. rewrite resolve_ids_omap. simpl. by rewrite Hq. Qed.

Lemma position_Some (s : str) (l : list str) (i : nat) :
  position s l = Some i → l !! i = Some s.
Proof.
  revert i. induction l as [|x l IH]; intros i; simpl; [done|].
  destruct (decide (s = x)) as [->|Hne]; [by intros [= <-]|].
  destruct (position s l) as [k|]; [|done]. intros [= <-]. by apply IH.
Qed.

Lemma position_None (s : str) (l : list str) : position s l = None → s ∉ l.
Proof.
  induction l as [|x l IH]; simpl; [intros _; apply not_elem_of_nil|].
  destruct (decide (s = x)) as [->|Hne]; [done|].
  destruct (position s l) as [k|]; [done|]. intros _.
  apply not_elem_of_cons. split; [done | by apply IH].
Qed.

Lemma preference_le (src : option str) : (preference src ≤ 11)%nat.
Proof.
  unfold preference. change (length authorities) with 10%nat.
  destruct src as [s|]; [|lia].
  destruct (position s authorities) as [i|] eqn:E;
    cbn [default from_option id]; [|lia].
  apply position_Some, lookup_lt_Some in E.
  change (length authorities) with 10%nat in E. lia.
Qed.

(** The ranks that [score_source] computes follow the preference. *)
Lemma score_source_preference (src : option str) :
  score_source src
  = if (preference src <? 10)%nat then Z.of_nat (preference src)
    else if (preference src =? 10)%nat then 9999 else 10000.
Proof.
  destruct src as [s|]; [|reflexivity]. unfold preference.
  destruct (position s authorities) as [i|] eqn:E.
  - apply position_Some in E. pose proof (lookup_lt_Some _ _ _ E) as Hi.
    change (length authorities) with 10%nat in Hi.
    rewrite (score_source_ranked i s E). cbn [default from_option id].
    destruct (Nat.ltb_spec i 10); [done|lia].
  - apply position_None in E. by rewrite (score_source_unranked s E).
Qed.

Lemma candidate_before_listed (r1 r2 : AliasHit) :
  candidate_before r1 r2 → listed_before r1 r2.
Proof.
  unfold candidate_before, listed_before.
  rewrite !score_source_preference.
  pose proof (preference_le (r_source r1)).
  pose proof (preference_le (r_source r2)).
  destruct (Nat.ltb_spec (preference (r_source r1)) 10),
    (Nat.ltb_spec (preference (r_source r2)) 10),
    (Nat.eqb_spec (preference (r_source r1)) 10),
    (Nat.eqb_spec (preference (r_source r2)) 10);
    intros [Hlt|[Heq Hid]]; try lia; try (left; lia); right; (split; [lia|done]).
Qed.

(** C5: when the trimmed query is no primary key and the alias query
    matches at least two rows, [resolve_ids] reports [ambiguous]; the
    candidates are the fetched rows sorted by the place of their source in
    the fixed priority list (a source that is not listed after every listed
    one), ties by ascending canonical id; the first candidate supplies the
    canonical id, preferred name and source; the candidate string joins the
    first 10 entries, each written [id(source)], with ["; "]. *)
Theorem resolve_ids_ambiguous conn taxon q :
  let q2 := strip q in
  let rows := select_aliases conn q2 (effective_taxon taxon) in
  q2 ≠ [] → select_protein conn q2 = None →
  (2 ≤ length (alias_matches conn q2 (effective_taxon taxon)))%nat →
  ∃ best rest,
    best :: rest ≡ₚ rows
    ∧ StronglySorted listed_before (best :: rest)
    ∧ resolve_ids conn [q] taxon
      = [ {| query := q2; status := ambiguous;
             protein_id := Some (r_protein_id best);
             preferred_name := r_preferred_name best;
             source := r_source best;
             candidates :=
               Some (join (lit "; ")
                       ((λ r, r_protein_id r ++ lit "("
                              ++ default (lit "None") (r_source r)
                              ++ lit ")")
                        <$> take 10 (best :: rest))) |} ].
Proof.
  cbv zeta. intros Hq Hnone Hlen%select_aliases_length.
  pose proof (resolve_query_alias conn taxon q Hq Hnone) as Hres.
  remember (select_aliases conn (strip q) (effective_taxon taxon)) as rows
    eqn:Erows.
  destruct rows as [|r0 [|r1 rows']]; simpl in Hlen; [lia..|].
  cbv beta iota zeta in Hres.
  pose proof (sorted_Permutation hit_key key_lt (r0 :: r1 :: rows')) as Hperm.
  pose proof (sorted_StronglySorted hit_key key_lt key_lt_asym key_lt_ntrans
                (r0 :: r1 :: rows')) as Hsorted.
  destruct (sorted hit_key key_lt (r0 :: r1 :: rows')) as [|best rest] eqn:Es.
  { by apply Permutation_nil_l in Hperm. }
  exists best, rest. split; [done|]. split.
  { eapply StronglySorted_mono; [|done].
    intros r1' r2' Hna. by apply candidate_before_listed,
      not_after_candidate_before. }
  rewrite (resolve_ids_singleton _ _ _ _ Hres). reflexivity.
Qed.

(** C6: a query whose non-empty trimmed form is a primary key yields, at
    its position in the output, the [resolved] item with source [direct] and
    no candidates, built from the protein row alone: whatever the taxon
    filter and whatever the alias table hold. *)
Theorem resolve_ids_direct_match conn taxon before q after row :
  strip q ≠ [] → select_protein conn (strip q) = Some row →
  resolve_ids conn (before ++ q :: after) taxon
  = resolve_ids conn before taxon
    ++ direct_item (strip q) row :: resolve_ids conn after taxon
  ∧ ∀ al taxon',
      resolve_ids (with_aliases conn al) [q] taxon'
      = [direct_item (strip q) row].
Proof.
  intros Hq Hrow. split.
  - rewrite resolve_ids_app. f_equal.
    rewrite !resolve_ids_omap. simpl.
    by rewrite (resolve_query_direct _ _ _ row).
  - intros al taxon'. rewrite resolve_ids_omap. simpl.
    by rewrite (resolve_query_direct _ _ _ row).
Qed.

(** ** Order of the resolver's output and of the seed list *)

Lemma resolve_ids_queries conn taxon qs :
  query <$> resolve_ids conn qs taxon
  = filter (λ s, s ≠ []) (strip <$> qs).
Proof.
  rewrite resolve_ids_omap. induction qs as [|q qs IH]; [done|].
  rewrite fmap_cons. cbn [omap list_omap].
  destruct (decide (strip q = [])) as [E|E].
  - rewrite (resolve_query_None _ _ _ E), filter_cons_False by auto. done.
  - destruct (resolve_query_Some conn taxon q E) as (item & -> & Hitem).
    rewrite filter_cons_True by done. rewrite fmap_cons. by f_equal.
Qed.

Lemma fromkeys_fold (l : list str) (d : PyDict.t str unit) :
  PyDict.keys (fold_left (λ d k, PyDict.set k tt d) l d)
  = PyDict.keys d ++ filter (λ x, x ∉ PyDict.keys d) (first_occ l).
Proof.
  revert d. induction l as [|x l IH]; intros d; simpl.
  - by rewrite app_nil_r.
  - rewrite IH, keys_set. destruct (decide (x ∈ PyDict.keys d)) as [Hin|Hnin].
    + rewrite filter_cons_False by auto. f_equal.
      rewrite list_filter_filter. apply list_filter_iff.
      intros y. destruct (decide (y = x)) as [->|]; tauto.
    + rewrite filter_cons_True by done. rewrite <- app_assoc. simpl.
      do 2 f_equal. rewrite list_filter_filter. apply list_filter_iff.
      intros y. rewrite elem_of_app, list_elem_of_singleton. tauto.
Qed.

Lemma filter_all {A} (P : A → Prop) `{∀ x, Decision (P x)} (l : list A) :
  (∀ x, P x) → filter P l = l.
Proof.
  intros HP. induction l as [|x l IH]; [done|].
  by rewrite filter_cons_True, IH.
Qed.

Lemma seed_ids_first_occ (items : list ResolvedItem) :
  seed_ids_of items = first_occ (omap seed_of items).
Proof.
  unfold seed_ids_of, fromkeys. rewrite fromkeys_fold. simpl.
  apply filter_all. intros x. apply not_elem_of_nil.
Qed.

(** C7: the queries of the items returned by [resolve_ids] are the
    trimmed input queries that are not empty, in input order (one item
    each); the seed list built from the items keeps each seed at its first
    occurrence and has no duplicate. *)
Theorem resolve_ids_order_and_seeds conn taxon qs :
  let items := resolve_ids conn qs taxon in
  query <$> items = filter (λ s, s ≠ []) (strip <$> qs)
  ∧ seed_ids_of items = first_occ (omap seed_of items)
  ∧ NoDup (seed_ids_of items)
  ∧ ∀ x, x ∈ seed_ids_of items ↔ ∃ r, r ∈ items ∧ seed_of r = Some x.
Proof.
  cbv zeta. split; [apply resolve_ids_queries|].
  rewrite seed_ids_first_occ. split; [done|]. split; [apply first_occ_NoDup|].
  intros x. by rewrite first_occ_elem_of, list_elem_of_omap.
Qed.

(** ** [get_node_attributes] *)

Lemma attrs_of_rows_keys (rows : list ProteinRow) attrs k :
  k ∈ PyDict.keys (fold_left attrs_of_row rows attrs) →
  k ∈ PyDict.keys attrs ∨ ∃ p, p ∈ rows ∧ p_protein_id p = k.
Proof.
  revert attrs. induction rows as [|r rows IH]; intros attrs; simpl; [auto|].
  intros [Hk|(p & Hp & <-)]%IH.
  - unfold attrs_of_row in Hk. apply elem_of_keys_set in Hk as [->|Hk]; [|auto].
    right. exists r. split; [apply elem_of_cons; by left | done].
  - right. exists p. split; [apply elem_of_cons; by right | done].
Qed.

Lemma attrs_of_chunks_keys conn (chunks : list (list str)) attrs k :
  k ∈ PyDict.keys
        (fold_left
           (λ attrs chunk,
             fold_left attrs_of_row (select_proteins_in conn chunk) attrs)
           chunks attrs) →
  k ∈ PyDict.keys attrs ∨ ∃ p, p ∈ proteins conn ∧ p_protein_id p = k.
Proof.
  revert attrs. induction chunks as [|c chunks IH]; intros attrs; simpl; [auto|].
  intros [[Hk|(p & Hp & <-)]%attrs_of_rows_keys|Hk]%IH; auto.
  right. exists p. split; [|done].
  unfold select_proteins_in in Hp. apply list_elem_of_filter in Hp. tauto.
Qed.

Lemma attrs_fallback_get (ids : list str) attrs pid :
  PyDict.get pid (fold_left attrs_fallback ids attrs)
  = match PyDict.get pid attrs with
    | Some entry => Some entry
    | None =>
        if decide (pid ∈ ids) then Some [(lit "preferred_name", pid)]
        else None
    end.
Proof.
  revert attrs. induction ids as [|i ids IH]; intros attrs; cbn [fold_left].
  - destruct (PyDict.get pid attrs); [done|].
    destruct (decide (pid ∈ [])) as [Hin|]; [by apply elem_of_nil in Hin|done].
  - rewrite IH. unfold attrs_fallback, PyDict.mem.
    destruct (PyDict.get i attrs) as [e|] eqn:Ei.
    + destruct (PyDict.get pid attrs) eqn:Epid; [done|].
      assert (pid ≠ i) by congruence.
      destruct (decide (pid ∈ ids)) as [Hin|Hnin].
      * rewrite decide_True; [done | apply elem_of_cons; by right].
      * rewrite decide_False; [done|]. rewrite not_elem_of_cons. done.
    + rewrite get_set. destruct (decide (i = pid)) as [->|Hne].
      * rewrite Ei. rewrite decide_True; [done | apply elem_of_cons; by left].
      * destruct (PyDict.get pid attrs); [done|].
        destruct (decide (pid ∈ ids)) as [Hin|Hnin].
        -- rewrite decide_True; [done | apply elem_of_cons; by right].
        -- rewrite decide_False; [done|]. rewrite not_elem_of_cons.
           split; [congruence|done].
Qed.

(** C9: [get_node_attributes] has an entry for every requested id, and an
    id without a protein record is given itself as preferred name. *)
Theorem get_node_attributes_fallback conn ids pid :
  pid ∈ ids →
  let attrs := get_node_attributes conn ids in
  is_Some (PyDict.get pid attrs)
  ∧ ((∀ p, p ∈ proteins conn → p_protein_id p ≠ pid) →
     PyDict.get pid attrs = Some [(lit "preferred_name", pid)]).
Proof.
  intros Hin. cbv zeta. unfold get_node_attributes.
  destruct ids as [|i0 ids0] eqn:E; [by apply elem_of_nil in Hin|].
  rewrite <- E in *. clear E. rewrite attrs_fallback_get.
  rewrite (decide_True _ _ Hin). split.
  - by destruct (PyDict.get pid _).
  - intros Hmissing.
    destruct (PyDict.get pid _) as [entry|] eqn:Eget; [|done].
    assert (pid ∈ PyDict.keys
      (fold_left (λ attrs chunk,
          fold_left attrs_of_row (select_proteins_in conn chunk) attrs)
        (_chunked ids 900) PyDict.empty)) as Hk.
    { apply dec_stable. rewrite <- get_None. congruence. }
    apply attrs_of_chunks_keys in Hk as [Hk|(p & Hp & Hpid)].
    + by apply elem_of_nil in Hk.
    + by destruct (Hmissing p Hp).
Qed.

(** ** The scenarios of the specification *)

(** C5, scenario B on [store_priority]: [X] matches an alias of [9606.P1]
    through a source that is not listed and an alias of [9606.P2] through
    [UniProt]; the [UniProt] match is reported and stands first among the
    candidates, although its id is the larger one. *)
Lemma resolve_ids_ambiguous_scenario_B :
  resolve_ids store_priority [lit " X "] None
  = [ {| query := lit "X"; status := ambiguous;
         protein_id := Some (lit "9606.P2");
         preferred_name := Some (lit "N2");
         source := Some (lit "UniProt");
         candidates :=
           Some (lit "9606.P2(UniProt); 9606.P1(UnknownSrc)") |} ].
Proof.
  destruct (resolve_ids_ambiguous store_priority None (lit " X "))
    as (best & rest & Hperm & Hsorted & Hitem).
  - vm_compute. discriminate.
  - reflexivity.
  - vm_compute. lia.
  - change (select_aliases store_priority (strip (lit " X "))
              (effective_taxon None))
      with [ {| r_protein_id := lit "9606.P1";
                r_source := Some (lit "UnknownSrc");
                r_preferred_name := Some (lit "N1") |};
             {| r_protein_id := lit "9606.P2";
                r_source := Some (lit "UniProt");
                r_preferred_name := Some (lit "N2") |} ] in Hperm.
    symmetry in Hperm. apply Permutation_length_2_inv in Hperm.
    destruct Hperm as [Hcands|Hcands]; injection Hcands as -> ->.
    + exfalso. apply StronglySorted_inv in Hsorted as [_ Hall].
      apply Forall_cons in Hall as [[Hlt|[Heq _]] _].
      * vm_compute in Hlt. lia.
      * vm_compute in Heq. discriminate Heq.
    + rewrite Hitem. reflexivity.
Defined.

Example resolve_ids_scenario_B :
  resolve_ids store_B [lit " X "] None
  = [ {| query := lit "X"; status := ambiguous;
         protein_id := Some (lit "9606.P1");
         preferred_name := Some (lit "N1");
         source := Some (lit "UniProt");
         candidates :=
           Some (lit "9606.P1(UniProt); 9606.P2(UnknownSrc)") |} ].
Proof. vm_compute. reflexivity. Qed.

(** C6, scenario D: the primary key [9606.P1] is also an alias of another
    protein; the direct match is reported, under a taxon filter as well. *)
Lemma resolve_ids_direct_match_scenario_D :
  resolve_ids store_D [lit "9606.P1 "] (Some (lit "9606"))
  = [ direct_item (lit "9606.P1")
        {| p_protein_id := lit "9606.P1";
           p_preferred_name := Some (lit "N1") |} ].
Proof.
  apply (proj1
    (resolve_ids_direct_match store_D (Some (lit "9606")) []
       (lit "9606.P1 ") []
       {| p_protein_id := lit "9606.P1";
          p_preferred_name := Some (lit "N1") |}
       ltac:(vm_compute; discriminate) eq_refl)).
Defined.

(** C9: [ZZ] has no record in [store_B] and is named by itself. *)
Lemma get_node_attributes_fallback_missing :
  PyDict.get (lit "ZZ")
    (get_node_attributes store_B [lit "9606.P1"; lit "ZZ"])
  = Some [(lit "preferred_name", lit "ZZ")].
Proof.
  apply (get_node_attributes_fallback store_B [lit "9606.P1"; lit "ZZ"]
           (lit "ZZ")).
  - apply list_elem_of_further, list_elem_of_here.
  - intros p Hp. unfold store_B, proteins in Hp.
    repeat (apply elem_of_cons in Hp as [->|Hp]; [vm_compute; discriminate|]).
    by apply elem_of_nil in Hp.
Defined.

(** * Further properties *)

(** ** Batches *)

Lemma chunked_concat_take {A} (l : list A) (n m : nat) :
  concat (map (λ i, slice l i n) (map (λ k, k * n)%nat (seq 0 m)))
  = take (m * n) l.
Proof.
  induction m as [|m IH]; [by rewrite take_0|].
  rewrite seq_S, !map_app, concat_app, IH. simpl.
  unfold slice. rewrite app_nil_r, take_take_drop. f_equal. lia.
Qed.

Lemma chunk_count_covers (len n : nat) :
  (0 < n)%nat → (len ≤ (len + (n - 1)) / n * n)%nat.
Proof.
  intros Hn. pose proof (Nat.div_mod_eq (len + (n - 1)) n) as Hdm.
  pose proof (Nat.mod_upper_bound (len + (n - 1)) n). nia.
Qed.

Lemma chunk_count_tight (len n k : nat) :
  (0 < n)%nat → (k < (len + (n - 1)) / n)%nat → (k * n < len)%nat.
Proof.
  intros Hn Hk. pose proof (Nat.div_mod_eq (len + (n - 1)) n) as Hdm.
  pose proof (Nat.mod_upper_bound (len + (n - 1)) n). nia.
Qed.

Lemma chunked_concat {A} (l : list A) (n : nat) :
  (0 < n)%nat → concat (_chunked l n) = l.
Proof.
  intros Hn. unfold _chunked, range0. rewrite chunked_concat_take.
  apply take_ge. by apply chunk_count_covers.
Qed.

Lemma chunked_sizes {A} (l : list A) (n : nat) (chunk : list A) :
  (0 < n)%nat → chunk ∈ _chunked l n → (0 < length chunk ≤ n)%nat.
Proof.
  intros Hn Hin. unfold _chunked, range0 in Hin.
  apply list_elem_of_fmap in Hin as (i & -> & Hi).
  apply list_elem_of_fmap in Hi as (k & -> & Hk).
  apply elem_of_seq in Hk as [_ Hk]. simpl in Hk.
  pose proof (chunk_count_tight (length l) n k Hn Hk).
  unfold slice. rewrite length_take, length_drop. lia.
Qed.

Lemma chunked_length {A} (l : list A) (n : nat) :
  length (_chunked l n) = ((length l + (n - 1)) / n)%nat.
Proof. unfold _chunked, range0. by rewrite !length_map, length_seq. Qed.

(** ** Each qualifying row once *)

Lemma filter_elem_of_app {A B} `{EqDecision B} (f : A → B) (c1 c2 : list B)
    (rows : list A) :
  (∀ x, x ∈ c1 → x ∉ c2) →
  filter (λ r, f r ∈ c1 ++ c2) rows
  ≡ₚ filter (λ r, f r ∈ c1) rows ++ filter (λ r, f r ∈ c2) rows.
Proof.
  intros Hdisj. induction rows as [|r rows IH]; [done|].
  rewrite !filter_cons.
  destruct (decide (f r ∈ c1)) as [H1|H1], (decide (f r ∈ c2)) as [H2|H2].
  - by destruct (Hdisj _ H1).
  - rewrite decide_True by (apply elem_of_app; by left). simpl. by rewrite IH.
  - rewrite decide_True by (apply elem_of_app; by right).
    rewrite IH. apply Permutation_middle.
  - rewrite decide_False; [done|]. rewrite elem_of_app. tauto.
Qed.

Lemma filter_elem_of_concat {A B} `{EqDecision B} (f : A → B)
    (chunks : list (list B)) (rows : list A) :
  NoDup (concat chunks) →
  filter (λ r, f r ∈ concat chunks) rows
  ≡ₚ flat_map (λ chunk, filter (λ r, f r ∈ chunk) rows) chunks.
Proof.
  induction chunks as [|c chunks IH]; simpl.
  - intros _. induction rows as [|r rows IHr]; [done|].
    rewrite filter_cons_False; [done | apply not_elem_of_nil].
  - intros (Hc & Hdisj & Hrest)%NoDup_app.
    rewrite filter_elem_of_app by done. by rewrite IH.
Qed.

Lemma flat_map_fmap {A B C} (f : B → C) (g : A → list B) (l : list A) :
  flat_map (λ x, f <$> g x) l = f <$> flat_map g l.
Proof.
  induction l as [|x l IH]; simpl; [done|]. by rewrite IH, fmap_app.
Qed.

Lemma flat_map_filter {A B} (P : B → Prop) `{∀ x, Decision (P x)}
    (g : A → list B) (l : list A) :
  flat_map (λ x, filter P (g x)) l = filter P (flat_map g l).
Proof.
  induction l as [|x l IH]; simpl; [done|]. by rewrite IH, filter_app.
Qed.

Lemma filter_none {A} (P : A → Prop) `{∀ x, Decision (P x)} (l : list A) :
  (∀ x, ¬ P x) → filter P l = [].
Proof.
  intros HP. induction l as [|x l IH]; [done|].
  by rewrite filter_cons_False.
Qed.

Section MoreRetrieval.
Context `{SetLayout}.

Lemma chunked_py_set_NoDup (ids : list str) :
  NoDup (concat (_chunked (py_list (py_set ids)) 900)).
Proof. rewrite chunked_concat by lia. apply py_set_NoDup. Qed.

Lemma select_edges_p1_chunks conn table thr (ids : list str) :
  flat_map (select_edges_p1 conn table thr)
           (_chunked (py_list (py_set ids)) 900)
  ≡ₚ filter (λ r, thr ≤ e_score_int r ∧ e_p1 r ∈ ids) (table_rows conn table).
Proof.
  unfold select_edges_p1.
  transitivity
    (flat_map
       (λ chunk,
         filter (λ r, e_p1 r ∈ chunk)
           (filter (λ r, thr ≤ e_score_int r) (table_rows conn table)))
       (_chunked (py_list (py_set ids)) 900)).
  { apply reflexive_eq, flat_map_ext. intros chunk.
    rewrite list_filter_filter. apply list_filter_iff. tauto. }
  rewrite <- filter_elem_of_concat by apply chunked_py_set_NoDup.
  rewrite chunked_concat by lia. rewrite list_filter_filter.
  apply reflexive_eq, list_filter_iff. intros r. unfold py_list.
  rewrite py_set_elem_of. tauto.
Qed.

Lemma select_edges_p2_chunks conn table thr (ids : list str) :
  flat_map (select_edges_p2 conn table thr)
           (_chunked (py_list (py_set ids)) 900)
  ≡ₚ filter (λ r, thr ≤ e_score_int r ∧ e_p2 r ∈ ids) (table_rows conn table).
Proof.
  unfold select_edges_p2.
  transitivity
    (flat_map
       (λ chunk,
         filter (λ r, e_p2 r ∈ chunk)
           (filter (λ r, thr ≤ e_score_int r) (table_rows conn table)))
       (_chunked (py_list (py_set ids)) 900)).
  { apply reflexive_eq, flat_map_ext. intros chunk.
    rewrite list_filter_filter. apply list_filter_iff. tauto. }
  rewrite <- filter_elem_of_concat by apply chunked_py_set_NoDup.
  rewrite chunked_concat by lia. rewrite list_filter_filter.
  apply reflexive_eq, list_filter_iff. intros r. unfold py_list.
  rewrite py_set_elem_of. tauto.
Qed.

Lemma fetch_edges_induced_Permutation conn ids thr table :
  fetch_edges_induced conn ids thr table
  ≡ₚ edge_of_row
     <$> filter (λ r, thr ≤ e_score_int r ∧ e_p1 r ∈ ids ∧ e_p2 r ∈ ids)
           (table_rows conn table).
Proof.
  unfold fetch_edges_induced. destruct ids as [|i0 ids0] eqn:Eids.
  { rewrite filter_none; [done|].
    intros r (_ & Hin & _). by apply elem_of_nil in Hin. }
  rewrite <- Eids. clear Eids i0 ids0.
  change (flat_map ?f ?l)
    with (flat_map
            (λ chunk,
              edge_of_row
              <$> filter (λ r, e_p2 r ∈ py_set ids)
                    (select_edges_p1 conn table thr chunk)) l).
  rewrite flat_map_fmap, flat_map_filter, select_edges_p1_chunks.
  rewrite list_filter_filter. apply reflexive_eq. f_equal.
  apply list_filter_iff. intros r. rewrite py_set_elem_of. tauto.
Qed.
End MoreRetrieval.

Lemma stored_iff conn table (e : Edge) :
  stored conn table e ↔ ∃ r, r ∈ table_rows conn table ∧ edge_of_row r = e.
Proof.
  unfold stored. rewrite list_elem_of_fmap.
  split; intros (r & ? & ?); exists r; by split.
Qed.

Section AdjacentFacts.
Context `{SetLayout}.

Lemma fetch_edges_adjacent_elem_of conn seeds thr table p1 p2 s :
  (p1, p2, s) ∈ fetch_edges_adjacent conn seeds thr table ↔
  stored conn table (p1, p2, s) ∧ thr ≤ s ∧ (p1 ∈ seeds ∨ p2 ∈ seeds)
  ∧ ∀ s', stored conn table (p1, p2, s') → thr ≤ s' → s' ≤ s.
Proof.
  rewrite fetch_edges_adjacent_eq.
  destruct (dedupe_spec (adjacent_rows conn seeds thr table)) as [_ ->].
  rewrite adjacent_rows_elem_of, <- stored_iff. simpl. split.
  - intros [(Hst & Hthr & Hend) Hmax]. repeat split; try done.
    intros s' Hst' Hthr'. apply Hmax.
    rewrite adjacent_rows_elem_of, <- stored_iff. done.
  - intros (Hst & Hthr & Hend & Hmax). split; [done|].
    intros s' (Hst' & Hthr' & _)%adjacent_rows_elem_of.
    rewrite <- stored_iff in Hst'. auto.
Qed.

Lemma fetch_edges_adjacent_NoDup conn seeds thr table :
  NoDup (fetch_edges_adjacent conn seeds thr table).
Proof.
  rewrite fetch_edges_adjacent_eq.
  destruct (dedupe_spec (adjacent_rows conn seeds thr table)) as [Hnd _].
  by eapply NoDup_fmap_1.
Qed.
End AdjacentFacts.

Lemma fetch_edges_adjacent_layouts (L1 L2 : SetLayout) conn s1 s2 thr table :
  (∀ x, x ∈ s1 ↔ x ∈ s2) →
  @fetch_edges_adjacent L1 conn s1 thr table
  ≡ₚ @fetch_edges_adjacent L2 conn s2 thr table.
Proof.
  intros Hs. apply NoDup_Permutation; [apply fetch_edges_adjacent_NoDup..|].
  intros [[p1 p2] s]. rewrite !fetch_edges_adjacent_elem_of, !Hs. done.
Qed.

(** ** Scores do not depend on the order of the rows *)

Lemma links_to_seed_ext (S1 S2 : pyset) n e :
  (∀ x, x ∈ S1 ↔ x ∈ S2) → links_to_seed S1 n e ↔ links_to_seed S2 n e.
Proof. intros Hs. unfold links_to_seed. by rewrite !Hs. Qed.

Lemma sum_scores_Permutation (l1 l2 : list Edge) :
  l1 ≡ₚ l2 →
  foldr (λ e acc, e.2 + acc) 0 l1 = foldr (λ e acc, e.2 + acc) 0 l2.
Proof. induction 1; simpl; lia. Qed.

Lemma links_filter_Permutation (S1 S2 : pyset) n (adj1 adj2 : list Edge) :
  (∀ x, x ∈ S1 ↔ x ∈ S2) → adj1 ≡ₚ adj2 →
  filter (links_to_seed S1 n) adj1 ≡ₚ filter (links_to_seed S2 n) adj2.
Proof.
  intros Hs Hadj. rewrite Hadj. apply reflexive_eq, list_filter_iff.
  intros e. by apply links_to_seed_ext.
Qed.

Lemma neighbor_scores_get (seed_set : pyset) adj n :
  PyDict.get n (neighbor_scores seed_set adj)
  = match filter (links_to_seed seed_set n) adj with
    | [] => None
    | _ => Some (score_to_seeds seed_set n adj)
    end.
Proof.
  unfold neighbor_scores. rewrite neighbor_scores_get_fold. simpl.
  by destruct (filter _ adj).
Qed.

Lemma neighbor_scores_get_ext (S1 S2 : pyset) adj1 adj2 n :
  (∀ x, x ∈ S1 ↔ x ∈ S2) → adj1 ≡ₚ adj2 →
  PyDict.get n (neighbor_scores S1 adj1)
  = PyDict.get n (neighbor_scores S2 adj2).
Proof.
  intros Hs Hadj. rewrite !neighbor_scores_get.
  pose proof (links_filter_Permutation S1 S2 n adj1 adj2 Hs Hadj) as Hf.
  unfold score_to_seeds. rewrite (sum_scores_Permutation _ _ Hf).
  destruct (filter (links_to_seed S1 n) adj1) as [|e1 l1],
    (filter (links_to_seed S2 n) adj2) as [|e2 l2]; try done.
  - by apply Permutation_nil_cons in Hf.
  - symmetry in Hf. by apply Permutation_nil_cons in Hf.
Qed.

Lemma items_NoDup {K V} `{EqDecision K} (d : PyDict.t K V) :
  NoDup (PyDict.keys d) → NoDup (PyDict.items d).
Proof. apply NoDup_fmap_1. Qed.

Lemma neighbor_scores_items_ext (S1 S2 : pyset) adj1 adj2 :
  (∀ x, x ∈ S1 ↔ x ∈ S2) → adj1 ≡ₚ adj2 →
  PyDict.items (neighbor_scores S1 adj1)
  ≡ₚ PyDict.items (neighbor_scores S2 adj2).
Proof.
  intros Hs Hadj.
  apply NoDup_Permutation; [apply items_NoDup, neighbor_scores_NoDup..|].
  intros [n s]. split; intros Hin.
  - apply get_Some_elem_of. rewrite <- (neighbor_scores_get_ext S1 S2 adj1 adj2)
      by done. apply elem_of_get_Some; [apply neighbor_scores_NoDup|done].
  - apply get_Some_elem_of. rewrite (neighbor_scores_get_ext S1 S2 adj1 adj2)
      by done. apply elem_of_get_Some; [apply neighbor_scores_NoDup|done].
Qed.

Lemma ranks_before_antisym (x y : str * Z) :
  ranks_before x y → ranks_before y x → x = y.
Proof.
  destruct x as [n1 s1], y as [n2 s2]. unfold ranks_before. simpl.
  intros [?|[-> H1]] [?|[? H2]]; try lia.
  by rewrite (str_lt_total _ _ H2 H1).
Qed.

Lemma ranked_ext (d1 d2 : PyDict.t str Z) :
  PyDict.items d1 ≡ₚ PyDict.items d2 → ranked d1 = ranked d2.
Proof.
  intros Hd. apply (StronglySorted_unique_strong ranks_before).
  - intros x y _ _. apply ranks_before_antisym.
  - apply ranked_StronglySorted.
  - apply ranked_StronglySorted.
  - by rewrite !ranked_Permutation.
Qed.

Lemma neighbor_scores_key_linked (seed_set : pyset) adj n :
  n ∈ PyDict.keys (neighbor_scores seed_set adj) ↔
  ∃ e, e ∈ adj ∧ links_to_seed seed_set n e.
Proof.
  split.
  - intros Hk.
    destruct (filter (links_to_seed seed_set n) adj) as [|e l] eqn:E.
    + destruct (proj1 (get_None (neighbor_scores seed_set adj) n)); [|done].
      by rewrite neighbor_scores_get, E.
    + exists e.
      assert (e ∈ filter (links_to_seed seed_set n) adj) as He
        by (rewrite E; left).
      apply list_elem_of_filter in He. tauto.
  - intros (e & He & Hl). apply dec_stable. rewrite <- get_None.
    rewrite neighbor_scores_get.
    destruct (filter (links_to_seed seed_set n) adj) as [|e' l] eqn:E;
      [|done].
    assert (e ∈ filter (links_to_seed seed_set n) adj) as He'
      by (by apply list_elem_of_filter).
    rewrite E in He'. by apply elem_of_nil in He'.
Qed.

(** X1: for a positive batch size, the batches of [_chunked] put end to end
    give back the sequence, every batch is non-empty and holds at most [n]
    elements, and there are [ceil(len / n)] of them. *)
Theorem chunked_partition {A} (l : list A) (n : nat) :
  (0 < n)%nat →
  concat (_chunked l n) = l
  ∧ Forall (λ chunk, 0 < length chunk ≤ n)%nat (_chunked l n)
  ∧ length (_chunked l n) = ((length l + (n - 1)) / n)%nat.
Proof.
  intros Hn. split; [by apply chunked_concat|]. split.
  - apply Forall_forall. intros chunk. by apply chunked_sizes.
  - apply chunked_length.
Qed.

(** X1 on five elements in batches of two. *)
Lemma chunked_partition_five :
  concat (_chunked [1; 2; 3; 4; 5]%nat 2) = [1; 2; 3; 4; 5]%nat
  ∧ Forall (λ chunk, 0 < length chunk ≤ 2)%nat (_chunked [1; 2; 3; 4; 5]%nat 2)
  ∧ length (_chunked [1; 2; 3; 4; 5]%nat 2) = 3%nat.
Proof. apply (chunked_partition [1; 2; 3; 4; 5]%nat 2). lia. Defined.

Lemma chunked_single {A} (l : list A) (n : nat) :
  (0 < length l ≤ n)%nat → _chunked l n = [l].
Proof.
  intros Hl. unfold _chunked, range0.
  replace ((length l + (n - 1)) / n)%nat with 1%nat.
  - cbn [seq map]. unfold slice.
    rewrite Nat.mul_0_l, drop_0, take_ge by lia. done.
  - apply Nat.div_unique with (r := (length l - 1)%nat); lia.
Qed.

Section RetrievalExtras.
Context `{SetLayout}.

(** X2: [fetch_edges_induced] returns each stored row whose score reaches
    the threshold and whose endpoints are both requested exactly as often
    as it is stored, however the ids are batched and in whatever order the
    rows of the table are scanned: for every reordering of the table the
    result is a permutation of the qualifying rows. *)
Theorem fetch_edges_induced_each_row_once conn conn' ids thr table :
  table_rows conn' table ≡ₚ table_rows conn table →
  fetch_edges_induced conn' ids thr table
  ≡ₚ edge_of_row
     <$> filter (λ r, thr ≤ e_score_int r ∧ e_p1 r ∈ ids ∧ e_p2 r ∈ ids)
           (table_rows conn table).
Proof.
  intros Hrows. rewrite fetch_edges_induced_Permutation.
  by rewrite Hrows.
Qed.

(** X3: an edge is returned by [fetch_edges_adjacent] exactly when it is a
    stored row with a score at or above the threshold, one of its endpoints
    is a seed, and no stored row of the same pair at or above the threshold
    has a larger score. *)
Theorem fetch_edges_adjacent_contract conn seeds thr table p1 p2 s :
  (p1, p2, s) ∈ fetch_edges_adjacent conn seeds thr table ↔
  stored conn table (p1, p2, s) ∧ thr ≤ s ∧ (p1 ∈ seeds ∨ p2 ∈ seeds)
  ∧ ∀ s', stored conn table (p1, p2, s') → thr ≤ s' → s' ≤ s.
Proof. apply fetch_edges_adjacent_elem_of. Qed.

Lemma expand_1hop_edges conn seeds thr table max_nodes :
  (expand_1hop conn seeds thr table max_nodes).2
  = fetch_edges_induced conn
      (expand_1hop conn seeds thr table max_nodes).1 thr table.
Proof. unfold expand_1hop. by destruct (py_set seeds). Qed.

Lemma expand_1hop_nodes_elem_of conn seeds thr table max_nodes n :
  n ∈ (expand_1hop conn seeds thr table max_nodes).1 →
  n ∈ seeds
  ∨ n ∈ PyDict.keys
          (neighbor_scores (py_set seeds)
             (fetch_edges_adjacent conn (py_list (py_set seeds)) thr table)).
Proof.
  rewrite expand_1hop_nodes. unfold py_list.
  rewrite elem_of_app, py_set_elem_of. intros [?|Hadm]; [by left|right].
  apply list_elem_of_fmap in Hadm as (kv & -> & Hkv).
  apply subseteq_take in Hkv. rewrite ranked_Permutation in Hkv.
  apply list_elem_of_fmap. by exists kv.
Qed.

Lemma candidate_row_linked conn seeds thr table n :
  n ∈ PyDict.keys
        (neighbor_scores (py_set seeds)
           (fetch_edges_adjacent conn (py_list (py_set seeds)) thr table)) ↔
  (n ∉ seeds)
  ∧ ∃ r, r ∈ table_rows conn table ∧ thr ≤ e_score_int r
         ∧ row_links seeds n r.
Proof.
  rewrite neighbor_scores_key_linked. unfold py_list. split.
  - intros ([[p1 p2] s] & He & Hl).
    apply fetch_edges_adjacent_elem_of in He as (Hst & Hthr & _).
    apply stored_iff in Hst as (r & Hr & Heq). injection Heq as <- <- <-.
    unfold links_to_seed in Hl. simpl in Hl. rewrite !py_set_elem_of in Hl.
    destruct Hl as [(H1 & H2 & <-)|(H1 & H2 & <-)];
      (split; [done|]); exists r; unfold row_links; auto.
  - intros (Hn & r & Hr & Hthr & Hl).
    assert (∃ s, (e_p1 r, e_p2 r, s)
                 ∈ fetch_edges_adjacent conn (py_set seeds) thr table)
      as [s Hs].
    { rewrite fetch_edges_adjacent_eq.
      destruct (dedupe_inv_fold
        (adjacent_rows conn (py_set seeds) thr table) _ _ dedupe_inv_empty)
        as [_ _ Hmax].
      destruct (Hmax (e_p1 r, e_p2 r) (e_score_int r)) as (s & Hs & _).
      { rewrite app_nil_l. apply adjacent_rows_elem_of. simpl.
        split; [by exists r|]. split; [done|].
        rewrite !py_set_elem_of. destruct Hl as [[? _]|[? _]]; auto. }
      exists s. rewrite dedupe_eq. by apply get_Some_elem_of. }
    exists (e_p1 r, e_p2 r, s). split; [done|].
    unfold links_to_seed. simpl. rewrite !py_set_elem_of.
    destruct Hl as [[? <-]|[? <-]]; auto.
Qed.

(** X4: every node returned by [expand_1hop] is a seed or a non-seed that a
    stored row with a score at or above the threshold links to a seed, and
    every seed is returned. *)
Theorem expand_1hop_one_hop conn seeds thr table max_nodes :
  let nodes := (expand_1hop conn seeds thr table max_nodes).1 in
  Forall
    (λ n, n ∈ seeds
          ∨ ((n ∉ seeds)
             ∧ ∃ r, r ∈ table_rows conn table ∧ thr ≤ e_score_int r
                    ∧ row_links seeds n r))
    nodes
  ∧ Forall (λ s, s ∈ nodes) seeds.
Proof.
  cbv zeta. split; apply Forall_forall.
  - intros n [?|Hk]%expand_1hop_nodes_elem_of; [by left|right].
    by apply candidate_row_linked.
  - intros s Hs. rewrite expand_1hop_nodes. apply elem_of_app. left.
    by apply py_set_elem_of.
Qed.

(** X5: the edges returned by [expand_1hop] are the stored rows with a
    score at or above the threshold whose endpoints are both among the
    returned nodes, each row once. *)
Theorem expand_1hop_edges_induced conn seeds thr table max_nodes :
  let '(nodes, edges) := expand_1hop conn seeds thr table max_nodes in
  edges
  ≡ₚ edge_of_row
     <$> filter
           (λ r, thr ≤ e_score_int r ∧ e_p1 r ∈ nodes ∧ e_p2 r ∈ nodes)
           (table_rows conn table).
Proof.
  pose proof (expand_1hop_edges conn seeds thr table max_nodes) as Hedges.
  destruct (expand_1hop conn seeds thr table max_nodes) as [nodes edges].
  simpl in Hedges. rewrite Hedges. apply fetch_edges_induced_Permutation.
Qed.

(** X6: a larger budget only appends nodes: the node list for [max_nodes]
    is a prefix of the node list for any larger budget. *)
Theorem expand_1hop_budget_monotone conn seeds thr table max_nodes max_nodes' :
  max_nodes ≤ max_nodes' →
  (expand_1hop conn seeds thr table max_nodes).1
  `prefix_of` (expand_1hop conn seeds thr table max_nodes').1.
Proof.
  intros Hle. rewrite !expand_1hop_nodes. apply prefix_app.
  rewrite !fmap_take.
  set (k := Z.to_nat (max_nodes - _)). set (k' := Z.to_nat (max_nodes' - _)).
  assert (k ≤ k')%nat as Hk by lia.
  replace k with (k `min` k')%nat by lia.
  rewrite <- take_take. apply prefix_take.
Qed.

(** X7: when the budget covers the seeds and all candidates, every
    non-seed that a stored row with a score at or above the threshold links
    to a seed is among the returned nodes. *)
Theorem expand_1hop_admits_all conn seeds thr table max_nodes :
  let scores :=
    neighbor_scores (py_set seeds)
      (fetch_edges_adjacent conn (py_list (py_set seeds)) thr table) in
  Z.of_nat (length (py_set seeds)) + Z.of_nat (length (PyDict.keys scores))
  ≤ max_nodes →
  ∀ n r, n ∉ seeds → r ∈ table_rows conn table → thr ≤ e_score_int r →
         row_links seeds n r →
         n ∈ (expand_1hop conn seeds thr table max_nodes).1.
Proof.
  cbv zeta. intros Hbudget n r Hn Hr Hthr Hl.
  rewrite expand_1hop_nodes. apply elem_of_app. right.
  rewrite take_ge.
  - change (n ∈ PyDict.keys (sorted rank_key key_lt
      (PyDict.items (neighbor_scores (py_set seeds)
        (fetch_edges_adjacent conn (py_list (py_set seeds)) thr table))))).
    unfold PyDict.keys. rewrite sorted_Permutation.
    apply candidate_row_linked. eauto.
  - unfold ranked. rewrite sorted_length. unfold PyDict.keys in Hbudget.
    rewrite length_fmap in Hbudget. unfold PyDict.items. lia.
Qed.
End RetrievalExtras.

(** X8: the result of [expand_1hop] does not depend on the iteration
    order of Python sets, except for the order of the seeds: under two
    layouts the nodes are permutations of each other, the admitted
    neighbours are the same sequence, and the edges are permutations of each
    other. *)
Theorem expand_1hop_layout_independent (L1 L2 : SetLayout) conn seeds thr
    table max_nodes :
  let r1 := @expand_1hop L1 conn seeds thr table max_nodes in
  let r2 := @expand_1hop L2 conn seeds thr table max_nodes in
  let n := length (first_occ seeds) in
  r1.1 ≡ₚ r2.1 ∧ drop n r1.1 = drop n r2.1 ∧ r1.2 ≡ₚ r2.2.
Proof.
  cbv zeta.
  assert (∀ x, x ∈ @py_set L1 seeds ↔ x ∈ @py_set L2 seeds) as Hs.
  { intros x. by rewrite !py_set_elem_of. }
  assert (@py_set L1 seeds ≡ₚ @py_set L2 seeds) as Hperm.
  { by rewrite !py_set_first_occ. }
  assert (length (first_occ seeds) = length (@py_set L1 seeds)) as Hn1.
  { by rewrite py_set_first_occ. }
  assert (length (@py_set L1 seeds) = length (@py_set L2 seeds)) as Hlen.
  { by rewrite Hperm. }
  assert (ranked (neighbor_scores (@py_set L1 seeds)
            (@fetch_edges_adjacent L1 conn (py_list (@py_set L1 seeds)) thr
               table))
          = ranked (neighbor_scores (@py_set L2 seeds)
              (@fetch_edges_adjacent L2 conn (py_list (@py_set L2 seeds)) thr
                 table))) as Hranked.
  { apply ranked_ext, neighbor_scores_items_ext; [done|].
    by apply fetch_edges_adjacent_layouts. }
  unfold py_list in Hranked.
  assert ((@expand_1hop L1 conn seeds thr table max_nodes).1
          ≡ₚ (@expand_1hop L2 conn seeds thr table max_nodes).1) as Hnodes.
  { rewrite !expand_1hop_nodes. unfold py_list.
    rewrite Hranked, Hlen. by rewrite Hperm. }
  split; [done|]. split.
  - rewrite !expand_1hop_nodes. unfold py_list.
    rewrite (drop_app_length' (@py_set L1 seeds)) by done.
    rewrite (drop_app_length' (@py_set L2 seeds)) by congruence.
    by rewrite Hranked, Hlen.
  - rewrite !expand_1hop_edges, !fetch_edges_induced_Permutation.
    apply reflexive_eq. f_equal. apply list_filter_iff. intros r.
    by rewrite !Hnodes.
Qed.

Lemma select_aliases_nil conn q2 tx :
  alias_matches conn q2 tx = [] → select_aliases conn q2 tx = [].
Proof. unfold select_aliases. by intros ->. Qed.

Lemma select_aliases_one conn q2 tx r :
  alias_matches conn q2 tx = [r] → select_aliases conn q2 tx = [r].
Proof. unfold select_aliases. by intros ->. Qed.

(** X9: a non-empty trimmed query that is no primary key and matches no
    alias row (under the taxon condition, if any) is reported once, as
    [unresolved], with no id, name, source or candidates. *)
Theorem resolve_ids_unresolved conn taxon q :
  strip q ≠ [] → select_protein conn (strip q) = None →
  alias_matches conn (strip q) (effective_taxon taxon) = [] →
  resolve_ids conn [q] taxon = [unresolved_item (strip q)].
Proof.
  intros Hq Hnone Hal. apply resolve_ids_singleton.
  rewrite resolve_query_alias by done. by rewrite select_aliases_nil.
Qed.

(** X10: a non-empty trimmed query that is no primary key and matches
    exactly one alias row is reported as [resolved] with the id, preferred
    name and source of that row and no candidates. *)
Theorem resolve_ids_unique_alias conn taxon q r :
  strip q ≠ [] → select_protein conn (strip q) = None →
  alias_matches conn (strip q) (effective_taxon taxon) = [r] →
  resolve_ids conn [q] taxon = [alias_item (strip q) r].
Proof.
  intros Hq Hnone Hal. apply resolve_ids_singleton.
  rewrite resolve_query_alias by done.
  by rewrite (select_aliases_one _ _ _ r).
Qed.

Lemma nocase_eq_iff (a b : str) :
  nocase_eq a b = true ↔ map nocase_fold a = map nocase_fold b.
Proof. unfold nocase_eq. apply bool_decide_eq_true. Qed.

Lemma nocase_eq_trans_r (a b c : str) :
  nocase_eq b c = true → nocase_eq a b = nocase_eq a c.
Proof.
  intros Hbc%nocase_eq_iff. unfold nocase_eq. by rewrite Hbc.
Qed.

Lemma alias_matches_nocase conn q2 q2' tx :
  nocase_eq q2 q2' = true →
  alias_matches conn q2 tx = alias_matches conn q2' tx.
Proof.
  intros Hq. unfold alias_matches. f_equal. apply list_filter_iff.
  intros row. unfold alias_where.
  by rewrite (nocase_eq_trans_r _ q2 q2').
Qed.

Lemma resolve_query_alias_with_query conn taxon q q' :
  strip q ≠ [] → strip q' ≠ [] →
  select_protein conn (strip q) = None →
  select_protein conn (strip q') = None →
  select_aliases conn (strip q) (effective_taxon taxon)
  = select_aliases conn (strip q') (effective_taxon taxon) →
  resolve_query conn taxon q'
  = with_query (strip q') <$> resolve_query conn taxon q.
Proof.
  intros Hq Hq' Hn Hn' Hal. rewrite !resolve_query_alias by done.
  rewrite <- Hal.
  by destruct (select_aliases _ _ _) as [|r0 [|r1 rows]].
Qed.

(** X11: alias lookup ignores the case of ASCII letters: two non-empty
    trimmed queries that differ only in such case, neither of them a primary
    key, are resolved to the same item up to the query string. *)
Theorem resolve_ids_alias_case_insensitive conn taxon q q' :
  strip q ≠ [] → nocase_eq (strip q) (strip q') = true →
  select_protein conn (strip q) = None →
  select_protein conn (strip q') = None →
  resolve_ids conn [q'] taxon
  = with_query (strip q') <$> resolve_ids conn [q] taxon.
Proof.
  intros Hq Hcase Hn Hn'.
  assert (strip q' ≠ []) as Hq'.
  { intros E. rewrite E in Hcase. apply nocase_eq_iff in Hcase.
    by destruct (strip q). }
  rewrite !resolve_ids_omap. simpl.
  rewrite (resolve_query_alias_with_query conn taxon q q') by
    (try done; unfold select_aliases; by rewrite (alias_matches_nocase _ _ _ _ Hcase)).
  by destruct (resolve_query conn taxon q).
Qed.

Lemma resolve_ids_ext conn taxon taxon' qs :
  (∀ q, resolve_query conn taxon q = resolve_query conn taxon' q) →
  resolve_ids conn qs taxon = resolve_ids conn qs taxon'.
Proof.
  intros Hq. rewrite !resolve_ids_omap.
  induction qs as [|q qs IH]; [done|]. csimpl. by rewrite Hq, IH.
Qed.

Lemma alias_matches_taxon_subset conn q2 t (r : AliasHit) :
  r ∈ alias_matches conn q2 (Some t) → r ∈ alias_matches conn q2 None.
Proof.
  unfold alias_matches. rewrite !list_elem_of_fmap.
  intros (row & -> & Hrow). exists row. split; [done|].
  apply list_elem_of_filter in Hrow as [Hw Hrow].
  apply list_elem_of_filter. split; [|done].
  unfold alias_where in *. apply andb_true_iff in Hw as [-> _]. done.
Qed.

(** X12: an empty taxon string is no filter, and a taxon filter only
    narrows the alias lookup: a query that is unresolved without a filter is
    unresolved under every filter. *)
Theorem resolve_ids_taxon_filter conn qs q t :
  resolve_ids conn qs (Some []) = resolve_ids conn qs None
  ∧ (resolve_ids conn [q] None = [unresolved_item (strip q)] →
     resolve_ids conn [q] (Some t) = [unresolved_item (strip q)]).
Proof.
  split; [by apply resolve_ids_ext|].
  rewrite !resolve_ids_omap. simpl.
  destruct (decide (strip q = [])) as [E|E].
  { by rewrite !resolve_query_None. }
  destruct (select_protein conn (strip q)) as [row|] eqn:Hrow.
  { rewrite !(resolve_query_direct _ _ _ row) by done. done. }
  rewrite !resolve_query_alias by done.
  change (effective_taxon None) with (@None str).
  destruct (select_aliases conn (strip q) None) as [|r0 [|r1 rows]] eqn:E0;
    [|done..].
  intros _.
  assert (alias_matches conn (strip q) None = []) as Hnone.
  { unfold select_aliases in E0. by apply take_nil_inv in E0 as [?|?]. }
  assert (select_aliases conn (strip q) (effective_taxon (Some t)) = [])
    as ->; [|done].
  unfold effective_taxon. destruct (truthy (Some t)); [|by rewrite E0].
  apply select_aliases_nil.
  destruct (alias_matches conn (strip q) (Some t)) as [|r rs] eqn:Et; [done|].
  assert (r ∈ alias_matches conn (strip q) None) as Hr.
  { apply (alias_matches_taxon_subset _ _ t). rewrite Et. left. }
  rewrite Hnone in Hr. by apply elem_of_nil in Hr.
Qed.

Lemma resolve_query_item_ok conn taxon q item :
  resolve_query conn taxon q = Some item → item_ok item.
Proof.
  destruct (decide (strip q = [])) as [E|E].
  { by rewrite resolve_query_None. }
  destruct (select_protein conn (strip q)) as [row|] eqn:Hrow.
  { rewrite (resolve_query_direct _ _ _ row) by done. intros [= <-].
    unfold item_ok. simpl.
    repeat split; try done; try (by intros [? [=]]). }
  rewrite resolve_query_alias by done.
  destruct (select_aliases _ _ _) as [|r0 [|r1 rows]]; intros [= <-];
    unfold item_ok; simpl; repeat split; try done; try (by eexists);
    try (by intros [? [=]]).
Qed.

(** X13: every item returned by [resolve_ids] has a non-empty query, has
    no canonical id exactly when it is [unresolved] (and then no name and no
    source either), and has a candidate string exactly when it is
    [ambiguous]. *)
Theorem resolve_ids_items_ok conn qs taxon :
  Forall item_ok (resolve_ids conn qs taxon).
Proof.
  rewrite resolve_ids_omap. apply Forall_forall.
  intros item (q & _ & Hq)%list_elem_of_omap.
  by eapply resolve_query_item_ok.
Qed.

(** X14: every query is resolved on its own: the result for a list of
    queries is the concatenation of the results for each query alone. *)
Theorem resolve_ids_pointwise conn qs taxon :
  resolve_ids conn qs taxon
  = concat ((λ q, resolve_ids conn [q] taxon) <$> qs).
Proof.
  induction qs as [|q qs IH]; [done|].
  rewrite fmap_cons. cbn [concat]. rewrite <- IH.
  apply (resolve_ids_app conn taxon [q] qs).
Qed.

(** ** More on dictionaries *)

Section MoreDictFacts.
Context {K V : Type} `{EqDecision K}.
Implicit Types (d : PyDict.t K V) (k : K) (v : V).

Lemma elem_of_keys_get d k : k ∈ PyDict.keys d ↔ is_Some (PyDict.get k d).
Proof.
  rewrite <- not_eq_None_Some, get_None. split; [auto|].
  apply dec_stable.
Qed.

Lemma elem_of_set d k v kv :
  kv ∈ PyDict.set k v d → kv = (k, v) ∨ kv ∈ d.
Proof.
  induction d as [|[k0 v0] d IH]; simpl.
  - intros ->%list_elem_of_singleton. by left.
  - destruct (decide (k0 = k)) as [->|Hne]; rewrite !elem_of_cons.
    + intros [->|?]; auto.
    + intros [->|[->|?]%IH]; auto.
Qed.
End MoreDictFacts.

(** ** [get_node_attributes]: which entries *)

Lemma str_or_nonempty (a : option str) (b : str) : b ≠ [] → str_or a b ≠ [].
Proof. by destruct a as [[|c s]|]. Qed.

Lemma attrs_inv_set ids attrs k name :
  attrs_inv ids attrs → k ∈ ids → (k ≠ [] → name ≠ []) →
  attrs_inv ids (PyDict.set k (name_entry name) attrs).
Proof.
  intros [Hnd Hk He] Hin Hname. split.
  - by apply keys_set_NoDup.
  - intros k' [->|?]%elem_of_keys_set; auto.
  - apply Forall_forall. intros kv [->|Hkv]%elem_of_set.
    + by exists name.
    + rewrite Forall_forall in He. by apply He.
Qed.

Lemma attrs_inv_rows ids (rows : list ProteinRow) attrs :
  attrs_inv ids attrs → (∀ p, p ∈ rows → p_protein_id p ∈ ids) →
  attrs_inv ids (fold_left attrs_of_row rows attrs).
Proof.
  revert attrs. induction rows as [|r rows IH]; intros attrs Hinv Hrows; [done|].
  simpl. apply IH.
  - apply attrs_inv_set; [done|apply Hrows; left|apply str_or_nonempty].
  - intros p Hp. apply Hrows. by right.
Qed.

Lemma attrs_inv_chunks conn ids (chunks : list (list str)) attrs :
  attrs_inv ids attrs → (∀ c x, c ∈ chunks → x ∈ c → x ∈ ids) →
  attrs_inv ids
    (fold_left
       (λ attrs chunk,
         fold_left attrs_of_row (select_proteins_in conn chunk) attrs)
       chunks attrs).
Proof.
  revert attrs. induction chunks as [|c chunks IH]; intros attrs Hinv Hc; [done|].
  simpl. apply IH.
  - apply attrs_inv_rows; [done|]. intros p Hp.
    apply list_elem_of_filter in Hp as [Hp _]. apply (Hc c); [left|done].
  - intros c' x Hc' Hx. apply (Hc c'); [by right|done].
Qed.

Lemma attrs_inv_fallback ids (l : list str) attrs :
  attrs_inv ids attrs → (∀ x, x ∈ l → x ∈ ids) →
  attrs_inv ids (fold_left attrs_fallback l attrs).
Proof.
  revert attrs. induction l as [|x l IH]; intros attrs Hinv Hl; [done|].
  simpl. apply IH; [|intros y Hy; apply Hl; by right].
  unfold attrs_fallback. destruct (PyDict.mem x attrs); [done|].
  apply attrs_inv_set; [done|apply Hl; left|done].
Qed.

Lemma get_node_attributes_inv conn ids :
  attrs_inv ids (get_node_attributes conn ids).
Proof.
  unfold get_node_attributes. destruct ids as [|i0 ids0] eqn:E.
  { split; [constructor|by intros k ?%elem_of_nil|constructor]. }
  rewrite <- E. clear E. apply attrs_inv_fallback; [|done].
  apply attrs_inv_chunks.
  - split; [constructor|by intros k ?%elem_of_nil|constructor].
  - intros c x Hc Hx. apply (elem_of_chunked ids 900 x); [lia|eauto].
Qed.

(** X15: the mapping returned by [get_node_attributes] has exactly the
    requested ids as keys, each once, and every entry is a one-key record
    [{"preferred_name": name}] whose name is not empty unless the id is. *)
Theorem get_node_attributes_domain conn ids :
  let attrs := get_node_attributes conn ids in
  NoDup (PyDict.keys attrs)
  ∧ (∀ k, k ∈ PyDict.keys attrs ↔ k ∈ ids)
  ∧ Forall entry_ok (PyDict.items attrs).
Proof.
  cbv zeta. destruct (get_node_attributes_inv conn ids) as [Hnd Hk He].
  split; [done|]. split; [|done].
  intros k. split; [apply Hk|]. intros Hin.
  apply elem_of_keys_get. unfold get_node_attributes.
  destruct ids as [|i0 ids0] eqn:E; [by apply elem_of_nil in Hin|].
  rewrite <- E in *. clear E. rewrite attrs_fallback_get.
  rewrite (decide_True _ _ Hin). by destruct (PyDict.get k _).
Qed.

(** ** [get_node_attributes] and [get_preferred_name] *)

Lemma select_protein_None conn pid :
  select_protein conn pid = None →
  ∀ p, p ∈ proteins conn → p_protein_id p ≠ pid.
Proof.
  unfold select_protein. intros Hnone p Hp Hid.
  apply head_None in Hnone.
  assert (p ∈ filter (λ p, p_protein_id p = pid) (proteins conn)) as Hin
    by (by apply list_elem_of_filter).
  rewrite Hnone in Hin. by apply elem_of_nil in Hin.
Qed.

Lemma primary_key_unique conn p r :
  primary_key conn → p ∈ proteins conn → r ∈ proteins conn →
  p_protein_id p = p_protein_id r → p = r.
Proof.
  unfold primary_key. intros Hnd Hp Hr Hid.
  apply list_elem_of_lookup_1 in Hp as [i Hi].
  apply list_elem_of_lookup_1 in Hr as [j Hj].
  assert (i = j) as ->; [|congruence].
  apply (NoDup_lookup _ _ _ (p_protein_id r) Hnd);
    rewrite list_lookup_fmap; [by rewrite Hi; simpl; f_equal | by rewrite Hj].
Qed.

Section NameOfRow.
Context (conn : Conn) (pid : str) (r : ProteinRow).
Hypothesis r_unique :
  ∀ p, p ∈ proteins conn → p_protein_id p = pid → p = r.
Hypothesis r_id : p_protein_id r = pid.

Lemma attrs_of_rows_get (rows : list ProteinRow) attrs :
  (∀ p, p ∈ rows → p ∈ proteins conn) →
  PyDict.get pid (fold_left attrs_of_row rows attrs)
  = if decide (Exists (λ p, p_protein_id p = pid) rows)
    then Some (name_entry (str_or (p_preferred_name r) pid))
    else PyDict.get pid attrs.
Proof.
  revert attrs. induction rows as [|p rows IH]; intros attrs Hrows.
  - cbn [fold_left]. destruct (decide (Exists _ [])) as [Hex|]; [|done].
    by apply Exists_nil in Hex.
  - cbn [fold_left]. rewrite IH by (intros p' Hp'; apply Hrows; by right).
    destruct (decide (Exists (λ p, p_protein_id p = pid) rows)) as [Hex|Hex].
    + rewrite decide_True; [done | by apply Exists_cons_tl].
    + unfold attrs_of_row. rewrite get_set.
      destruct (decide (p_protein_id p = pid)) as [Hid|Hid].
      * assert (p = r) as -> by (apply r_unique; [apply Hrows; left|done]).
        rewrite decide_True by (by apply Exists_cons_hd). by rewrite r_id.
      * rewrite decide_False; [done|]. by intros [?|?]%Exists_cons.
Qed.

Lemma attrs_of_chunks_get (chunks : list (list str)) attrs :
  r ∈ proteins conn →
  PyDict.get pid
    (fold_left
       (λ attrs chunk,
         fold_left attrs_of_row (select_proteins_in conn chunk) attrs)
       chunks attrs)
  = if decide (Exists (λ chunk, pid ∈ chunk) chunks)
    then Some (name_entry (str_or (p_preferred_name r) pid))
    else PyDict.get pid attrs.
Proof.
  intros Hr. revert attrs.
  induction chunks as [|c chunks IH]; intros attrs.
  - cbn [fold_left]. destruct (decide (Exists _ [])) as [Hex|]; [|done].
    by apply Exists_nil in Hex.
  - cbn [fold_left]. rewrite IH.
    destruct (decide (Exists (λ chunk, pid ∈ chunk) chunks)) as [Hex|Hex].
    + rewrite decide_True; [done | by apply Exists_cons_tl].
    + rewrite attrs_of_rows_get
        by (intros p Hp; apply list_elem_of_filter in Hp; tauto).
      destruct (decide (Exists (λ p, p_protein_id p = pid)
                          (select_proteins_in conn c))) as [Hin|Hnin].
      * rewrite decide_True; [done|]. apply Exists_cons_hd.
        apply Exists_exists in Hin as (p & Hp & <-).
        apply list_elem_of_filter in Hp. tauto.
      * rewrite decide_False; [done|]. intros [Hc|?]%Exists_cons; [|done].
        apply Hnin. apply Exists_exists. exists r. split; [|done].
        apply list_elem_of_filter. by rewrite r_id.
Qed.
End NameOfRow.

(** X16: when [protein_id] is a primary key of the store, the name that
    [get_node_attributes] gives a requested id is the one that
    [get_preferred_name] returns for it, or the id itself when that is
    [None] or empty. *)
Theorem get_node_attributes_preferred_name conn ids pid :
  primary_key conn → pid ∈ ids →
  PyDict.get pid (get_node_attributes conn ids)
  = Some (name_entry (str_or (get_preferred_name conn pid) pid)).
Proof.
  intros Hkey Hin. unfold get_node_attributes, get_preferred_name.
  destruct ids as [|i0 ids0] eqn:E; [by apply elem_of_nil in Hin|].
  rewrite <- E in *. clear E. rewrite attrs_fallback_get.
  destruct (select_protein conn pid) as [r|] eqn:Hsel.
  - apply select_protein_Some in Hsel as [Hr Hid].
    rewrite (attrs_of_chunks_get conn pid r); [|
      intros p Hp Hpid; apply (primary_key_unique conn); try done; congruence
      | done | done].
    rewrite decide_True; [done|]. apply Exists_exists.
    apply (elem_of_chunked ids 900 pid); [lia|done].
  - destruct (PyDict.get pid _) as [entry|] eqn:Eget.
    + assert (pid ∈ PyDict.keys
        (fold_left (λ attrs chunk,
            fold_left attrs_of_row (select_proteins_in conn chunk) attrs)
          (_chunked ids 900) PyDict.empty)) as Hk
        by (apply elem_of_keys_get; rewrite Eget; by eexists).
      apply attrs_of_chunks_keys in Hk as [Hk|(p & Hp & Hpid)].
      * by apply elem_of_nil in Hk.
      * by destruct (select_protein_None conn pid Hsel p Hp).
    + by rewrite (decide_True _ _ Hin).
Qed.

(** ** Splitting *)

Section SplitFacts.
Context (sep : N → bool).

Lemma split_from_nil (cur : str) :
  split_from sep cur [] = match cur with [] => [] | _ => [cur] end.
Proof. done. Qed.

Lemma split_from_app_sep (cur s1 s2 : str) (b : N) :
  sep b = true →
  split_from sep cur (s1 ++ b :: s2)
  = split_from sep cur s1 ++ split_from sep [] s2.
Proof.
  intros Hb. revert cur. induction s1 as [|c s1 IH]; intros cur; simpl.
  - rewrite Hb. by destruct cur.
  - destruct (sep c); [|apply IH]. rewrite IH. by destruct cur.
Qed.

Lemma split_from_seps (cur ws : str) :
  Forall (λ c, sep c = true) ws →
  split_from sep cur ws = match cur with [] => [] | _ => [cur] end.
Proof.
  induction 1 as [|c ws Hc _ IH] in cur |- *; [done|].
  simpl. rewrite Hc. destruct cur; by rewrite IH.
Qed.

Lemma split_from_app_seps (cur s ws : str) :
  Forall (λ c, sep c = true) ws →
  split_from sep cur (s ++ ws) = split_from sep cur s.
Proof.
  intros Hws. revert cur. induction s as [|c s IH]; intros cur; simpl.
  - by apply split_from_seps.
  - destruct (sep c); [|apply IH]. rewrite IH. by destruct cur.
Qed.

Lemma split_from_seps_app (ws s : str) :
  Forall (λ c, sep c = true) ws →
  split_from sep [] (ws ++ s) = split_from sep [] s.
Proof.
  induction 1 as [|c ws Hc _ IH]; [done|]. simpl. by rewrite Hc.
Qed.

Lemma split_from_words (cur s : str) :
  Forall (λ c, sep c = false) cur →
  Forall (word_ok sep) (split_from sep cur s).
Proof.
  revert cur. induction s as [|c s IH]; intros cur Hcur; simpl.
  - destruct cur as [|c0 cur]; [constructor|].
    constructor; [by split|constructor].
  - destruct (sep c) eqn:Hc.
    + destruct cur; [by apply IH|].
      constructor; [by split|]. by apply IH.
    + apply IH. apply Forall_app. split; [done|]. by repeat constructor.
Qed.
End SplitFacts.

(** ** Stripping *)

Lemma lstrip_split (s : str) :
  ∃ ws, s = ws ++ lstrip s ∧ Forall (λ c, isspace c = true) ws.
Proof.
  induction s as [|c s (ws & Hs & Hws)]; simpl.
  - by exists [].
  - destruct (isspace c) eqn:Hc.
    + exists (c :: ws). split; [by rewrite Hs at 1|by constructor].
    + by exists [].
Qed.

Lemma rstrip_split (s : str) :
  ∃ ws, s = rstrip s ++ ws ∧ Forall (λ c, isspace c = true) ws.
Proof.
  unfold rstrip. destruct (lstrip_split (reverse s)) as (ws & Hs & Hws).
  exists (reverse ws). split.
  - rewrite <- reverse_app, <- Hs. by rewrite reverse_involutive.
  - by apply Forall_reverse.
Qed.

Lemma strip_split (s : str) :
  ∃ ws1 ws2, s = ws1 ++ strip s ++ ws2
             ∧ Forall (λ c, isspace c = true) ws1
             ∧ Forall (λ c, isspace c = true) ws2.
Proof.
  unfold strip. destruct (lstrip_split s) as (ws1 & Hs1 & Hws1).
  destruct (rstrip_split (lstrip s)) as (ws2 & Hs2 & Hws2).
  exists ws1, ws2. split; [|done]. by rewrite <- Hs2.
Qed.

Lemma lstrip_id (s : str) :
  match s with c :: _ => isspace c = false | [] => True end → lstrip s = s.
Proof. destruct s as [|c s]; simpl; [done|]. by intros ->. Qed.

Lemma strip_word (t : str) : word_ok isspace t → strip t = t.
Proof.
  intros [Hne Hall]. unfold strip, rstrip.
  rewrite (lstrip_id t) by (destruct t; [done|by inv Hall]).
  rewrite lstrip_id; [apply reverse_involutive|].
  destruct (reverse t) as [|c r] eqn:E; [done|].
  rewrite Forall_forall in Hall. apply Hall.
  apply elem_of_reverse. rewrite E. left.
Qed.

Lemma is_separator_space (ws : str) :
  Forall (λ c, isspace c = true) ws →
  Forall (λ c, is_separator c = true) ws.
Proof.
  intros Hws. eapply Forall_impl; [exact Hws|].
  intros c Hc. unfold is_separator. by rewrite Hc.
Qed.

Lemma split_strip (s : str) :
  split_from is_separator [] (strip s) = split_from is_separator [] s.
Proof.
  destruct (strip_split s) as (ws1 & ws2 & Hs & H1 & H2).
  rewrite Hs at 2.
  rewrite split_from_seps_app by by apply is_separator_space.
  by rewrite split_from_app_seps by by apply is_separator_space.
Qed.

Lemma split_replace_commas (cur s : str) :
  split_from isspace cur (replace_commas s) = split_from is_separator cur s.
Proof.
  unfold replace_commas, is_separator.
  revert cur. induction s as [|c s IH]; intros cur; simpl; [done|].
  destruct (N.eqb_spec c 44) as [->|Hc]; simpl.
  - by rewrite IH.
  - rewrite orb_false_r. destruct (isspace c); by rewrite IH.
Qed.

Lemma line_tokens_eq (line : str) :
  line_tokens line = split_from is_separator [] line.
Proof.
  rewrite <- split_strip. unfold line_tokens.
  destruct (strip line) as [|c l] eqn:E; [done|].
  unfold split. 
  pose proof (split_from_words isspace [] (replace_commas (c :: l))
                (Forall_nil_2 _)) as Hw.
  rewrite <- split_replace_commas.
  induction Hw as [|t ts Ht _ IH]; [done|].
  rewrite filter_cons_True by (rewrite strip_word by done; apply Ht).
  rewrite fmap_cons, strip_word by done. by f_equal.
Qed.

(** ** Lines *)

Lemma is_linebreak_separator (c : N) :
  is_linebreak c = true → is_separator c = true.
Proof.
  unfold is_linebreak, is_separator, isspace.
  rewrite !orb_true_iff, !andb_true_iff, !N.leb_le, !N.eqb_eq.
  intros Hc. left.
  repeat match goal with |- context [(?a <=? ?b)%N] =>
    destruct (N.leb_spec a b) end;
  repeat match goal with |- context [(?a =? ?b)%N] =>
    destruct (N.eqb_spec a b) end; simpl; try done; lia.
Qed.

Lemma splitlines_split_bounded (n : nat) (cur s : str) :
  (length s ≤ n)%nat →
  flat_map (split_from is_separator []) (splitlines_from cur s)
  = split_from is_separator [] (cur ++ s).
Proof.
  assert (∀ cur : str,
    flat_map (split_from is_separator [])
      match cur with [] => [] | _ => [cur] end
    = split_from is_separator [] (cur ++ [])) as Hend.
  { intros cur'. rewrite app_nil_r. destruct cur'; [done|].
    cbn [flat_map]. by rewrite app_nil_r. }
  revert cur s. induction n as [|n IH]; intros cur s Hlen.
  { destruct s; [apply Hend | simpl in Hlen; lia]. }
  destruct s as [|c s]; [apply Hend|].
  cbn [splitlines_from]. cbn [length] in Hlen.
  destruct (N.eqb_spec c 13) as [->|Hc13].
  - rewrite (split_from_app_sep _ [] cur s 13) by done.
    destruct s as [|d s]; [by cbn|].
    cbn [length] in Hlen.
    destruct (N.eqb_spec d 10) as [->|Hd]; cbn [flat_map];
      rewrite IH by (cbn [length]; lia); by cbn.
  - destruct (is_linebreak c) eqn:Hc.
    + cbn [flat_map]. rewrite IH by lia. cbn [app].
      by rewrite (split_from_app_sep _ [] cur s c)
        by by apply is_linebreak_separator.
    + rewrite IH by lia. by rewrite <- app_assoc.
Qed.

Lemma fold_left_app_flat_map {A B} (f : A → list B) (l : list A)
    (acc : list B) :
  fold_left (λ acc x, acc ++ f x) l acc = acc ++ flat_map f l.
Proof.
  revert acc. induction l as [|x l IH]; intros acc; simpl.
  - by rewrite app_nil_r.
  - by rewrite IH, app_assoc.
Qed.

Lemma parse_input_raw (text : str) :
  fold_left (λ raw line, raw ++ line_tokens line) (splitlines text) []
  = split_from is_separator [] text.
Proof.
  rewrite fold_left_app_flat_map. simpl.
  rewrite (flat_map_ext _ (split_from is_separator []))
    by (intros; apply line_tokens_eq).
  unfold splitlines. by rewrite (splitlines_split_bounded (length text)).
Qed.

(** ** The dedupe loop *)

Lemma dedupe_tokens_fold (raw seen out : list str) :
  (∀ x, x ∈ seen ↔ x ∈ out) →
  (fold_left
     (λ (st : list str * list str) t,
       if bool_decide (t ∈ st.1) then st else (t :: st.1, st.2 ++ [t]))
     raw (seen, out)).2
  = out ++ filter (λ x, x ∉ out) (first_occ raw).
Proof.
  revert seen out. induction raw as [|t raw IH]; intros seen out Hseen; simpl.
  - by rewrite app_nil_r.
  - case_bool_decide as Hin.
    + rewrite IH by done. rewrite Hseen in Hin.
      rewrite filter_cons_False by auto. f_equal.
      rewrite list_filter_filter. apply list_filter_iff.
      intros y. destruct (decide (y = t)) as [->|]; tauto.
    + rewrite IH.
      * rewrite Hseen in Hin. rewrite filter_cons_True by done.
        rewrite <- app_assoc. simpl. do 2 f_equal.
        rewrite list_filter_filter. apply list_filter_iff.
        intros y. rewrite elem_of_app, list_elem_of_singleton. tauto.
      * intros x. rewrite elem_of_cons, elem_of_app, list_elem_of_singleton.
        rewrite Hseen. tauto.
Qed.

Lemma dedupe_tokens_first_occ (raw : list str) :
  dedupe_tokens raw = first_occ raw.
Proof.
  unfold dedupe_tokens. rewrite (dedupe_tokens_fold raw [] []) by done.
  simpl. apply filter_all. intros x. apply not_elem_of_nil.
Qed.

Lemma parse_input_eq (text : str) :
  parse_input text = first_occ (split_from is_separator [] text).
Proof.
  unfold parse_input. by rewrite dedupe_tokens_first_occ, parse_input_raw.
Qed.

(** X17: [parse_input] returns the words obtained by cutting the text at
    every run of white space and commas, each word kept at its first
    occurrence; the words are pairwise distinct, non-empty and contain
    neither white space nor a comma. *)
Theorem parse_input_words (text : str) :
  parse_input text = first_occ (split_from is_separator [] text)
  ∧ NoDup (parse_input text)
  ∧ Forall
      (λ t, t ≠ [] ∧ Forall (λ c, isspace c = false ∧ c ≠ 44%N) t)
      (parse_input text).
Proof.
  split; [apply parse_input_eq|].
  rewrite parse_input_eq. split; [apply first_occ_NoDup|].
  apply Forall_forall. intros t Ht.
  apply (proj1 (first_occ_elem_of _ _)) in Ht.
  pose proof (split_from_words is_separator [] text (Forall_nil_2 _)) as Hw.
  rewrite Forall_forall in Hw. destruct (Hw t Ht) as [Hne Hall].
  split; [done|]. eapply Forall_impl; [exact Hall|].
  intros c Hc. unfold is_separator in Hc.
  apply orb_false_iff in Hc as [Hs Hcomma]. split; [done|].
  by apply N.eqb_neq.
Qed.

Lemma parse_input_strip (text : str) (t : str) :
  t ∈ parse_input text → strip t = t ∧ t ≠ [].
Proof.
  rewrite parse_input_eq. intros Ht.
  apply (proj1 (first_occ_elem_of _ _)) in Ht.
  pose proof (split_from_words is_separator [] text (Forall_nil_2 _)) as Hw.
  rewrite Forall_forall in Hw. destruct (Hw t Ht) as [Hne Hall].
  split; [|done]. apply strip_word. split; [done|].
  eapply Forall_impl; [exact Hall|]. intros c Hc. unfold is_separator in Hc.
  by apply orb_false_iff in Hc as [Hs _].
Qed.

(** X18: [resolve_ids] applied to the words of [parse_input] reports every
    word exactly once, unchanged and in order: no word is skipped as empty
    and none is altered by trimming. *)
Theorem resolve_ids_parse_input conn taxon (text : str) :
  query <$> resolve_ids conn (parse_input text) taxon = parse_input text.
Proof.
  rewrite resolve_ids_queries.
  pose proof (parse_input_strip text) as Hw.
  induction (parse_input text) as [|t ts IH]; [done|].
  destruct (Hw t) as [Hs Hne]; [left|].
  rewrite fmap_cons, Hs, filter_cons_True by done.
  f_equal. apply IH. intros t' Ht'. apply Hw. by right.
Qed.

(** ** The hard cap *)

Lemma hard_cap_spec (nodes : list str) (max_nodes : Z) :
  0 ≤ max_nodes →
  Z.of_nat (length (hard_cap nodes max_nodes)) ≤ max_nodes
  ∧ hard_cap nodes max_nodes `prefix_of` nodes
  ∧ (Z.of_nat (length nodes) ≤ max_nodes → hard_cap nodes max_nodes = nodes).
Proof.
  intros Hmax. unfold hard_cap, slice_to.
  destruct (Z.ltb_spec max_nodes (Z.of_nat (length nodes))).
  - destruct (Z.ltb_spec max_nodes 0); [lia|].
    rewrite length_take. split; [lia|]. split; [apply prefix_take | lia].
  - split; [lia|]. done.
Qed.

(** X19: for a budget that is not negative, [hard_cap] returns a prefix of
    the nodes with at most [max_nodes] entries, and returns the nodes
    unchanged when they already fit. *)
Theorem hard_cap_bound (nodes : list str) (max_nodes : Z) :
  0 ≤ max_nodes →
  Z.of_nat (length (hard_cap nodes max_nodes)) ≤ max_nodes
  ∧ hard_cap nodes max_nodes `prefix_of` nodes
  ∧ (Z.of_nat (length nodes) ≤ max_nodes → hard_cap nodes max_nodes = nodes).
Proof. apply hard_cap_spec. Qed.

(** ** Degrees *)

Lemma deg_init_fold (nodes : list str) (d : PyDict.t str Z) n :
  PyDict.get n (fold_left (λ d n, PyDict.set n 0 d) nodes d)
  = if decide (n ∈ nodes) then Some 0 else PyDict.get n d.
Proof.
  revert d. induction nodes as [|x nodes IH]; intros d; cbn [fold_left].
  - destruct (decide (n ∈ [])) as [Hin|]; [by apply elem_of_nil in Hin|done].
  - rewrite IH, get_set.
    destruct (decide (n ∈ nodes)) as [Hin|Hnin].
    + rewrite decide_True; [done | by right].
    + destruct (decide (x = n)) as [->|Hne].
      * rewrite decide_True; [done | left].
      * rewrite decide_False; [done|]. rewrite not_elem_of_cons.
        split; [congruence|done].
Qed.

Lemma deg_init_get (nodes : list str) n :
  PyDict.get n (deg_init nodes)
  = if decide (n ∈ nodes) then Some 0 else None.
Proof. unfold deg_init. by rewrite deg_init_fold. Qed.

Lemma deg_bump_get (d : PyDict.t str Z) (a n : str) :
  PyDict.get n (deg_bump d a)
  = if decide (a = n) then (λ v, v + 1) <$> PyDict.get n d
    else PyDict.get n d.
Proof.
  unfold deg_bump. destruct (PyDict.get a d) as [v|] eqn:Ea.
  - rewrite get_set. destruct (decide (a = n)) as [->|]; [|done].
    by rewrite Ea.
  - destruct (decide (a = n)) as [->|]; [|done]. by rewrite Ea.
Qed.

Lemma deg_bump_keys (d : PyDict.t str Z) (a : str) :
  PyDict.keys (deg_bump d a) = PyDict.keys d.
Proof.
  unfold deg_bump. destruct (PyDict.get a d) as [v|] eqn:Ea; [|done].
  rewrite keys_set. rewrite decide_True; [done|].
  apply elem_of_keys_get. rewrite Ea. by eexists.
Qed.

Lemma degrees_fold (edges : list Edge) (d : PyDict.t str Z) n :
  PyDict.get n
    (fold_left
       (λ deg (e : Edge), let '(a, b, _) := e in deg_bump (deg_bump deg a) b)
       edges d)
  = (λ v, v + endpoint_count n edges) <$> PyDict.get n d.
Proof.
  unfold endpoint_count. revert d.
  induction edges as [|[[a b] sc] edges IH]; intros d; cbn [fold_left].
  - simpl. destruct (PyDict.get n d); simpl; [f_equal; lia | done].
  - rewrite IH, !deg_bump_get, !filter_cons. simpl.
    destruct (decide (a = n)), (decide (b = n)), (PyDict.get n d);
      simpl; try done; f_equal; lia.
Qed.

Lemma degrees_keys_fold (edges : list Edge) (d : PyDict.t str Z) :
  PyDict.keys
    (fold_left
       (λ deg (e : Edge), let '(a, b, _) := e in deg_bump (deg_bump deg a) b)
       edges d)
  = PyDict.keys d.
Proof.
  revert d. induction edges as [|[[a b] sc] edges IH]; intros d; [done|].
  cbn [fold_left]. by rewrite IH, !deg_bump_keys.
Qed.

Lemma degrees_get (nodes : list str) (edges : list Edge) n :
  PyDict.get n (degrees nodes edges)
  = if decide (n ∈ nodes) then Some (endpoint_count n edges) else None.
Proof.
  unfold degrees. rewrite degrees_fold, deg_init_get.
  by destruct (decide (n ∈ nodes)).
Qed.

(** X20: the degree table has an entry for every node and for nothing
    else, and the entry of a node is the number of edge endpoints equal to
    it (an edge from a node to itself counts twice). *)
Theorem degrees_count (nodes : list str) (edges : list Edge) n :
  PyDict.get n (degrees nodes edges)
  = if decide (n ∈ nodes) then Some (endpoint_count n edges) else None.
Proof. apply degrees_get. Qed.

Lemma deg_init_keys_fold (nodes : list str) (d : PyDict.t str Z) :
  PyDict.keys (fold_left (λ d n, PyDict.set n 0 d) nodes d)
  = PyDict.keys d ++ filter (λ x, x ∉ PyDict.keys d) (first_occ nodes).
Proof.
  revert d. induction nodes as [|x nodes IH]; intros d; simpl.
  - by rewrite app_nil_r.
  - rewrite IH, keys_set. destruct (decide (x ∈ PyDict.keys d)) as [Hin|Hnin].
    + rewrite filter_cons_False by auto. f_equal.
      rewrite list_filter_filter. apply list_filter_iff.
      intros y. destruct (decide (y = x)) as [->|]; tauto.
    + rewrite filter_cons_True by done. rewrite <- app_assoc. simpl.
      do 2 f_equal. rewrite list_filter_filter. apply list_filter_iff.
      intros y. rewrite elem_of_app, list_elem_of_singleton. tauto.
Qed.

Lemma degrees_keys (nodes : list str) (edges : list Edge) :
  PyDict.keys (degrees nodes edges) = first_occ nodes.
Proof.
  unfold degrees, deg_init. rewrite degrees_keys_fold, deg_init_keys_fold.
  simpl. apply filter_all. intros x. apply not_elem_of_nil.
Qed.

Lemma sum_values_keys (d : PyDict.t str Z) :
  NoDup (PyDict.keys d) →
  sum_values d
  = foldr (λ k acc, default 0 (PyDict.get k d) + acc) 0 (PyDict.keys d).
Proof.
  unfold sum_values, PyDict.items, PyDict.keys.
  induction d as [|[k v] d IH]; [done|].
  rewrite fmap_cons, NoDup_cons. intros [Hk Hd]. cbn [foldr].
  cbn [PyDict.get]. rewrite decide_True by done. simpl. rewrite (IH Hd).
  f_equal. clear IH. 
  assert (∀ ks, k ∉ ks →
    foldr (λ k0 acc, default 0 (PyDict.get k0 d) + acc) 0 ks
    = foldr (λ k0 acc,
        default 0 (if decide (k = k0) then Some v else PyDict.get k0 d) + acc)
        0 ks) as Hks.
  { induction ks as [|k0 ks IHks]; [done|].
    rewrite not_elem_of_cons. intros [Hne Hks]. cbn [foldr].
    rewrite decide_False by done. by rewrite IHks. }
  by apply Hks.
Qed.

Lemma sum_indicator (ns : list str) (a : str) :
  NoDup ns → a ∈ ns →
  foldr (λ n acc, (if decide (a = n) then 1 else 0) + acc) 0 ns = 1.
Proof.
  induction 1 as [|n ns Hn Hnd IH]; [by intros ?%elem_of_nil|].
  rewrite elem_of_cons. cbn [foldr].
  destruct (decide (a = n)) as [->|Hne].
  - intros _. 
    assert (∀ l, n ∉ l →
      foldr (λ n0 acc, (if decide (n = n0) then 1 else 0) + acc) 0 l = 0)
      as Hz.
    { induction l as [|x l IHl]; [done|]. rewrite not_elem_of_cons.
      intros [? ?]. cbn [foldr]. rewrite decide_False by done.
      by rewrite IHl. }
    rewrite Hz by done. lia.
  - intros [?|Hin]; [done|]. rewrite IH by done. lia.
Qed.

Lemma sum_endpoint_count_cons (ns : list str) (e : Edge) (edges : list Edge) :
  foldr (λ n acc, endpoint_count n (e :: edges) + acc) 0 ns
  = foldr (λ n acc, endpoint_count n edges + acc) 0 ns
    + foldr (λ n acc, (if decide (e.1.1 = n) then 1 else 0) + acc) 0 ns
    + foldr (λ n acc, (if decide (e.1.2 = n) then 1 else 0) + acc) 0 ns.
Proof.
  unfold endpoint_count. induction ns as [|n ns IH]; [done|].
  cbn [foldr]. rewrite IH, !filter_cons.
  destruct (decide (e.1.1 = n)), (decide (e.1.2 = n)); cbn [length]; lia.
Qed.

Lemma sum_endpoint_count (ns : list str) (edges : list Edge) :
  NoDup ns → (∀ e, e ∈ edges → e.1.1 ∈ ns ∧ e.1.2 ∈ ns) →
  foldr (λ n acc, endpoint_count n edges + acc) 0 ns
  = 2 * Z.of_nat (length edges).
Proof.
  intros Hnd. induction edges as [|e edges IH]; intros Hin.
  - unfold endpoint_count. simpl. clear.
    induction ns as [|n ns IH]; simpl; lia.
  - destruct (Hin e) as [Ha Hb]; [left|].
    rewrite sum_endpoint_count_cons, !sum_indicator by done.
    rewrite IH by (intros e' He'; apply Hin; by right).
    cbn [length]. lia.
Qed.

Lemma sum_ext_in (f g : str → Z) (l : list str) :
  (∀ x, x ∈ l → f x = g x) →
  foldr (λ x acc, f x + acc) 0 l = foldr (λ x acc, g x + acc) 0 l.
Proof.
  induction l as [|x l IH]; [done|]. intros Hfg. cbn [foldr].
  rewrite (Hfg x) by left. rewrite IH; [done|].
  intros y Hy. apply Hfg. by right.
Qed.

Lemma degrees_sum (nodes : list str) (edges : list Edge) :
  (∀ e, e ∈ edges → e.1.1 ∈ nodes ∧ e.1.2 ∈ nodes) →
  sum_values (degrees nodes edges) = 2 * Z.of_nat (length edges).
Proof.
  intros Hin. rewrite sum_values_keys
    by (rewrite degrees_keys; apply first_occ_NoDup).
  rewrite degrees_keys.
  rewrite <- (sum_endpoint_count (first_occ nodes) edges).
  - apply sum_ext_in. intros n Hn. rewrite degrees_get.
    apply (proj1 (first_occ_elem_of _ _)) in Hn.
    by rewrite decide_True.
  - apply first_occ_NoDup.
  - intros e He. rewrite !first_occ_elem_of. auto.
Qed.

(** X21: when both endpoints of every edge are nodes, the degrees add up
    to twice the number of edges. *)
Theorem degrees_handshake (nodes : list str) (edges : list Edge) :
  (∀ e, e ∈ edges → e.1.1 ∈ nodes ∧ e.1.2 ∈ nodes) →
  sum_values (degrees nodes edges) = 2 * Z.of_nat (length edges).
Proof. apply degrees_sum. Qed.

(** ** The node table *)

Lemma get_node_attributes_entry conn ids n :
  n ∈ ids →
  ∃ name, PyDict.get n (get_node_attributes conn ids) = Some (name_entry name).
Proof.
  intros Hin. destruct (get_node_attributes_inv conn ids) as [_ _ He].
  assert (is_Some (PyDict.get n (get_node_attributes conn ids)))
    as [entry Hentry].
  { unfold get_node_attributes.
    destruct ids as [|i0 ids0] eqn:E; [by apply elem_of_nil in Hin|].
    rewrite <- E in *. clear E. rewrite attrs_fallback_get.
    rewrite (decide_True _ _ Hin). by destruct (PyDict.get n _). }
  rewrite Forall_forall in He.
  destruct (He (n, entry)) as (name & Hname & _).
  { by apply get_Some_elem_of. }
  exists name. by rewrite Hentry, <- Hname.
Qed.

Lemma node_table_rows conn (nodes : list str) (edges : list Edge) :
  ∃ rows,
    node_table (get_node_attributes conn nodes) (degrees nodes edges) nodes
    = Some rows
    ∧ Forall2
        (λ n row,
          ∃ name,
            row = (n, name, endpoint_count n edges)
            ∧ PyDict.get n (get_node_attributes conn nodes)
              = Some (name_entry name))
        nodes rows.
Proof.
  unfold node_table.
  set (f := λ n : str,
    entry ← PyDict.get n (get_node_attributes conn nodes);
    name ← PyDict.get (lit "preferred_name") entry;
    Some (n, name, default 0 (PyDict.get n (degrees nodes edges)))).
  assert (∀ n, n ∈ nodes →
    ∃ name, f n = Some (n, name, endpoint_count n edges)
            ∧ PyDict.get n (get_node_attributes conn nodes)
              = Some (name_entry name)) as Hf.
  { intros n Hn. destruct (get_node_attributes_entry conn nodes n Hn)
      as [name Hname].
    exists name. split; [|done]. unfold f. rewrite Hname.
    change (name_entry name) with [(lit "preferred_name", name)].
    cbn [mbind option_bind PyDict.get]. rewrite decide_True by done.
    cbn [mbind option_bind]. by rewrite degrees_get, decide_True. }
  clearbody f.
  assert (∀ l, (∀ n, n ∈ l → n ∈ nodes) →
    ∃ rows, mapM f l = Some rows
      ∧ Forall2
          (λ n row,
            ∃ name,
              row = (n, name, endpoint_count n edges)
              ∧ PyDict.get n (get_node_attributes conn nodes)
                = Some (name_entry name)) l rows) as Hl.
  { induction l as [|n l IH]; intros Hsub.
    - exists []. split; [done|constructor].
    - destruct IH as (rows & Hrows & Hall);
        [intros n' Hn'; apply Hsub; by right|].
      destruct (Hf n) as (name & Hn & Hname); [apply Hsub; left|].
      exists ((n, name, endpoint_count n edges) :: rows). split.
      + apply mapM_Some_2. constructor; [done | by apply mapM_Some_1].
      + constructor; [by exists name|done]. }
  by apply Hl.
Qed.

Section RunBlockFacts.
Context `{SetLayout}.

(** X22: the node table of the run block is always produced (no lookup of
    a display name fails); it has one row per node, in order, holding the
    node, its entry of [get_node_attributes] and the number of edge
    endpoints equal to it. *)
Theorem graph_node_table_rows conn mode seeds thr table max_nodes :
  let '(nodes, edges) := build_graph conn mode seeds thr table max_nodes in
  ∃ rows,
    graph_node_table conn mode seeds thr table max_nodes = Some rows
    ∧ Forall2
        (λ n row,
          ∃ name,
            row = (n, name, endpoint_count n edges)
            ∧ PyDict.get n (get_node_attributes conn nodes)
              = Some (name_entry name))
        nodes rows.
Proof.
  unfold graph_node_table.
  destruct (build_graph conn mode seeds thr table max_nodes) as [nodes edges].
  apply node_table_rows.
Qed.

(** X23: for a budget that is not negative, the graph of the run block has
    at most [max_nodes] nodes, in both modes and for any number of seeds. *)
Theorem build_graph_bound conn mode seeds thr table max_nodes :
  0 ≤ max_nodes →
  Z.of_nat (length (build_graph conn mode seeds thr table max_nodes).1)
  ≤ max_nodes.
Proof.
  intros Hmax. unfold build_graph.
  destruct mode;
    [|destruct (expand_1hop conn seeds thr table max_nodes) as [nodes edges]];
    simpl; by apply hard_cap_spec.
Qed.

Lemma fetch_edges_induced_endpoints conn ids thr table (e : Edge) :
  e ∈ fetch_edges_induced conn ids thr table →
  e.1.1 ∈ ids ∧ e.1.2 ∈ ids.
Proof.
  rewrite fetch_edges_induced_Permutation.
  intros (r & -> & Hr)%list_elem_of_fmap.
  apply list_elem_of_filter in Hr as [(_ & ? & ?) _]. done.
Qed.

Lemma expand_1hop_fits conn seeds thr table max_nodes :
  Z.of_nat (length seeds) ≤ max_nodes →
  Z.of_nat (length (expand_1hop conn seeds thr table max_nodes).1)
  ≤ max_nodes.
Proof.
  intros Hfit. rewrite expand_1hop_nodes. unfold py_list.
  rewrite length_app, length_fmap, length_take.
  assert (length (py_set seeds) ≤ length seeds)%nat; [|lia].
  apply submseteq_length, NoDup_submseteq; [apply py_set_NoDup|].
  intros x. by rewrite py_set_elem_of.
Qed.

(** X24: when the seeds fit the budget, the hard cap removes nothing:
    every seed is a node of the graph of the run block, both endpoints of
    every edge are nodes, and the degrees add up to twice the number of
    edges. *)
Theorem build_graph_closed conn mode seeds thr table max_nodes :
  Z.of_nat (length seeds) ≤ max_nodes →
  let '(nodes, edges) := build_graph conn mode seeds thr table max_nodes in
  Forall (λ s, s ∈ nodes) seeds
  ∧ Forall (λ e : Edge, e.1.1 ∈ nodes ∧ e.1.2 ∈ nodes) edges
  ∧ sum_values (degrees nodes edges) = 2 * Z.of_nat (length edges).
Proof.
  intros Hfit. unfold build_graph.
  assert (0 ≤ max_nodes) as Hmax by lia.
  destruct mode.
  - destruct (hard_cap_spec seeds max_nodes Hmax) as (_ & _ & ->); [|done].
    assert (∀ e, e ∈ fetch_edges_induced conn seeds thr table →
                 e.1.1 ∈ seeds ∧ e.1.2 ∈ seeds) as Hends
      by apply fetch_edges_induced_endpoints.
    split; [by apply Forall_forall|]. split; [by apply Forall_forall|].
    by apply degrees_sum.
  - pose proof (expand_1hop_fits conn seeds thr table max_nodes Hfit) as Hlen.
    pose proof (expand_1hop_edges conn seeds thr table max_nodes) as Hedges.
    pose proof (expand_1hop_nodes conn seeds thr table max_nodes) as Hnodes.
    cbv zeta in Hnodes.
    destruct (expand_1hop conn seeds thr table max_nodes) as [nodes edges].
    simpl in *.
    destruct (hard_cap_spec nodes max_nodes Hmax) as (_ & _ & ->); [|done].
    assert (∀ e, e ∈ edges → e.1.1 ∈ nodes ∧ e.1.2 ∈ nodes) as Hends.
    { rewrite Hedges. apply fetch_edges_induced_endpoints. }
    split; [|split; [by apply Forall_forall | by apply degrees_sum]].
    apply Forall_forall. intros s Hs. rewrite Hnodes.
    apply elem_of_app. left. by apply py_set_elem_of.
Qed.
End RunBlockFacts.

(** ** Node size *)

Lemma endpoint_count_nonneg n edges : 0 ≤ endpoint_count n edges.
Proof. unfold endpoint_count. lia. Qed.

(** X25: the size of a drawn node lies between 10 and 40: it is 10 plus
    its degree, capped at 40, and 10 for an identifier that is no node. *)
Theorem node_size_range (nodes : list str) (edges : list Edge) (n : str) :
  10 ≤ node_size (degrees nodes edges) n ≤ 40
  ∧ node_size (degrees nodes edges) n
    = if decide (n ∈ nodes) then 10 + Z.min 30 (endpoint_count n edges)
      else 10.
Proof.
  unfold node_size. rewrite degrees_get.
  pose proof (endpoint_count_nonneg n edges).
  destruct (decide (n ∈ nodes)); simpl; lia.
Qed.

(** ** Loading in batches *)

Section LoadFacts.
Context {T Row : Type} (ins : T → Row → option T).

Lemma executemany_app (t : T) (l1 l2 : list Row) :
  executemany ins t (l1 ++ l2)
  = executemany ins t l1 ≫= λ t', executemany ins t' l2.
Proof.
  revert t. induction l1 as [|r l1 IH]; intros t; simpl; [done|].
  destruct (ins t r); [apply IH | done].
Qed.

Lemma load_step_None (rows : list (option Row)) :
  fold_left (load_step ins) rows None = None.
Proof. induction rows as [|r rows IH]; [done|]. simpl. apply IH. Qed.

Lemma load_fold (rows : list (option Row)) (t : T) (buf : list Row) (n : Z) :
  load_finish ins (fold_left (load_step ins) rows (Some (t, buf, n)))
  = (λ t', (t', n + Z.of_nat (length (buf ++ omap id rows))))
    <$> executemany ins t (buf ++ omap id rows).
Proof.
  revert t buf n. induction rows as [|[r|] rows IH]; intros t buf n.
  - cbn [fold_left omap list_omap]. rewrite app_nil_r. unfold load_finish.
    destruct buf as [|b buf]; [simpl; do 2 f_equal; lia|].
    by destruct (executemany ins t (b :: buf)).
  - change (omap id (Some r :: rows)) with (r :: omap id rows).
    rewrite (cons_middle r), app_assoc. cbn [fold_left].
    unfold load_step at 2. cbv zeta.
    destruct (BATCH <=? Z.of_nat (length (buf ++ [r]))).
    + rewrite (executemany_app t (buf ++ [r]) (omap id rows)).
      destruct (executemany ins t (buf ++ [r])) as [t'|].
      * rewrite IH. cbn [mbind option_bind app].
        rewrite (length_app (buf ++ [r])).
        destruct (executemany ins t' (omap id rows)); [|done].
        cbn [fmap option_fmap option_map length]. do 2 f_equal. lia.
      * by rewrite load_step_None.
    + apply IH.
  - cbn [fold_left]. change (omap id (None :: rows)) with (omap id rows).
    change (load_step ins (Some (t, buf, n)) None) with (Some (t, buf, n)).
    apply IH.
Qed.

Lemma load_loop_spec (rows : list (option Row)) (t : T) :
  load_loop ins t rows
  = (λ t', (t', Z.of_nat (length (omap id rows))))
    <$> executemany ins t (omap id rows).
Proof. unfold load_loop. by rewrite load_fold. Qed.
End LoadFacts.

Lemma executemany_insert_edge (t rows : list EdgeRow) :
  executemany insert_edge t rows
  = if forallb fits_integer rows then Some (t ++ rows) else None.
Proof.
  revert t. induction rows as [|r rows IH]; intros t; simpl.
  - by rewrite app_nil_r.
  - unfold insert_edge.
    destruct (fits_integer r); simpl; [|done].
    rewrite IH, <- app_assoc. done.
Qed.

Lemma executemany_insert_alias (t rows : list AliasRow) :
  executemany insert_alias t rows = Some (t ++ rows).
Proof.
  revert t. induction rows as [|r rows IH]; intros t; simpl.
  - by rewrite app_nil_r.
  - rewrite IH, <- app_assoc. done.
Qed.

Lemma insert_or_replace_NoDup (t : list ProteinRow) (r : ProteinRow) :
  NoDup (p_protein_id <$> t) →
  NoDup (p_protein_id
         <$> filter (λ p, p_protein_id p ≠ p_protein_id r) t ++ [r]).
Proof.
  intros Hnd. rewrite fmap_app. apply NoDup_app. split; [|split].
  - eapply sublist_NoDup; [exact Hnd|]. apply fmap_sublist, sublist_filter.
  - intros x (p & -> & Hp)%list_elem_of_fmap.
    apply list_elem_of_filter in Hp as [Hne _].
    simpl. by intros ?%list_elem_of_singleton.
  - simpl. apply NoDup_singleton.
Qed.

Lemma executemany_replace_NoDup (t rows : list ProteinRow) :
  NoDup (p_protein_id <$> t) →
  ∃ t', executemany insert_or_replace_protein t rows = Some t'
        ∧ NoDup (p_protein_id <$> t').
Proof.
  revert t. induction rows as [|r rows IH]; intros t Hnd; simpl.
  - by exists t.
  - apply IH. by apply insert_or_replace_NoDup.
Qed.

(** ** Canonical pairs *)

Lemma canonical_pair_ordered (p1 p2 : str) :
  str_lt (canonical_pair p1 p2).2 (canonical_pair p1 p2).1 = false.
Proof.
  unfold canonical_pair. destruct (str_lt p2 p1) eqn:E; simpl; [|done].
  by apply str_lt_asym.
Qed.

Lemma canonical_pair_sym (p1 p2 : str) :
  canonical_pair p1 p2 = canonical_pair p2 p1.
Proof.
  unfold canonical_pair.
  destruct (str_lt p2 p1) eqn:E21, (str_lt p1 p2) eqn:E12; try done.
  - by rewrite (str_lt_asym _ _ E21) in E12.
  - by rewrite (str_lt_total _ _ E12 E21).
Qed.

Section IngestFacts.
Context (is_decimal : N → bool) (py_int : str → option Z).

Lemma edge_of_line_ordered p1_i p2_i sc_i line r :
  edge_of_line py_int p1_i p2_i sc_i line = Some r →
  str_lt (e_p2 r) (e_p1 r) = false.
Proof.
  unfold edge_of_line. destruct (fields_of_line line) as [parts|]; [|done].
  destruct (_ <=? _)%nat; [done|].
  destruct (py_int _) as [sc|]; [|done].
  pose proof (canonical_pair_ordered (part parts p1_i) (part parts p2_i)).
  destruct (canonical_pair _ _) as [p1 p2]. by intros [= <-].
Qed.

Lemma edge_rows_ordered (lines : list str) r :
  r ∈ omap id (edge_rows_of_lines py_int lines) →
  str_lt (e_p2 r) (e_p1 r) = false.
Proof.
  unfold edge_rows_of_lines. destruct (read_header _ lines) as [cols data].
  intros (o & Ho & Hr)%list_elem_of_omap. simpl in Hr. subst o.
  apply list_elem_of_fmap in Ho as (line & Hline & _).
  by eapply edge_of_line_ordered.
Qed.

Lemma load_edges_eq conn lines table :
  load_edges py_int conn lines table
  = let rows := omap id (edge_rows_of_lines py_int lines) in
    if forallb fits_integer rows
    then Some (set_table conn table (table_rows conn table ++ rows),
               Z.of_nat (length rows))
    else None.
Proof.
  unfold load_edges. rewrite load_loop_spec, executemany_insert_edge.
  cbv zeta. by destruct (forallb _ _).
Qed.

Lemma table_rows_set_table conn table rows :
  table_rows (set_table conn table rows) table = rows.
Proof. by destruct table. Qed.

(** X26: [load_edges] succeeds exactly when every score read from the file
    fits a 64-bit [INTEGER]; it then appends the rows of the file to the
    table in the order of the lines, whatever the batch size, changes no
    other table and returns the number of rows. *)
Theorem load_edges_batched conn lines table :
  let rows := omap id (edge_rows_of_lines py_int lines) in
  load_edges py_int conn lines table
  = (if forallb fits_integer rows
     then Some (set_table conn table (table_rows conn table ++ rows),
                Z.of_nat (length rows))
     else None)
  ∧ table_rows (set_table conn table (table_rows conn table ++ rows)) table
    = table_rows conn table ++ rows
  ∧ (∀ other, other ≠ table →
       table_rows (set_table conn table (table_rows conn table ++ rows))
         other
       = table_rows conn other).
Proof.
  cbv zeta. split; [apply load_edges_eq|]. split; [by destruct table|].
  intros other Hne. by destruct table, other.
Qed.

(** X27: [load_edges] keeps the table in canonical order: if no stored row
    has [p2 < p1] before the load, none has afterwards; and a pair is stored
    in the same order whichever endpoint the file names first. *)
Theorem load_edges_canonical conn lines table conn' n :
  Forall (λ r, str_lt (e_p2 r) (e_p1 r) = false) (table_rows conn table) →
  load_edges py_int conn lines table = Some (conn', n) →
  Forall (λ r, str_lt (e_p2 r) (e_p1 r) = false) (table_rows conn' table)
  ∧ ∀ p1 p2, canonical_pair p1 p2 = canonical_pair p2 p1.
Proof.
  intros Hold. rewrite load_edges_eq. cbv zeta.
  destruct (forallb _ _); [|done]. intros [= <- _].
  split; [|apply canonical_pair_sym].
  rewrite table_rows_set_table. apply Forall_app. split; [done|].
  apply Forall_forall. apply edge_rows_ordered.
Qed.

(** ** Taxa *)

Lemma taxon_from_spec (acc s t : str) :
  taxon_from is_decimal acc s = Some t →
  t ≠ []
  ∧ (∃ ds, t = acc ++ ds ∧ Forall (λ c, is_decimal c = true) ds)
  ∧ ∃ rest, acc ++ s = t ++ 46%N :: rest.
Proof.
  revert acc. induction s as [|c s IH]; intros acc; simpl; [done|].
  assert (match acc with
          | [] => None
          | _ => if (c =? 46)%N then Some acc else None
          end = Some t →
          t ≠ []
          ∧ (∃ ds, t = acc ++ ds ∧ Forall (λ c, is_decimal c = true) ds)
          ∧ ∃ rest, acc ++ c :: s = t ++ 46%N :: rest) as Hhere.
  { destruct acc as [|a acc]; [done|].
    destruct (N.eqb_spec c 46) as [->|]; [|done]. intros [= <-].
    split; [done|]. split; [exists []; by rewrite app_nil_r|]. by exists s. }
  destruct (is_decimal c) eqn:Hc; [|done].
  destruct (taxon_from is_decimal (acc ++ [c]) s) as [t'|] eqn:Ht; [|done].
  intros [= ->]. destruct (IH _ Ht) as (Hne & (ds & -> & Hds) & rest & Hrest).
  split; [done|]. split.
  - exists (c :: ds). split; [by rewrite <- app_assoc|by constructor].
  - exists rest. by rewrite <- Hrest, <- app_assoc.
Qed.

Lemma parse_taxon_id_spec (pid t : str) :
  parse_taxon_id is_decimal pid = Some t →
  t ≠ [] ∧ Forall (λ c, is_decimal c = true) t
  ∧ ∃ rest, pid = t ++ 46%N :: rest.
Proof.
  intros (Hne & (ds & -> & Hds) & rest & Hrest)%taxon_from_spec.
  split; [done|]. split; [done|]. by exists rest.
Qed.

Lemma alias_of_line_prefixed pid_i alias_i source_i line a :
  alias_of_line is_decimal pid_i alias_i source_i line = Some a →
  taxon_prefixed a
  ∧ a_taxon_id a
    = str_or (parse_taxon_id is_decimal (a_protein_id a)) [].
Proof.
  unfold alias_of_line. destruct (fields_of_line line) as [parts|]; [|done].
  destruct (_ <=? _)%nat; [done|]. intros [= <-]. simpl. split; [|done].
  unfold taxon_prefixed. simpl.
  destruct (parse_taxon_id is_decimal (part parts pid_i)) as [t|] eqn:Ht;
    [|by left].
  apply parse_taxon_id_spec in Ht as (Hne & _ & rest & Hrest).
  right. exists rest. destruct t; [done|]. done.
Qed.

Lemma load_aliases_eq conn lines :
  load_aliases is_decimal conn lines
  = let rows := omap id (alias_rows_of_lines is_decimal lines) in
    Some (with_aliases conn (aliases conn ++ rows), Z.of_nat (length rows)).
Proof.
  unfold load_aliases. by rewrite load_loop_spec, executemany_insert_alias.
Qed.

(** X28: [load_aliases] never fails, appends its rows to the alias table
    and leaves the other tables alone; every row it adds carries as taxon
    the digits that [parse_taxon_id] matches at the start of its protein
    id, before a dot, or the empty string, so that the id of a row with a
    taxon starts with that taxon and a dot. *)
Theorem load_aliases_taxon conn lines :
  let rows := omap id (alias_rows_of_lines is_decimal lines) in
  load_aliases is_decimal conn lines
  = Some (with_aliases conn (aliases conn ++ rows), Z.of_nat (length rows))
  ∧ Forall
      (λ a, a_taxon_id a
            = str_or (parse_taxon_id is_decimal (a_protein_id a)) []
            ∧ taxon_prefixed a)
      rows.
Proof.
  cbv zeta. split; [apply load_aliases_eq|].
  apply Forall_forall. intros a (o & Ho & Ha)%list_elem_of_omap.
  simpl in Ha. subst o. unfold alias_rows_of_lines in Ho.
  destruct (read_header _ lines) as [cols data].
  apply list_elem_of_fmap in Ho as (line & Hline & _).
  symmetry in Hline. apply alias_of_line_prefixed in Hline. tauto.
Qed.

(** X29: [load_proteins_info] never fails and keeps [protein_id] a primary
    key: no two rows of the table share an id after the load, whatever the
    file repeats. *)
Theorem load_proteins_info_primary_key conn lines :
  primary_key conn →
  ∃ conn' n,
    load_proteins_info conn lines = Some (conn', n)
    ∧ primary_key conn'
    ∧ aliases conn' = aliases conn
    ∧ edges_func conn' = edges_func conn
    ∧ edges_phys conn' = edges_phys conn.
Proof.
  intros Hkey. unfold load_proteins_info. rewrite load_loop_spec.
  destruct (executemany_replace_NoDup (proteins conn)
              (omap id (protein_rows_of_lines lines)) Hkey)
    as (t' & -> & Hnd).
  simpl. eexists _, _. split; [done|]. done.
Qed.
End IngestFacts.

Lemma alias_matches_taxon_prefix conn q2 t (r : AliasHit) :
  Forall taxon_prefixed (aliases conn) → t ≠ [] →
  r ∈ alias_matches conn q2 (Some t) →
  ∃ rest, r_protein_id r = t ++ 46%N :: rest.
Proof.
  intros Hal Ht. unfold alias_matches.
  intros (row & -> & Hrow)%list_elem_of_fmap.
  apply list_elem_of_filter in Hrow as [Hw Hrow].
  unfold alias_where in Hw. apply andb_true_iff in Hw as [_ Htax].
  apply bool_decide_eq_true in Htax.
  assert (row.1 ∈ aliases conn) as Ha.
  { unfold left_join in Hrow. apply elem_of_flat_map in Hrow
      as (a & Ha & Hin).
    destruct (filter _ (proteins conn)) as [|p ps].
    - apply list_elem_of_singleton in Hin as ->. done.
    - apply list_elem_of_fmap in Hin as (p' & -> & _). done. }
  rewrite Forall_forall in Hal. destruct (Hal _ Ha) as [Hnil|[rest Hrest]].
  - congruence.
  - exists rest. simpl. by rewrite <- Htax.
Qed.

(** X30: in a store whose alias rows all have an id that starts with their
    taxon and a dot, [resolve_ids] under a non-empty taxon filter reports,
    for every query that is no primary key, only ids of that taxon: the id
    of every such item starts with the filter and a dot. *)
Theorem resolve_ids_taxon_prefix conn qs t item pid :
  Forall taxon_prefixed (aliases conn) → t ≠ [] →
  item ∈ resolve_ids conn qs (Some t) →
  select_protein conn (query item) = None →
  protein_id item = Some pid →
  ∃ rest, pid = t ++ 46%N :: rest.
Proof.
  intros Hal Ht Hin Hnone Hpid.
  rewrite resolve_ids_omap in Hin.
  apply list_elem_of_omap in Hin as (q & _ & Hq).
  destruct (decide (strip q = [])) as [E|E].
  { by rewrite resolve_query_None in Hq. }
  destruct (resolve_query_Some conn (Some t) q E) as (item' & Hq' & Hquery).
  rewrite Hq in Hq'. injection Hq' as <-. rewrite Hquery in Hnone.
  rewrite resolve_query_alias in Hq by done.
  assert (effective_taxon (Some t) = Some t) as Htx by (by destruct t).
  rewrite Htx in Hq.
  assert (∀ r, r ∈ select_aliases conn (strip q) (Some t) →
               ∃ rest, r_protein_id r = t ++ 46%N :: rest) as Hrows.
  { intros r Hr. apply (alias_matches_taxon_prefix conn (strip q) t r Hal Ht).
    unfold select_aliases in Hr.
    by apply (subseteq_take 50 (alias_matches conn (strip q) (Some t))). }
  destruct (select_aliases conn (strip q) (Some t)) as [|r0 [|r1 rows]].
  - injection Hq as <-. simpl in Hpid. discriminate Hpid.
  - injection Hq as <-. simpl in Hpid. injection Hpid as <-.
    apply Hrows, list_elem_of_here.
  - cbv zeta in Hq.
    pose proof (sorted_Permutation hit_key key_lt (r0 :: r1 :: rows)) as Hp.
    destruct (sorted hit_key key_lt (r0 :: r1 :: rows)) as [|b bs] eqn:Es.
    { by apply Permutation_nil_l in Hp. }
    injection Hq as <-. cbn [protein_id ambiguous_item hd] in Hpid.
    injection Hpid as <-. apply Hrows. rewrite <- Hp. apply list_elem_of_here.
Qed.

(** ** Instances *)

(** X2 on [store_A] with its rows in reverse order. *)
Lemma fetch_edges_induced_store_A :
  @fetch_edges_induced first_seen_layout
    (set_table store_A EdgesFunc (reverse (edges_func store_A)))
    [lit "A"; lit "B"; lit "C"] 0 EdgesFunc
  ≡ₚ edge_of_row
     <$> filter
           (λ r, 0 ≤ e_score_int r
                 ∧ e_p1 r ∈ [lit "A"; lit "B"; lit "C"]
                 ∧ e_p2 r ∈ [lit "A"; lit "B"; lit "C"])
           (table_rows store_A EdgesFunc).
Proof.
  apply (@fetch_edges_induced_each_row_once first_seen_layout store_A
           (set_table store_A EdgesFunc (reverse (edges_func store_A)))
           [lit "A"; lit "B"; lit "C"] 0 EdgesFunc).
  apply reverse_Permutation.
Defined.

(** X6 on [store_A]: the nodes for budget 1 start the nodes for budget 2. *)
Lemma expand_1hop_budget_monotone_store_A :
  (@expand_1hop first_seen_layout store_A [lit "A"] 0 EdgesFunc 1).1
  `prefix_of`
  (@expand_1hop first_seen_layout store_A [lit "A"] 0 EdgesFunc 2).1.
Proof.
  apply (@expand_1hop_budget_monotone first_seen_layout store_A [lit "A"] 0
           EdgesFunc 1 2).
  lia.
Defined.

(** X7 on [store_A]: with budget 3 the seed [A] and both its neighbours
    fit, so [C] is a node. *)
Lemma expand_1hop_admits_all_store_A :
  lit "C"
  ∈ (@expand_1hop first_seen_layout store_A [lit "A"] 0 EdgesFunc 3).1.
Proof.
  apply (@expand_1hop_admits_all first_seen_layout store_A [lit "A"] 0
           EdgesFunc 3 ltac:(vm_compute; discriminate) (lit "C")
           (mk_edge (lit "A") (lit "C") 900)).
  - intros Hin. apply list_elem_of_singleton in Hin. discriminate Hin.
  - apply list_elem_of_further, list_elem_of_here.
  - simpl. lia.
  - left. split; [apply list_elem_of_here | reflexivity].
Defined.

(** X9 on [store_B]: [Q] is neither a protein id nor an alias. *)
Lemma resolve_ids_unresolved_store_B :
  resolve_ids store_B [lit " Q "] None = [unresolved_item (lit "Q")].
Proof.
  apply (resolve_ids_unresolved store_B None (lit " Q ")).
  - vm_compute. discriminate.
  - reflexivity.
  - reflexivity.
Defined.

(** X10 on [store_D]: [9606.p1] is no protein id, the ids being compared
    with case, and is an alias of [9606.P2], the aliases being compared
    without. *)
Lemma resolve_ids_unique_alias_store_D :
  resolve_ids store_D [lit "9606.p1"] None
  = [ alias_item (lit "9606.p1")
        {| r_protein_id := lit "9606.P2"; r_source := Some (lit "UniProt");
           r_preferred_name := Some (lit "N2") |} ].
Proof.
  apply (resolve_ids_unique_alias store_D None (lit "9606.p1")).
  - vm_compute. discriminate.
  - reflexivity.
  - reflexivity.
Defined.

(** X11 on [store_B]: the queries [X] and [x] resolve alike. *)
Lemma resolve_ids_alias_case_insensitive_store_B :
  resolve_ids store_B [lit "x"] None
  = with_query (lit "x") <$> resolve_ids store_B [lit "X"] None.
Proof.
  apply (resolve_ids_alias_case_insensitive store_B None (lit "X") (lit "x")).
  - vm_compute. discriminate.
  - reflexivity.
  - reflexivity.
  - reflexivity.
Defined.

(** X12 on [store_B]: [Q] stays unresolved under the taxon filter [9606]. *)
Lemma resolve_ids_taxon_filter_store_B :
  resolve_ids store_B [lit "Q"] (Some (lit "9606"))
  = [unresolved_item (lit "Q")].
Proof.
  apply (proj2 (resolve_ids_taxon_filter store_B [] (lit "Q") (lit "9606"))).
  reflexivity.
Defined.

(** X16 on [store_B]: the name of [9606.P1] is the one of its row. *)
Lemma get_node_attributes_preferred_name_store_B :
  PyDict.get (lit "9606.P1")
    (get_node_attributes store_B [lit "9606.P1"; lit "ZZ"])
  = Some (name_entry (lit "N1")).
Proof.
  apply (get_node_attributes_preferred_name store_B
           [lit "9606.P1"; lit "ZZ"] (lit "9606.P1")).
  - apply (bool_decide_unpack _). vm_compute. reflexivity.
  - apply list_elem_of_here.
Defined.

(** X19: three nodes under budget 2. *)
Lemma hard_cap_bound_three :
  Z.of_nat (length (hard_cap [lit "A"; lit "B"; lit "C"] 2)) ≤ 2
  ∧ hard_cap [lit "A"; lit "B"; lit "C"] 2
    `prefix_of` [lit "A"; lit "B"; lit "C"].
Proof.
  destruct (hard_cap_bound [lit "A"; lit "B"; lit "C"] 2 ltac:(lia))
    as (Hlen & Hpre & _).
  split; [exact Hlen | exact Hpre].
Defined.

(** X21: one edge between two nodes. *)
Lemma degrees_handshake_one_edge :
  sum_values (degrees [lit "A"; lit "B"] [(lit "A", lit "B", 1)]) = 2.
Proof.
  apply (degrees_handshake [lit "A"; lit "B"] [(lit "A", lit "B", 1)]).
  intros e He. apply list_elem_of_singleton in He. subst e. split.
  - apply list_elem_of_here.
  - apply list_elem_of_further, list_elem_of_here.
Defined.

(** X23 on [store_A]: budget 2 with the seed [A]. *)
Lemma build_graph_bound_store_A :
  Z.of_nat
    (length (@build_graph first_seen_layout store_A OneHop [lit "A"] 0
               EdgesFunc 2).1)
  ≤ 2.
Proof.
  apply (@build_graph_bound first_seen_layout store_A OneHop [lit "A"] 0
           EdgesFunc 2).
  lia.
Defined.

(** X24 on [store_A]: budget 3 with the seed [A]. *)
Lemma build_graph_closed_store_A :
  let '(nodes, edges) :=
    @build_graph first_seen_layout store_A OneHop [lit "A"] 0 EdgesFunc 3 in
  Forall (λ s, s ∈ nodes) [lit "A"]
  ∧ Forall (λ e : Edge, e.1.1 ∈ nodes ∧ e.1.2 ∈ nodes) edges
  ∧ sum_values (degrees nodes edges) = 2 * Z.of_nat (length edges).
Proof.
  apply (@build_graph_closed first_seen_layout store_A OneHop [lit "A"] 0
           EdgesFunc 3).
  simpl. lia.
Defined.

(** X27: a links file with a header and the line [B A 500], read into an
    empty store. *)
Lemma load_edges_canonical_swapped :
  Forall (λ r, str_lt (e_p2 r) (e_p1 r) = false)
    (table_rows
       (set_table empty_store EdgesFunc [mk_edge (lit "A") (lit "B") 500])
       EdgesFunc)
  ∧ ∀ p1 p2, canonical_pair p1 p2 = canonical_pair p2 p1.
Proof.
  apply (load_edges_canonical ascii_int empty_store
           [lit "#protein1 protein2 combined_score"; lit "B A 500"]
           EdgesFunc
           (set_table empty_store EdgesFunc [mk_edge (lit "A") (lit "B") 500])
           1).
  - constructor.
  - reflexivity.
Defined.

(** X30 on [store_taxa]: under the taxon [9606] the alias [X] resolves to
    the protein of that taxon alone. *)
Lemma resolve_ids_taxon_prefix_store_taxa :
  protein_id <$> resolve_ids store_taxa [lit "X"] (Some (lit "9606"))
  = [Some (lit "9606.P1")]
  ∧ ∃ rest, lit "9606.P1" = lit "9606" ++ 46%N :: rest.
Proof.
  split; [reflexivity|].
  apply (resolve_ids_taxon_prefix store_taxa [lit "X"] (lit "9606")
           {| query := lit "X"; status := resolved;
              protein_id := Some (lit "9606.P1");
              preferred_name := Some (lit "N1");
              source := Some (lit "UniProt"); candidates := None |}
           (lit "9606.P1")).
  - apply Forall_cons_2; [|apply Forall_cons_2; [|apply Forall_nil_2]].
    + right. exists (lit "Q1"). reflexivity.
    + right. exists (lit "P1"). reflexivity.
  - discriminate.
  - vm_compute. apply list_elem_of_here.
  - reflexivity.
  - reflexivity.
Defined.

(** X29 on [store_B]: an info file that names [9606.P1] again. *)
Lemma load_proteins_info_primary_key_store_B :
  ∃ conn' n,
    load_proteins_info store_B
      [lit "#protein_id preferred_name annotation"; lit "9606.P1 M1 none"]
    = Some (conn', n)
    ∧ primary_key conn'
    ∧ aliases conn' = aliases store_B
    ∧ edges_func conn' = edges_func store_B
    ∧ edges_phys conn' = edges_phys store_B.
Proof.
  apply (load_proteins_info_primary_key store_B
           [lit "#protein_id preferred_name annotation";
            lit "9606.P1 M1 none"]).
  apply (bool_decide_unpack _). vm_compute. reflexivity.
Defined.

(** X26: a links file whose second data line has no number as score; the
    line is skipped, the two others are stored in canonical order and the
    physical table stays empty. *)
Lemma load_edges_batched_three_lines :
  load_edges ascii_int empty_store
    [lit "#protein1 protein2 combined_score"; lit "B A 500"; lit "A C x";
     lit "C D 7"] EdgesFunc
  = Some (set_table empty_store EdgesFunc
            [mk_edge (lit "A") (lit "B") 500; mk_edge (lit "C") (lit "D") 7],
          2)
  ∧ table_rows
      (set_table empty_store EdgesFunc
         [mk_edge (lit "A") (lit "B") 500; mk_edge (lit "C") (lit "D") 7])
      EdgesPhys
    = [].
Proof.
  pose proof (load_edges_batched ascii_int empty_store
                [lit "#protein1 protein2 combined_score"; lit "B A 500";
                 lit "A C x"; lit "C D 7"] EdgesFunc) as Hload.
  cbv zeta in Hload. destruct Hload as (Heq & _ & Hother).
  split; [exact Heq|]. apply (Hother EdgesPhys). discriminate.
Defined.
